(** * Floyd-Warshall engine: a shallow embedding of [floyd_warshall.py]

    The class [FloydWarshall] keeps an [n x n] matrix of best known costs,
    a sentinel [inf] for "no known path" and a flag [_needs_solve].  Weights
    are Python integers, modelled as [Z]; the sentinel is an integer too (the
    driver in [example/example.py] passes [N * 10**9]).  Every theorem on
    sums of weights is a theorem on integer weights and an integer sentinel:
    the methods also take floats, whose sums are rounded, and what rounding
    does to them is shown on a second copy of the methods, over any number
    type, run on binary64 floats.  The number of vertices
    is a natural number; vertex arguments are integers, as [add_edge]
    asserts their range.  [RuntimeError] is the error of a stale matrix,
    [AssertionError] that of a violated precondition.

    Methods run in a small state-and-exception monad: a method receives the
    object, returns either a value or a raised exception, together with the
    object as the call left it. *)

From Stdlib Require Import PrimFloat.
From Stdlib Require Import ZArith List Lia Bool Permutation.
From stdpp Require Import base tactics option list.

Local Open Scope Z_scope.

(** ** The distance matrix: a list of rows, read and written by index *)

Definition get (d : list (list Z)) (i j : nat) : Z := (d !!! i) !!! j.

Definition set (d : list (list Z)) (i j : nat) (x : Z) : list (list Z) :=
  alter (fun row => <[j := x]> row) i d.

(** A matrix is square of side [n]. *)
Definition shape (n : nat) (d : list (list Z)) : Prop :=
  length d = n /\ Forall (fun row => length row = n) d.

(** ** The object and the method monad *)

Record FloydWarshall := mkFW {
  _n : nat;
  inf : Z;
  _dist : list (list Z);
  _needs_solve : bool
}.

Inductive exn := AssertionError | RuntimeError.

Inductive outcome (A : Type) :=
| Returned (a : A)
| Raised (e : exn).
Arguments Returned {A} a.
Arguments Raised {A} e.

Definition M (A : Type) : Type := FloydWarshall -> outcome A * FloydWarshall.

Definition ret {A} (a : A) : M A := fun self => (Returned a, self).

Definition bind {A B} (m : M A) (k : A -> M B) : M B :=
  fun self =>
    match m self with
    | (Returned a, self') => k a self'
    | (Raised e, self') => (Raised e, self')
    end.

Definition raise {A} (e : exn) : M A := fun self => (Raised e, self).

Definition assert (b : bool) : M unit :=
  if b then ret tt else raise AssertionError.

Definition this : M FloydWarshall := fun self => (Returned self, self).

Definition store_dist (d : list (list Z)) : M unit :=
  fun self => (Returned tt,
               mkFW (_n self) (inf self) d (_needs_solve self)).

Definition store_needs_solve (b : bool) : M unit :=
  fun self => (Returned tt, mkFW (_n self) (inf self) (_dist self) b).

Declare Scope py_scope.
Delimit Scope py_scope with py.
Notation "x <- m ;; k" := (bind m (fun x => k))
  (at level 100, m at level 99, k at level 200, right associativity)
  : py_scope.
Notation "m ;;; k" := (bind m (fun _ => k))
  (at level 100, k at level 200, right associativity) : py_scope.

(** ** [__init__] *)

Definition init_dist (num_v : nat) (inf : Z) : list (list Z) :=
  map (fun i => map (fun j => if Nat.eqb i j then 0 else inf) (seq 0 num_v))
      (seq 0 num_v).

Definition construct (num_v : nat) (inf : Z) : outcome FloydWarshall :=
  if inf >? 0 then Returned (mkFW num_v inf (init_dist num_v inf) false)
  else Raised AssertionError.

(** ** [add_edge] *)

(** The inner loop over [j], with [tmp = dist[i][u] + weight] read before it. *)
Definition add_edge_inner (inf tmp : Z) (i v : nat)
    (dist : list (list Z)) (j : nat) : list (list Z) :=
  if get dist v j =? inf then dist
  else
    let d := tmp + get dist v j in
    if d <? get dist i j then set dist i j d else dist.

(** The outer loop body, for one [i]. *)
Definition add_edge_outer (n : nat) (inf : Z) (u v : nat) (weight : Z)
    (dist : list (list Z)) (i : nat) : list (list Z) :=
  if get dist i u =? inf then dist
  else
    let tmp := get dist i u + weight in
    fold_left (add_edge_inner inf tmp i v) (seq 0 n) dist.

Definition propagate (n : nat) (inf : Z) (u v : nat) (weight : Z)
    (dist : list (list Z)) : list (list Z) :=
  fold_left (add_edge_outer n inf u v weight) (seq 0 n) dist.

Definition add_edge (u v weight : Z) (update_dists : bool) : M unit :=
  (self <- this ;;
   assert ((0 <=? u) && (u <? Z.of_nat (_n self))) ;;;
   assert ((0 <=? v) && (v <? Z.of_nat (_n self))) ;;;
   assert (weight <? inf self) ;;;
   if update_dists && _needs_solve self then raise RuntimeError
   else if weight >=? get (_dist self) (Z.to_nat u) (Z.to_nat v) then ret tt
   else
     store_dist (set (_dist self) (Z.to_nat u) (Z.to_nat v) weight) ;;;
     if negb update_dists then store_needs_solve true
     else
       self <- this ;;
       store_dist (propagate (_n self) (inf self) (Z.to_nat u) (Z.to_nat v)
                             weight (_dist self)))%py.

(** ** [solve] *)

Definition solve_inner (inf dik : Z) (i k : nat)
    (dist : list (list Z)) (j : nat) : list (list Z) :=
  if get dist k j =? inf then dist
  else
    let d := dik + get dist k j in
    if d <? get dist i j then set dist i j d else dist.

Definition solve_middle (n : nat) (inf : Z) (k : nat)
    (dist : list (list Z)) (i : nat) : list (list Z) :=
  if get dist i k =? inf then dist
  else
    let dik := get dist i k in
    fold_left (solve_inner inf dik i k) (seq 0 n) dist.

Definition solve_outer (n : nat) (inf : Z)
    (dist : list (list Z)) (k : nat) : list (list Z) :=
  fold_left (solve_middle n inf k) (seq 0 n) dist.

Definition floyd_warshall (n : nat) (inf : Z) (dist : list (list Z))
    : list (list Z) :=
  fold_left (solve_outer n inf) (seq 0 n) dist.

Definition solve : M (list (list Z)) :=
  (self <- this ;;
   assert (inf self >? 0) ;;;
   if negb (_needs_solve self) then ret (_dist self)
   else
     store_dist (floyd_warshall (_n self) (inf self) (_dist self)) ;;;
     store_needs_solve false ;;;
     self <- this ;;
     ret (_dist self))%py.

(** ** The [dist] property and [has_negative_cycle] *)

Definition dist : M (list (list Z)) :=
  (self <- this ;;
   if _needs_solve self then raise RuntimeError
   else ret (_dist self))%py.

Definition has_negative_cycle : M bool :=
  (self <- this ;;
   if _needs_solve self then raise RuntimeError
   else ret (existsb (fun v => get (_dist self) v v <? 0)
                     (seq 0 (_n self))))%py.

(** ** Calls, and the objects a program can hold *)

Inductive call :=
| InsertEdge (u v weight : Z) (update_dists : bool)
| Solve
| Distances
| HasNegativeCycle.

Definition raised {A} (r : outcome A) : option exn :=
  match r with Returned _ => None | Raised e => Some e end.

(** A call's exception, if any, and the object after it. *)
Definition perform (c : call) (self : FloydWarshall)
    : option exn * FloydWarshall :=
  match c with
  | InsertEdge u v weight update_dists =>
      let (r, self') := add_edge u v weight update_dists self in
      (raised r, self')
  | Solve => let (r, self') := solve self in (raised r, self')
  | Distances => let (r, self') := dist self in (raised r, self')
  | HasNegativeCycle =>
      let (r, self') := has_negative_cycle self in (raised r, self')
  end.

Inductive reachable : FloydWarshall -> Prop :=
| reach_construct num_v i self :
    construct num_v i = Returned self -> reachable self
| reach_call c self :
    reachable self -> reachable (snd (perform c self)).

(** Well-formed objects: positive sentinel and a square matrix. *)
Definition wf (self : FloydWarshall) : Prop :=
  0 < inf self /\ shape (_n self) (_dist self).

(** The arguments [add_edge] asserts on. *)
Definition in_range (self : FloydWarshall) (u : Z) : Prop :=
  0 <= u < Z.of_nat (_n self).

(** ** Programs over the methods *)

(** The loop of a driver: [for (u, v, w, p) in calls: fw.add_edge(u, v, w, p)];
    an exception ends it. *)
Fixpoint add_edges (calls : list (Z * Z * Z * bool)) : M unit :=
  match calls with
  | [] => ret tt
  | (u, v, w, p) :: calls =>
      (add_edge u v w p ;;; add_edges calls)%py
  end.

(** The scenario of [test_negative_cycle_detection]: a directed triangle
    [0 -> 1 -> 2 -> 0] with the given weights, solved and queried. *)
Definition triangle (a b c : Z) : M bool :=
  (add_edge 0 1 a false ;;;
   add_edge 1 2 b false ;;;
   add_edge 2 0 c false ;;;
   solve ;;;
   has_negative_cycle)%py.

(** ** Comparing matrices and objects *)

(** [d] is entry by entry at most [d0]. *)
Definition below (d0 d : list (list Z)) : Prop :=
  forall a b, get d a b <= get d0 a b.

(** The object after a call is the object before it, or one of three
    rewritten objects. *)
Inductive after (self : FloydWarshall) : FloydWarshall -> Prop :=
| after_same : after self self
| after_lazy u v w :
    (u < _n self)%nat -> (v < _n self)%nat -> w < inf self ->
    w < get (_dist self) u v ->
    after self (mkFW (_n self) (inf self) (set (_dist self) u v w) true)
| after_eager u v w :
    (u < _n self)%nat -> (v < _n self)%nat -> w < inf self ->
    w < get (_dist self) u v -> _needs_solve self = false ->
    after self (mkFW (_n self) (inf self)
                  (propagate (_n self) (inf self) u v w
                     (set (_dist self) u v w)) false)
| after_solve :
    0 < inf self -> _needs_solve self = true ->
    after self (mkFW (_n self) (inf self)
                  (floyd_warshall (_n self) (inf self) (_dist self)) false).

(** No entry exceeds the sentinel. *)
Definition bounded (self : FloydWarshall) : Prop :=
  forall i j, (i < _n self)%nat -> (j < _n self)%nat ->
    get (_dist self) i j <= inf self.

(** An edge that passes the assertions of [add_edge]. *)
Definition insertable (num_v : nat) (sentinel : Z) (e : Z * Z * Z) : Prop :=
  let '(u, v, w) := e in
  0 <= u < Z.of_nat num_v /\ 0 <= v < Z.of_nat num_v /\ w < sentinel.

(** ** The relaxation pass as the spec words it *)






(** ** Weighted directed graphs given by their inserted edges

    An edge is [(u, v, w)]; parallel edges may carry several weights, and a
    path picks any of them, so the cheapest path uses the cheapest one. *)

(** [path es i j l]: a directed path from [i] to [j] of total weight [l];
    the empty path joins a vertex to itself at weight 0. *)
Inductive path (es : list (nat * nat * Z)) : nat -> nat -> Z -> Prop :=
| path_nil i : path es i i 0
| path_cons i m j w l :
    In (i, m, w) es -> path es m j l -> path es i j (w + l).

(** [walk es k i j l]: a path whose inner vertices are all below [k]. *)
Inductive walk (es : list (nat * nat * Z)) (k : nat)
    : nat -> nat -> Z -> Prop :=
| walk_nil i : walk es k i i 0
| walk_edge i j w : In (i, j, w) es -> walk es k i j w
| walk_step i m j w l :
    In (i, m, w) es -> (m < k)%nat -> walk es k m j l ->
    walk es k i j (w + l).

(** No closed path has negative weight. *)
Definition no_negative_cycle (es : list (nat * nat * Z)) : Prop :=
  forall v l, path es v v l -> 0 <= l.

(** [l] is at most the weight of every path from [i] to [j]. *)
Definition optimal (es : list (nat * nat * Z)) (i j : nat) (l : Z) : Prop :=
  forall l', path es i j l' -> l <= l'.

(** [l] is the weight of a shortest path from [i] to [j]. *)
Definition shortest (es : list (nat * nat * Z)) (i j : nat) (l : Z) : Prop :=
  path es i j l /\ optimal es i j l.

(** The docstring's condition on a finite sentinel: it is strictly larger
    than any reachable shortest-path distance. *)
Definition sentinel_above (es : list (nat * nat * Z)) (sentinel : Z) : Prop :=
  forall i j l, shortest es i j l -> l < sentinel.

(** Every edge joins vertices below [n]. *)
Definition within (n : nat) (es : list (nat * nat * Z)) : Prop :=
  forall i j w, In (i, j, w) es -> (i < n)%nat /\ (j < n)%nat.

(** Every edge leads to a higher vertex. *)
Definition forward (es : list (nat * nat * Z)) : Prop :=
  forall a b w, In (a, b, w) es -> (a < b)%nat.

(** The graph of a list of inserted edges. *)
Definition graph (es : list (Z * Z * Z)) : list (nat * nat * Z) :=
  map (fun '(u, v, w) => (Z.to_nat u, Z.to_nat v, w)) es.

(** The graph of a list of [add_edge] calls, and the calls that insert a
    list of edges with and without propagation. *)
Definition edges_of (calls : list (Z * Z * Z * bool))
    : list (nat * nat * Z) :=
  graph (map fst calls).

Definition eagerly (es : list (Z * Z * Z)) : list (Z * Z * Z * bool) :=
  map (fun e => (e, true)) es.

Definition lazily (es : list (Z * Z * Z)) : list (Z * Z * Z * bool) :=
  map (fun e => (e, false)) es.

(** ** What the matrix knows about the graph *)

(** Every entry is at most the sentinel, and an entry below the sentinel is
    the weight of a path. *)
Definition sound (es : list (nat * nat * Z)) (sentinel : Z) (n : nat)
    (d : list (list Z)) : Prop :=
  shape n d /\
  forall i j, (i < n)%nat -> (j < n)%nat ->
    get d i j <= sentinel /\
    (get d i j < sentinel -> path es i j (get d i j)).

(** The matrix has seen the empty paths and every edge. *)
Definition direct (es : list (nat * nat * Z)) (n : nat)
    (d : list (list Z)) : Prop :=
  (forall i, (i < n)%nat -> get d i i <= 0) /\
  forall i j w, In (i, j, w) es -> get d i j <= w.

(** The matrix has reached every distance of the graph [F] that a walk over
    [es] through vertices below [k] attains. *)
Definition complete (F es : list (nat * nat * Z)) (k n : nat)
    (d : list (list Z)) : Prop :=
  forall i j l, (i < n)%nat -> (j < n)%nat ->
    walk es k i j l -> optimal F i j l -> get d i j <= l.

(** The same for every path over [es]. *)
Definition complete_all (F es : list (nat * nat * Z)) (n : nat)
    (d : list (list Z)) : Prop :=
  forall i j l, (i < n)%nat -> (j < n)%nat ->
    path es i j l -> optimal F i j l -> get d i j <= l.

(** The value [tmp = t] read for row [i'] during a pass through [a]: the
    weight of a path to [a] plus [c], and in row [i] the distance [x] plus
    [c]. *)
Definition reads_path (es : list (nat * nat * Z)) (a : nat) (c : Z)
    (i : nat) (x : Z) (i' : nat) (t : Z) : Prop :=
  path es i' a (t - c) /\ (i' = i -> t = x + c).

(** What an object knows of the edges [G] inserted so far, [F] being all
    the edges the program will have inserted. *)
Definition knows (F G : list (nat * nat * Z)) (self : FloydWarshall) : Prop :=
  wf self /\
  within (_n self) G /\
  sound G (inf self) (_n self) (_dist self) /\
  direct G (_n self) (_dist self) /\
  (_needs_solve self = false -> complete_all F G (_n self) (_dist self)).

(** ** Histories of calls *)

(** The object after a list of calls, each one made on the object the
    previous one left, whether it returned or raised. *)
Definition run (cs : list call) (self : FloydWarshall) : FloydWarshall :=
  fold_left (fun s c => snd (perform c s)) cs self.

(** The edge a call inserts: that of an [add_edge] that returns. *)
Definition new_edge (c : call) (self : FloydWarshall)
    : list (nat * nat * Z) :=
  match c with
  | InsertEdge u v w p =>
      match fst (add_edge u v w p self) with
      | Returned _ => [(Z.to_nat u, Z.to_nat v, w)]
      | Raised _ => []
      end
  | _ => []
  end.

(** The edges a list of calls inserts into [self]. *)
Fixpoint inserted (cs : list call) (self : FloydWarshall)
    : list (nat * nat * Z) :=
  match cs with
  | [] => []
  | c :: cs => inserted cs (snd (perform c self)) ++ new_edge c self
  end.

(** What every object holds of the edges [G] inserted so far, stale or not. *)
Definition heard (G : list (nat * nat * Z)) (self : FloydWarshall) : Prop :=
  wf self /\
  within (_n self) G /\
  sound G (inf self) (_n self) (_dist self) /\
  direct G (_n self) (_dist self).

(** ** The copy of the class in [example/example.py]

    Its [__init__], [add_edge], [dist] and [has_negative_cycle] are those of
    [floyd_warshall.py]; its [solve] has no early return and reads
    [dist[i][k]] afresh for every [j]. *)

Definition example_solve_inner (inf : Z) (i k : nat)
    (dist : list (list Z)) (j : nat) : list (list Z) :=
  if get dist k j =? inf then dist
  else
    let d := get dist i k + get dist k j in
    if d <? get dist i j then set dist i j d else dist.

Definition example_solve_middle (n : nat) (inf : Z) (k : nat)
    (dist : list (list Z)) (i : nat) : list (list Z) :=
  if get dist i k =? inf then dist
  else fold_left (example_solve_inner inf i k) (seq 0 n) dist.

Definition example_solve_outer (n : nat) (inf : Z)
    (dist : list (list Z)) (k : nat) : list (list Z) :=
  fold_left (example_solve_middle n inf k) (seq 0 n) dist.

Definition example_floyd_warshall (n : nat) (inf : Z)
    (dist : list (list Z)) : list (list Z) :=
  fold_left (example_solve_outer n inf) (seq 0 n) dist.

Definition example_solve : M (list (list Z)) :=
  (self <- this ;;
   assert (inf self >? 0) ;;;
   store_dist (example_floyd_warshall (_n self) (inf self) (_dist self)) ;;;
   store_needs_solve false ;;;
   self <- this ;;
   ret (_dist self))%py.

(** ** The driver [main] of [example/example.py]

    Reading and splitting the input lines is left out: [main] is taken from
    the parsed numbers on, an edge line as [(A, B, C)] and a query line as
    [1 i] or [2 x y]; what it prints is the list it returns. *)

(** Python's list index: from the front for [0 <= i < len], from the back
    for [-len <= i < 0], [IndexError] otherwise. *)
Definition py_index (len : nat) (i : Z) : option nat :=
  if (0 <=? i) && (i <? Z.of_nat len) then Some (Z.to_nat i)
  else if (- Z.of_nat len <=? i) && (i <? 0)
       then Some (Z.to_nat (Z.of_nat len + i))
       else None.

Definition py_lookup {A} (l : list A) (i : Z) : option A :=
  match py_index (length l) i with
  | Some k => l !! k
  | None => None
  end.

Inductive failure := EngineError (e : exn) | IndexError.

(** A query line as read, and a query as [main] stores it. *)
Inductive query_line := Close (i : Z) | Ask (x y : Z).
Inductive query := Reopen (i : Z) | Distance (x y : Z).

Definition is_ask (l : query_line) : bool :=
  match l with Ask _ _ => true | Close _ => false end.

(** [Edges += [(A - 1, B - 1, C)]] for every edge line. *)
Definition read_edges (lines : list (Z * Z * Z)) : list (Z * Z * Z) :=
  map (fun '(A, B, C) => (A - 1, B - 1, C)) lines.

(** The loop over the query lines, filling [Queries] and [is_passable]. *)
Fixpoint read_queries (lines : list query_line) (queries : list query)
    (is_passable : list bool) : failure + (list query * list bool) :=
  match lines with
  | [] => inr (queries, is_passable)
  | Close q0 :: lines =>
      let i := q0 - 1 in
      match py_index (length is_passable) i with
      | Some k =>
          read_queries lines (queries ++ [Reopen i]) (<[k := false]> is_passable)
      | None => inl IndexError
      end
  | Ask x y :: lines =>
      read_queries lines (queries ++ [Distance (x - 1) (y - 1)]) is_passable
  end.

(** A method call made by the driver: its exception ends the program. *)
Definition engine {A} (m : M A) (fw : FloydWarshall)
    : failure + (A * FloydWarshall) :=
  match m fw with
  | (Returned a, fw') => inr (a, fw')
  | (Raised e, _) => inl (EngineError e)
  end.

(** [for i in range(M)]: the passable edges, inserted in both directions. *)
Fixpoint insert_passable (edges : list ((Z * Z * Z) * bool))
    (fw : FloydWarshall) : failure + FloydWarshall :=
  match edges with
  | [] => inr fw
  | ((A, B, C), passable) :: edges =>
      if negb passable then insert_passable edges fw
      else
        match engine (add_edge A B C false) fw with
        | inl f => inl f
        | inr (_, fw) =>
            match engine (add_edge B A C false) fw with
            | inl f => inl f
            | inr (_, fw) => insert_passable edges fw
            end
        end
  end.

(** [for com, q in Queries[::-1]]: reopen an edge with propagation, or read
    a distance and append it to [answers], -1 standing for the sentinel. *)
Fixpoint answer_queries (edges : list (Z * Z * Z)) (queries : list query)
    (fw : FloydWarshall) (answers : list Z) : failure + list Z :=
  match queries with
  | [] => inr answers
  | Reopen q :: queries =>
      match py_lookup edges q with
      | None => inl IndexError
      | Some (A, B, C) =>
          match engine (add_edge A B C true) fw with
          | inl f => inl f
          | inr (_, fw) =>
              match engine (add_edge B A C true) fw with
              | inl f => inl f
              | inr (_, fw) => answer_queries edges queries fw answers
              end
          end
      end
  | Distance x y :: queries =>
      match engine dist fw with
      | inl f => inl f
      | inr (m, fw) =>
          match py_lookup m x with
          | None => inl IndexError
          | Some row =>
              match py_lookup row y with
              | None => inl IndexError
              | Some d =>
                  let d := if d =? inf fw then -1 else d in
                  answer_queries edges queries fw (answers ++ [d])
              end
          end
      end
  end.

Definition main (N : Z) (edge_lines : list (Z * Z * Z))
    (query_lines : list query_line) : failure + list Z :=
  let Edges := read_edges edge_lines in
  match read_queries query_lines [] (repeat true (length edge_lines)) with
  | inl f => inl f
  | inr (Queries, is_passable) =>
      match construct (Z.to_nat N) (N * 10 ^ 9) with
      | Raised e => inl (EngineError e)
      | Returned fw =>
          match insert_passable (combine Edges is_passable) fw with
          | inl f => inl f
          | inr fw =>
              match engine example_solve fw with
              | inl f => inl f
              | inr (_, fw) =>
                  match answer_queries Edges (rev Queries) fw [] with
                  | inl f => inl f
                  | inr answers => inr (rev answers)
                  end
              end
          end
      end
  end.

(** Input as the problem statement promises it. *)
Definition well_formed_input (N : Z) (edge_lines : list (Z * Z * Z))
    (query_lines : list query_line) : Prop :=
  1 <= N /\
  Forall (fun '(A, B, C) => 1 <= A <= N /\ 1 <= B <= N /\ C < N * 10 ^ 9)
         edge_lines /\
  Forall (fun l =>
            match l with
            | Close i => 1 <= i <= Z.of_nat (length edge_lines)
            | Ask x y => 1 <= x <= N /\ 1 <= y <= N
            end) query_lines.

(** The stored form of a well-formed query. *)
Definition query_ok (N : Z) (M : nat) (q : query) : Prop :=
  match q with
  | Reopen i => 0 <= i < Z.of_nat M
  | Distance x y => 0 <= x < N /\ 0 <= y < N
  end.

Definition is_distance (q : query) : bool :=
  match q with Distance _ _ => true | Reopen _ => false end.

(** The driver's object between two steps. *)
Definition serving (N : Z) (fw : FloydWarshall) : Prop :=
  wf fw /\ bounded fw /\ Z.of_nat (_n fw) = N /\ inf fw = N * 10 ^ 9.

(** ** Paths that enter each vertex at most once *)

(** [entering es S i j l]: a path every vertex of which, the start apart,
    lies in [S]. *)
Inductive entering (es : list (nat * nat * Z)) (S : list nat)
    : nat -> nat -> Z -> Prop :=
| entering_nil i : entering es S i i 0
| entering_cons i m j w l :
    In (i, m, w) es -> In m S -> entering es S m j l ->
    entering es S i j (w + l).

(** [trail es S i j l]: such a path that enters no vertex twice. *)
Inductive trail (es : list (nat * nat * Z))
    : list nat -> nat -> nat -> Z -> Prop :=
| trail_nil S i : trail es S i i 0
| trail_cons S i m j w l :
    In (i, m, w) es -> In m S ->
    trail es (remove Nat.eq_dec m S) m j l ->
    trail es S i j (w + l).

(** No edge has a negative weight. *)
Definition nonnegative (es : list (nat * nat * Z)) : Prop :=
  forall a b w, In (a, b, w) es -> 0 <= w.

(** ** What the driver is to print *)

(** The roads of one edge line, when passable: both directions. *)
Definition open_roads (e : (Z * Z * Z) * bool) : list (nat * nat * Z) :=
  let '((A, B, C), passable) := e in
  if passable
  then [(Z.to_nat A, Z.to_nat B, C); (Z.to_nat B, Z.to_nat A, C)]
  else [].

(** The road network under [is_passable]. *)
Definition network (edges : list (Z * Z * Z)) (is_passable : list bool)
    : list (nat * nat * Z) :=
  flat_map open_roads (combine edges is_passable).

(** What a query line does to [is_passable] and how [main] stores it. *)
Definition close_line (is_passable : list bool) (l : query_line)
    : list bool :=
  match l with
  | Close i => <[Z.to_nat (i - 1) := false]> is_passable
  | Ask _ _ => is_passable
  end.

Definition close_all (lines : list query_line) (is_passable : list bool)
    : list bool :=
  fold_left close_line lines is_passable.

Definition store (l : query_line) : query :=
  match l with
  | Close i => Reopen (i - 1)
  | Ask x y => Distance (x - 1) (y - 1)
  end.

(** Every [1 i] line closes a road that is open when the line comes. *)
Fixpoint closes_open (is_passable : list bool) (lines : list query_line)
    : Prop :=
  match lines with
  | [] => True
  | l :: lines =>
      match l with
      | Close i => is_passable !! Z.to_nat (i - 1) = Some true
      | Ask _ _ => True
      end /\ closes_open (close_line is_passable l) lines
  end.

(** The answer a distance query calls for on the network [G]: the weight
    of a shortest path, or -1 when there is no path. *)
Definition distance_answer (G : list (nat * nat * Z)) (x y : nat) (v : Z)
    : Prop :=
  shortest G x y v \/ (v = -1 /\ forall l, ~ path G x y l).

(** The numbers the query lines call for, in the order of the lines: each
    distance query is answered on the network as the lines before it left
    it. *)
Inductive expected (edges : list (Z * Z * Z))
    : list bool -> list query_line -> list Z -> Prop :=
| expected_nil is_passable : expected edges is_passable [] []
| expected_close is_passable i lines out :
    expected edges (close_line is_passable (Close i)) lines out ->
    expected edges is_passable (Close i :: lines) out
| expected_ask is_passable x y lines v out :
    distance_answer (network edges is_passable)
      (Z.to_nat (x - 1)) (Z.to_nat (y - 1)) v ->
    expected edges is_passable lines out ->
    expected edges is_passable (Ask x y :: lines) (v :: out).

(** The same numbers as the backward loop of [main] collects them: for the
    lines [pre], latest query first. *)
Inductive answered (edges : list (Z * Z * Z)) (is_passable : list bool)
    : list query_line -> list Z -> Prop :=
| answered_nil : answered edges is_passable [] []
| answered_close pre i vs :
    answered edges is_passable pre vs ->
    answered edges is_passable (pre ++ [Close i]) vs
| answered_ask pre x y v vs :
    distance_answer (network edges (close_all pre is_passable))
      (Z.to_nat (x - 1)) (Z.to_nat (y - 1)) v ->
    answered edges is_passable pre vs ->
    answered edges is_passable (pre ++ [Ask x y]) (v :: vs).

(** A stored edge of the problem: ends in range, weight from 0 to 10^9
    and below the sentinel. *)
Definition road_ok (N : Z) (e : Z * Z * Z) : Prop :=
  let '(A, B, C) := e in
  0 <= A < N /\ 0 <= B < N /\ 0 <= C <= 10 ^ 9 /\ C < N * 10 ^ 9.

(** A query line of the problem, for [M] edge lines. *)
Definition line_ok (N : Z) (M : nat) (l : query_line) : Prop :=
  match l with
  | Close i => 1 <= i <= Z.of_nat M
  | Ask x y => 1 <= x <= N /\ 1 <= y <= N
  end.

(** The driver's object while it answers: up-to-date for the network [F],
    [G] being the edges inserted so far. *)
Definition tracking (N : Z) (F G : list (nat * nat * Z))
    (fw : FloydWarshall) : Prop :=
  knows F G fw /\ _needs_solve fw = false /\
  incl G F /\ incl F G /\
  Z.of_nat (_n fw) = N /\ inf fw = N * 10 ^ 9.

(** ** The methods on other numbers

    [add_edge] and [solve] take weights of type [int | float], and the
    default sentinel is [float('inf')].  The definitions below are the
    methods of both files once more, over any number type with the
    operations the code uses: [0], [+], [<], [>=], [>] and [==].  At [Z]
    they are the definitions above; at binary64 floats every sum is rounded
    to the nearest float, as Python's is. *)

Class Number (num : Type) := {
  n0 : num;
  nadd : num -> num -> num;
  nlt : num -> num -> bool;
  nge : num -> num -> bool;
  ngt : num -> num -> bool;
  neq : num -> num -> bool
}.

#[export] Instance integers : Number Z := {|
  n0 := 0;
  nadd := Z.add;
  nlt := Z.ltb;
  nge := Z.geb;
  ngt := Z.gtb;
  neq := Z.eqb
|}.

#[export] Instance float_inhabited : Inhabited float := populate 0%float.

#[export] Instance binary64 : Number float := {|
  n0 := 0%float;
  nadd := PrimFloat.add;
  nlt := PrimFloat.ltb;
  nge := fun a b => PrimFloat.leb b a;
  ngt := fun a b => PrimFloat.ltb b a;
  neq := PrimFloat.eqb
|}.

Record PolyFloydWarshall (num : Type) := mkPolyFW {
  poly_n : nat;
  poly_inf : num;
  poly_dist : list (list num);
  poly_needs_solve : bool
}.
Arguments mkPolyFW {num} _ _ _ _.
Arguments poly_n {num} _.
Arguments poly_inf {num} _.
Arguments poly_dist {num} _.
Arguments poly_needs_solve {num} _.

Section Numbers.
Context {num : Type} `{!Inhabited num} `{!Number num}.

Definition poly_get (d : list (list num)) (i j : nat) : num :=
  (d !!! i) !!! j.

Definition poly_set (d : list (list num)) (i j : nat) (x : num)
    : list (list num) :=
  alter (fun row => <[j := x]> row) i d.

Definition poly_init_dist (num_v : nat) (inf : num) : list (list num) :=
  map (fun i => map (fun j => if Nat.eqb i j then n0 else inf) (seq 0 num_v))
      (seq 0 num_v).

Definition poly_construct (num_v : nat) (inf : num)
    : outcome (PolyFloydWarshall num) :=
  if ngt inf n0
  then Returned (mkPolyFW num_v inf (poly_init_dist num_v inf) false)
  else Raised AssertionError.

Definition poly_add_edge_inner (inf tmp : num) (i v : nat)
    (dist : list (list num)) (j : nat) : list (list num) :=
  if neq (poly_get dist v j) inf then dist
  else
    let d := nadd tmp (poly_get dist v j) in
    if nlt d (poly_get dist i j) then poly_set dist i j d else dist.

Definition poly_add_edge_outer (n : nat) (inf : num) (u v : nat)
    (weight : num) (dist : list (list num)) (i : nat) : list (list num) :=
  if neq (poly_get dist i u) inf then dist
  else
    let tmp := nadd (poly_get dist i u) weight in
    fold_left (poly_add_edge_inner inf tmp i v) (seq 0 n) dist.

Definition poly_propagate (n : nat) (inf : num) (u v : nat) (weight : num)
    (dist : list (list num)) : list (list num) :=
  fold_left (poly_add_edge_outer n inf u v weight) (seq 0 n) dist.

Definition poly_add_edge (u v : Z) (weight : num) (update_dists : bool)
    (self : PolyFloydWarshall num) : outcome unit * PolyFloydWarshall num :=
  if negb ((0 <=? u) && (u <? Z.of_nat (poly_n self)))
  then (Raised AssertionError, self)
  else if negb ((0 <=? v) && (v <? Z.of_nat (poly_n self)))
  then (Raised AssertionError, self)
  else if negb (nlt weight (poly_inf self))
  then (Raised AssertionError, self)
  else if update_dists && poly_needs_solve self
  then (Raised RuntimeError, self)
  else if nge weight (poly_get (poly_dist self) (Z.to_nat u) (Z.to_nat v))
  then (Returned tt, self)
  else
    let dist := poly_set (poly_dist self) (Z.to_nat u) (Z.to_nat v) weight in
    if negb update_dists
    then (Returned tt, mkPolyFW (poly_n self) (poly_inf self) dist true)
    else (Returned tt,
          mkPolyFW (poly_n self) (poly_inf self)
            (poly_propagate (poly_n self) (poly_inf self)
               (Z.to_nat u) (Z.to_nat v) weight dist)
            (poly_needs_solve self)).

Definition poly_solve_inner (inf dik : num) (i k : nat)
    (dist : list (list num)) (j : nat) : list (list num) :=
  if neq (poly_get dist k j) inf then dist
  else
    let d := nadd dik (poly_get dist k j) in
    if nlt d (poly_get dist i j) then poly_set dist i j d else dist.

Definition poly_solve_middle (n : nat) (inf : num) (k : nat)
    (dist : list (list num)) (i : nat) : list (list num) :=
  if neq (poly_get dist i k) inf then dist
  else
    let dik := poly_get dist i k in
    fold_left (poly_solve_inner inf dik i k) (seq 0 n) dist.

Definition poly_solve_outer (n : nat) (inf : num)
    (dist : list (list num)) (k : nat) : list (list num) :=
  fold_left (poly_solve_middle n inf k) (seq 0 n) dist.

Definition poly_floyd_warshall (n : nat) (inf : num)
    (dist : list (list num)) : list (list num) :=
  fold_left (poly_solve_outer n inf) (seq 0 n) dist.

Definition poly_solve (self : PolyFloydWarshall num)
    : outcome (list (list num)) * PolyFloydWarshall num :=
  if negb (ngt (poly_inf self) n0) then (Raised AssertionError, self)
  else if negb (poly_needs_solve self) then (Returned (poly_dist self), self)
  else
    let dist :=
      poly_floyd_warshall (poly_n self) (poly_inf self) (poly_dist self) in
    (Returned dist, mkPolyFW (poly_n self) (poly_inf self) dist false).

Definition poly_example_solve_inner (inf : num) (i k : nat)
    (dist : list (list num)) (j : nat) : list (list num) :=
  if neq (poly_get dist k j) inf then dist
  else
    let d := nadd (poly_get dist i k) (poly_get dist k j) in
    if nlt d (poly_get dist i j) then poly_set dist i j d else dist.

Definition poly_example_solve_middle (n : nat) (inf : num) (k : nat)
    (dist : list (list num)) (i : nat) : list (list num) :=
  if neq (poly_get dist i k) inf then dist
  else fold_left (poly_example_solve_inner inf i k) (seq 0 n) dist.

Definition poly_example_solve_outer (n : nat) (inf : num)
    (dist : list (list num)) (k : nat) : list (list num) :=
  fold_left (poly_example_solve_middle n inf k) (seq 0 n) dist.

Definition poly_example_floyd_warshall (n : nat) (inf : num)
    (dist : list (list num)) : list (list num) :=
  fold_left (poly_example_solve_outer n inf) (seq 0 n) dist.

Definition poly_example_solve (self : PolyFloydWarshall num)
    : outcome (list (list num)) * PolyFloydWarshall num :=
  if negb (ngt (poly_inf self) n0) then (Raised AssertionError, self)
  else
    let dist :=
      poly_example_floyd_warshall (poly_n self) (poly_inf self)
        (poly_dist self) in
    (Returned dist, mkPolyFW (poly_n self) (poly_inf self) dist false).

Definition poly_has_negative_cycle (self : PolyFloydWarshall num)
    : outcome bool * PolyFloydWarshall num :=
  if poly_needs_solve self then (Raised RuntimeError, self)
  else (Returned (existsb (fun v => nlt (poly_get (poly_dist self) v v) n0)
                          (seq 0 (poly_n self))),
        self).

Fixpoint poly_add_edges (calls : list (Z * Z * num * bool))
    (self : PolyFloydWarshall num) : outcome unit * PolyFloydWarshall num :=
  match calls with
  | [] => (Returned tt, self)
  | (u, v, w, p) :: calls =>
      match poly_add_edge u v w p self with
      | (Returned _, self') => poly_add_edges calls self'
      | (Raised e, self') => (Raised e, self')
      end
  end.

End Numbers.

(** An object of the integer model, as an object over [Z]. *)
Definition as_poly (self : FloydWarshall) : PolyFloydWarshall Z :=
  mkPolyFW (_n self) (inf self) (_dist self) (_needs_solve self).

(** Python's [0.1], [0.2], [0.3], [0.6] and the float above [0.6], and the
    integers [2**53] and [-(2**53 + 2)] as floats. *)
Definition f01 : float := 0x1.999999999999ap-4.
Definition f02 : float := 0x1.999999999999ap-3.
Definition f03 : float := 0x1.3333333333333p-2.
Definition f06 : float := 0x1.3333333333333p-1.
Definition f06_up : float := 0x1.3333333333334p-1.
Definition f2p53 : float := 0x1p+53.
Definition fm2p53m2 : float := (-0x1.0000000000001p+53)%float.

(** ** Proof automation *)

Ltac run_method :=
  unfold add_edge, solve, dist, has_negative_cycle, bind, this, assert, ret,
    raise, store_dist, store_needs_solve; cbn [_n inf _dist _needs_solve].

(** * Lemmas *)

(** ** Reading and writing the matrix *)

Lemma shape_set n d i j x : shape n d -> shape n (set d i j x).
Proof.
  intros [Hl Hr]. split.
  - unfold set. now rewrite length_alter.
  - unfold set. apply Forall_alter; [exact Hr|].
    intros row _ Hrow. now rewrite length_insert.
Qed.

Lemma shape_row n d i : shape n d -> (i < n)%nat -> length (d !!! i) = n.
Proof.
  intros [Hl Hr] Hi.
  apply (proj1 (Forall_lookup_total _ d) Hr). lia.
Qed.

Lemma get_set_eq n d i j x :
  shape n d -> (i < n)%nat -> (j < n)%nat -> get (set d i j x) i j = x.
Proof.
  intros Hs Hi Hj. unfold get, set.
  rewrite list_lookup_total_alter_eq by (destruct Hs; lia).
  apply list_lookup_total_insert_eq.
  rewrite (shape_row n) by assumption. exact Hj.
Qed.

Lemma get_set_ne d i j x a b :
  (a <> i \/ b <> j) -> get (set d i j x) a b = get d a b.
Proof.
  intros Hne. unfold get, set.
  destruct (Nat.eq_dec i a) as [->|Hia].
  - destruct (Nat.lt_ge_cases a (length d)) as [Hlt|Hge].
    + rewrite list_lookup_total_alter_eq by exact Hlt.
      apply list_lookup_total_insert_ne. destruct Hne; congruence.
    + rewrite list_lookup_total_alter, decide_False by lia. reflexivity.
  - now rewrite list_lookup_total_alter_ne.
Qed.

Lemma get_set n d i j x a b :
  shape n d -> (i < n)%nat -> (j < n)%nat ->
  get (set d i j x) a b = if decide (a = i /\ b = j) then x else get d a b.
Proof.
  intros Hs Hi Hj. destruct (decide (a = i /\ b = j)) as [[-> ->]|Hne].
  - now apply (get_set_eq n).
  - apply get_set_ne.
    destruct (Nat.eq_dec a i); [right|left]; intuition congruence.
Qed.

(** Two square matrices with the same entries are the same list. *)
Lemma shape_ext n d1 d2 :
  shape n d1 -> shape n d2 ->
  (forall i j, (i < n)%nat -> (j < n)%nat -> get d1 i j = get d2 i j) ->
  d1 = d2.
Proof.
  intros H1 H2 Hget.
  apply (list_eq_same_length _ _ n); [apply H2|apply H1|].
  intros i r1 r2 Hi Hr1 Hr2.
  apply (list_eq_same_length _ _ n).
  - apply list_lookup_total_correct in Hr2. subst r2. now apply shape_row.
  - apply list_lookup_total_correct in Hr1. subst r1. now apply shape_row.
  - intros j x y Hj Hx Hy.
    apply list_lookup_total_correct in Hr1, Hr2, Hx, Hy.
    subst. apply (Hget i j Hi Hj).
Qed.

Lemma init_dist_get num_v i0 i j :
  (i < num_v)%nat -> (j < num_v)%nat ->
  get (init_dist num_v i0) i j = if Nat.eqb i j then 0 else i0.
Proof.
  intros Hi Hj. unfold get, init_dist.
  rewrite !list_lookup_total_alt, <- !nth_lookup.
  rewrite (nth_indep _ _ (map (fun j => if Nat.eqb 0 j then 0 else i0)
                             (seq 0 num_v)))
    by now rewrite length_map, length_seq.
  rewrite (map_nth (fun i => map (fun j => if Nat.eqb i j then 0 else i0)
                                (seq 0 num_v))).
  rewrite seq_nth by exact Hi.
  rewrite (nth_indep _ _ (if Nat.eqb i 0 then 0 else i0))
    by now rewrite length_map, length_seq.
  rewrite (map_nth (fun j => if Nat.eqb i j then 0 else i0)).
  now rewrite seq_nth by exact Hj.
Qed.

Lemma init_dist_shape num_v i0 : shape num_v (init_dist num_v i0).
Proof.
  split.
  - unfold init_dist. now rewrite length_map, length_seq.
  - unfold init_dist. apply Forall_forall. intros row Hrow.
    apply list_elem_of_In, in_map_iff in Hrow.
    destruct Hrow as [i [<- _]].
    now rewrite length_map, length_seq.
Qed.

(** ** Loops as folds: two induction principles *)

Section Folds.
Context {A B : Type} (f : A -> B -> A) (C : B -> Prop).

Lemma fold_left_inv (P : A -> Prop) l a :
  (forall y, In y l -> C y) ->
  (forall s y, C y -> P s -> P (f s y)) ->
  P a -> P (fold_left f l a).
Proof.
  intros HC Hf. revert a. induction l as [|y l IH]; intros a Ha; simpl.
  - exact Ha.
  - apply IH.
    + intros z Hz. apply HC. now right.
    + apply Hf; [apply HC; now left | exact Ha].
Qed.

(** What iteration [x] establishes, and later iterations keep, holds at
    the end of the loop. *)
Lemma fold_left_establish (P Q : A -> Prop) l x a :
  In x l ->
  (forall y, In y l -> C y) ->
  (forall s y, C y -> P s -> P (f s y)) ->
  (forall s, P s -> Q (f s x)) ->
  (forall s y, C y -> P s -> Q s -> Q (f s y)) ->
  P a -> Q (fold_left f l a).
Proof.
  intros Hx HC HP Hest Hkeep. revert a Hx.
  induction l as [|y l IH]; intros a Hx Ha; simpl.
  - destruct Hx.
  - assert (HCl : forall z, In z l -> C z) by (intros z Hz; apply HC; now right).
    assert (HCy : C y) by (apply HC; now left).
    destruct Hx as [->|Hx].
    + apply (fold_left_inv (fun s => P s /\ Q s) l (f a x) HCl).
      * intros s z Hz [Hs Hq]. split; auto.
      * split; auto.
    + apply (IH HCl); auto.
Qed.

Lemma fold_left_ext_in (g : A -> B -> A) l a :
  (forall s y, f s y = g s y) -> fold_left f l a = fold_left g l a.
Proof.
  intros Hfg. revert a. induction l as [|y l IH]; intros a; simpl.
  - reflexivity.
  - now rewrite Hfg, IH.
Qed.
End Folds.

Lemma seq_bound n y : In y (seq 0 n) -> (y < n)%nat.
Proof. rewrite in_seq. lia. Qed.

(** ** The relaxation pass of [add_edge]

    [P] is a property of the matrix, [R i t] a property of the value
    [tmp = t] read for row [i]; if reading establishes [R] and each single
    assignment keeps [P], the whole pass keeps [P]. *)

Section PropagateInv.
Variables (n : nat) (sentinel : Z) (u v : nat) (w : Z).
Variable P : list (list Z) -> Prop.
Variable R : nat -> Z -> Prop.

Hypothesis Hread : forall d i,
  P d -> (i < n)%nat -> get d i u <> sentinel -> R i (get d i u + w).
Hypothesis Hstep : forall d i j t,
  P d -> R i t -> (i < n)%nat -> (j < n)%nat ->
  get d v j <> sentinel -> t + get d v j < get d i j ->
  P (set d i j (t + get d v j)).

Lemma add_edge_inner_inv t i d j :
  P d -> R i t -> (i < n)%nat -> (j < n)%nat ->
  P (add_edge_inner sentinel t i v d j).
Proof.
  intros Hd Ht Hi Hj. unfold add_edge_inner.
  destruct (Z.eqb_spec (get d v j) sentinel) as [|Hne]; [exact Hd|].
  cbv zeta.
  destruct (Z.ltb_spec (t + get d v j) (get d i j)) as [Hlt|]; [|exact Hd].
  now apply Hstep.
Qed.

Lemma add_edge_row_inv t i d :
  P d -> R i t -> (i < n)%nat ->
  P (fold_left (add_edge_inner sentinel t i v) (seq 0 n) d).
Proof.
  intros Hd Ht Hi.
  apply (fold_left_inv _ (fun j => (j < n)%nat)); auto using seq_bound.
  intros s j Hj Hs. now apply add_edge_inner_inv.
Qed.

Lemma add_edge_outer_inv d i :
  P d -> (i < n)%nat -> P (add_edge_outer n sentinel u v w d i).
Proof.
  intros Hd Hi. unfold add_edge_outer.
  destruct (Z.eqb_spec (get d i u) sentinel) as [|Hne]; [exact Hd|].
  cbv zeta. apply add_edge_row_inv; auto.
Qed.

Lemma propagate_inv d : P d -> P (propagate n sentinel u v w d).
Proof.
  intros Hd. unfold propagate.
  apply (fold_left_inv _ (fun i => (i < n)%nat)); auto using seq_bound.
  intros s i Hi Hs. now apply add_edge_outer_inv.
Qed.
End PropagateInv.

(** The pass keeps the matrix square and never raises an entry. *)

Lemma propagate_shape n sentinel u v w d :
  shape n d -> shape n (propagate n sentinel u v w d).
Proof.
  apply (propagate_inv n sentinel u v w (shape n) (fun _ _ => True)); auto.
  intros. now apply shape_set.
Qed.

Lemma below_refl d : below d d.
Proof. intros a b. lia. Qed.

Lemma below_trans d0 d1 d2 : below d0 d1 -> below d1 d2 -> below d0 d2.
Proof. intros H1 H2 a b. specialize (H1 a b). specialize (H2 a b). lia. Qed.

Lemma below_set n d i j x :
  shape n d -> (i < n)%nat -> (j < n)%nat -> x <= get d i j ->
  below d (set d i j x).
Proof.
  intros Hs Hi Hj Hx a b. rewrite (get_set n) by assumption.
  destruct (decide (a = i /\ b = j)) as [[-> ->]|]; lia.
Qed.

Lemma propagate_below n sentinel u v w d :
  shape n d -> below d (propagate n sentinel u v w d).
Proof.
  intros Hs.
  apply (propagate_inv n sentinel u v w
           (fun d' => shape n d' /\ below d d') (fun _ _ => True)); auto.
  - intros d' i j t [Hs' Hb] _ Hi Hj _ Hlt. split.
    + now apply shape_set.
    + eapply below_trans; [exact Hb|]. apply (below_set n); auto. lia.
  - split; [exact Hs|apply below_refl].
Qed.

(** What the assignment at position [(i, j)] establishes survives to the end
    of the pass, when row [i] is not skipped and later assignments keep it. *)

Section PropagateEstablish.
Variables (n : nat) (sentinel : Z) (u v : nat) (w : Z).
Variables (P Q : list (list Z) -> Prop) (R : nat -> Z -> Prop).
Variables i j : nat.

Hypothesis Hi : (i < n)%nat.
Hypothesis Hj : (j < n)%nat.
Hypothesis Hread : forall d i,
  P d -> (i < n)%nat -> get d i u <> sentinel -> R i (get d i u + w).
Hypothesis Hstep : forall d i j t,
  P d -> R i t -> (i < n)%nat -> (j < n)%nat ->
  get d v j <> sentinel -> t + get d v j < get d i j ->
  P (set d i j (t + get d v j)).
Hypothesis Hlive : forall d, P d -> get d i u <> sentinel.
Hypothesis Hest : forall d t,
  P d -> R i t -> Q (add_edge_inner sentinel t i v d j).
Hypothesis Hkeep : forall d i' j' t,
  P d -> Q d -> R i' t -> (i' < n)%nat -> (j' < n)%nat ->
  get d v j' <> sentinel -> t + get d v j' < get d i' j' ->
  Q (set d i' j' (t + get d v j')).

Lemma both_step d i' j' t :
  P d /\ Q d -> R i' t -> (i' < n)%nat -> (j' < n)%nat ->
  get d v j' <> sentinel -> t + get d v j' < get d i' j' ->
  P (set d i' j' (t + get d v j')) /\ Q (set d i' j' (t + get d v j')).
Proof. intros [Hp Hq] **. split; [apply Hstep|apply Hkeep]; auto. Qed.

Lemma both_read d i' :
  P d /\ Q d -> (i' < n)%nat -> get d i' u <> sentinel ->
  R i' (get d i' u + w).
Proof. intros [Hp _]. now apply Hread. Qed.

Lemma propagate_establish d : P d -> Q (propagate n sentinel u v w d).
Proof.
  intros Hd. unfold propagate.
  apply (fold_left_establish _ (fun y => (y < n)%nat) P Q _ i);
    auto using seq_bound.
  - apply in_seq. lia.
  - intros s y Hy Hs.
    now apply (add_edge_outer_inv n sentinel u v w P R Hread Hstep).
  - intros s Hs. unfold add_edge_outer.
    destruct (Z.eqb_spec (get s i u) sentinel) as [He|Hne].
    { now apply Hlive in He. }
    cbv zeta.
    assert (Ht : R i (get s i u + w)) by now apply Hread.
    apply (fold_left_establish _ (fun y => (y < n)%nat) P Q _ j);
      auto using seq_bound.
    + apply in_seq. lia.
    + intros s' y Hy Hs'.
      now apply (add_edge_inner_inv n sentinel v P R Hstep).
    + intros s' y Hy Hs' Hq.
      apply (add_edge_inner_inv n sentinel v (fun d => P d /\ Q d) R
               both_step); auto.
  - intros s y Hy Hs Hq.
    apply (add_edge_outer_inv n sentinel u v w (fun d => P d /\ Q d) R
             both_read both_step); auto.
Qed.
End PropagateEstablish.

(** ** The rounds of [solve] are relaxation passes through [k] *)

Lemma solve_outer_propagate n sentinel d k :
  solve_outer n sentinel d k = propagate n sentinel k k 0 d.
Proof.
  unfold solve_outer, propagate. apply fold_left_ext_in. intros s i.
  unfold solve_middle, add_edge_outer.
  destruct (get s i k =? sentinel); [reflexivity|].
  cbv zeta. rewrite Z.add_0_r. reflexivity.
Qed.

Lemma floyd_warshall_inv n sentinel (P : list (list Z) -> Prop) d :
  (forall s k, (k < n)%nat -> P s -> P (propagate n sentinel k k 0 s)) ->
  P d -> P (floyd_warshall n sentinel d).
Proof.
  intros Hround Hd. unfold floyd_warshall.
  apply (fold_left_inv _ (fun k => (k < n)%nat)); auto using seq_bound.
  intros s k Hk Hs. rewrite solve_outer_propagate. now apply Hround.
Qed.

Lemma floyd_warshall_shape n sentinel d :
  shape n d -> shape n (floyd_warshall n sentinel d).
Proof.
  apply floyd_warshall_inv. intros s k _. apply propagate_shape.
Qed.

Lemma floyd_warshall_below n sentinel d :
  shape n d -> below d (floyd_warshall n sentinel d).
Proof.
  intros Hs.
  apply (floyd_warshall_inv n sentinel (fun d' => shape n d' /\ below d d')).
  - intros s k _ [Hs' Hb]. split; [now apply propagate_shape|].
    eapply below_trans; [exact Hb|]. now apply propagate_below.
  - split; [exact Hs|apply below_refl].
Qed.

(** ** The methods, case by case *)

Lemma in_range_test self u :
  in_range self u -> (0 <=? u) && (u <? Z.of_nat (_n self)) = true.
Proof. unfold in_range. intros H. apply andb_true_iff. split; lia. Qed.

Lemma in_range_nat self u : in_range self u -> (Z.to_nat u < _n self)%nat.
Proof. unfold in_range. lia. Qed.

(** A stale object refuses [add_edge(update_dists=True)]. *)
Lemma add_edge_stale self u v w :
  in_range self u -> in_range self v -> w < inf self ->
  _needs_solve self = true ->
  add_edge u v w true self = (Raised RuntimeError, self).
Proof.
  intros Hu Hv Hw Hs. run_method.
  rewrite (in_range_test _ _ Hu), (in_range_test _ _ Hv).
  replace (w <? inf self) with true by (symmetry; lia).
  now rewrite Hs.
Qed.

(** A weight that does not improve the entry leaves the object alone. *)
Lemma add_edge_noop self u v w p :
  in_range self u -> in_range self v -> w < inf self ->
  p && _needs_solve self = false ->
  get (_dist self) (Z.to_nat u) (Z.to_nat v) <= w ->
  add_edge u v w p self = (Returned tt, self).
Proof.
  intros Hu Hv Hw Hs Hge. run_method.
  rewrite (in_range_test _ _ Hu), (in_range_test _ _ Hv).
  replace (w <? inf self) with true by (symmetry; lia).
  rewrite Hs.
  replace (w >=? _) with true by (symmetry; lia).
  reflexivity.
Qed.

(** A relaxing weight without propagation: one assignment, stale after. *)
Lemma add_edge_lazy self u v w :
  in_range self u -> in_range self v -> w < inf self ->
  w < get (_dist self) (Z.to_nat u) (Z.to_nat v) ->
  add_edge u v w false self =
    (Returned tt,
     mkFW (_n self) (inf self)
          (set (_dist self) (Z.to_nat u) (Z.to_nat v) w) true).
Proof.
  intros Hu Hv Hw Hlt. run_method.
  rewrite (in_range_test _ _ Hu), (in_range_test _ _ Hv).
  replace (w <? inf self) with true by (symmetry; lia).
  replace (w >=? _) with false by (symmetry; lia).
  reflexivity.
Qed.

(** A relaxing weight with propagation on an up-to-date object. *)
Lemma add_edge_eager self u v w :
  in_range self u -> in_range self v -> w < inf self ->
  _needs_solve self = false ->
  w < get (_dist self) (Z.to_nat u) (Z.to_nat v) ->
  add_edge u v w true self =
    (Returned tt,
     mkFW (_n self) (inf self)
          (propagate (_n self) (inf self) (Z.to_nat u) (Z.to_nat v) w
             (set (_dist self) (Z.to_nat u) (Z.to_nat v) w))
          false).
Proof.
  intros Hu Hv Hw Hs Hlt. run_method.
  rewrite (in_range_test _ _ Hu), (in_range_test _ _ Hv).
  replace (w <? inf self) with true by (symmetry; lia).
  rewrite Hs.
  replace (w >=? _) with false by (symmetry; lia).
  cbn. now rewrite Hs.
Qed.

(** Every way [add_edge] can end. *)
Lemma add_edge_cases self u v w p :
  (exists e, add_edge u v w p self = (Raised e, self) /\
     (e = AssertionError /\
        (~ in_range self u \/ ~ in_range self v \/ inf self <= w) \/
      e = RuntimeError /\ p = true /\ _needs_solve self = true)) \/
  (in_range self u /\ in_range self v /\ w < inf self /\
   p && _needs_solve self = false /\
   (get (_dist self) (Z.to_nat u) (Z.to_nat v) <= w /\
      add_edge u v w p self = (Returned tt, self) \/
    w < get (_dist self) (Z.to_nat u) (Z.to_nat v) /\
      add_edge u v w p self =
        (Returned tt,
         if p
         then mkFW (_n self) (inf self)
                (propagate (_n self) (inf self) (Z.to_nat u) (Z.to_nat v) w
                   (set (_dist self) (Z.to_nat u) (Z.to_nat v) w))
                false
         else mkFW (_n self) (inf self)
                (set (_dist self) (Z.to_nat u) (Z.to_nat v) w) true))).
Proof.
  destruct (decide (in_range self u)) as [Hu|Hu]; cycle 1.
  { left. exists AssertionError. split; [|tauto]. run_method.
    replace ((0 <=? u) && _) with false; [reflexivity|].
    symmetry. apply andb_false_iff. unfold in_range in Hu. lia. }
  destruct (decide (in_range self v)) as [Hv|Hv]; cycle 1.
  { left. exists AssertionError. split; [|tauto]. run_method.
    rewrite (in_range_test _ _ Hu).
    replace ((0 <=? v) && _) with false; [reflexivity|].
    symmetry. apply andb_false_iff. unfold in_range in Hv. lia. }
  destruct (Z.lt_ge_cases w (inf self)) as [Hw|Hw]; cycle 1.
  { left. exists AssertionError. split; [|tauto]. run_method.
    rewrite (in_range_test _ _ Hu), (in_range_test _ _ Hv).
    replace (w <? inf self) with false by (symmetry; lia). reflexivity. }
  destruct (p && _needs_solve self) eqn:Hs.
  { apply andb_true_iff in Hs. destruct Hs as [-> Hs].
    left. exists RuntimeError. split; [now apply add_edge_stale|tauto]. }
  right. split; [exact Hu|]. split; [exact Hv|]. split; [exact Hw|].
  split; [reflexivity|].
  destruct (Z.lt_ge_cases w (get (_dist self) (Z.to_nat u) (Z.to_nat v)))
    as [Hlt|Hge].
  - right. split; [exact Hlt|]. destruct p.
    + apply add_edge_eager; auto; now destruct (_needs_solve self).
    + now apply add_edge_lazy.
  - left. split; [exact Hge|]. now apply add_edge_noop.
Qed.

Lemma solve_valid self :
  0 < inf self -> _needs_solve self = false ->
  solve self = (Returned (_dist self), self).
Proof.
  intros Hi Hs. run_method.
  replace (inf self >? 0) with true by (symmetry; lia).
  now rewrite Hs.
Qed.

Lemma solve_stale self :
  0 < inf self -> _needs_solve self = true ->
  solve self =
    (Returned (floyd_warshall (_n self) (inf self) (_dist self)),
     mkFW (_n self) (inf self)
          (floyd_warshall (_n self) (inf self) (_dist self)) false).
Proof.
  intros Hi Hs. run_method.
  replace (inf self >? 0) with true by (symmetry; lia).
  now rewrite Hs.
Qed.

Lemma solve_unset self :
  inf self <= 0 -> solve self = (Raised AssertionError, self).
Proof.
  intros Hi. run_method.
  replace (inf self >? 0) with false by (symmetry; lia). reflexivity.
Qed.

Lemma dist_valid self :
  _needs_solve self = false -> dist self = (Returned (_dist self), self).
Proof. intros Hs. run_method. now rewrite Hs. Qed.

Lemma dist_stale self :
  _needs_solve self = true -> dist self = (Raised RuntimeError, self).
Proof. intros Hs. run_method. now rewrite Hs. Qed.

Lemma has_negative_cycle_valid self :
  _needs_solve self = false ->
  has_negative_cycle self =
    (Returned (existsb (fun v => get (_dist self) v v <? 0)
                       (seq 0 (_n self))), self).
Proof. intros Hs. run_method. now rewrite Hs. Qed.

Lemma has_negative_cycle_stale self :
  _needs_solve self = true ->
  has_negative_cycle self = (Raised RuntimeError, self).
Proof. intros Hs. run_method. now rewrite Hs. Qed.

Lemma add_edge_after self u v w p :
  after self (snd (add_edge u v w p self)).
Proof.
  destruct (add_edge_cases self u v w p)
    as [[e [-> _]]|(Hu & Hv & Hw & Hs & [[_ ->]|[Hlt ->]])];
    try apply after_same.
  apply in_range_nat in Hu, Hv. destruct p; cbn [snd].
  - apply after_eager; auto; now destruct (_needs_solve self).
  - now apply after_lazy.
Qed.

Lemma solve_after self : after self (snd (solve self)).
Proof.
  destruct (Z.lt_ge_cases 0 (inf self)) as [Hi|Hi].
  - destruct (_needs_solve self) eqn:Hs.
    + rewrite solve_stale by assumption. now apply after_solve.
    + rewrite solve_valid by assumption. apply after_same.
  - rewrite solve_unset by assumption. apply after_same.
Qed.

Lemma perform_after c self : after self (snd (perform c self)).
Proof.
  destruct c as [u v w p| | |]; cbn [perform].
  - generalize (add_edge_after self u v w p).
    now destruct (add_edge u v w p self).
  - generalize (solve_after self). now destruct (solve self).
  - destruct (_needs_solve self) eqn:Hs.
    + rewrite dist_stale by assumption. apply after_same.
    + rewrite dist_valid by assumption. apply after_same.
  - destruct (_needs_solve self) eqn:Hs.
    + rewrite has_negative_cycle_stale by assumption. apply after_same.
    + rewrite has_negative_cycle_valid by assumption. apply after_same.
Qed.

Lemma after_fields self self' :
  after self self' -> _n self' = _n self /\ inf self' = inf self.
Proof. now destruct 1. Qed.

Lemma after_wf self self' : after self self' -> wf self -> wf self'.
Proof.
  intros Ha [Hi Hs]. destruct Ha; split; cbn; auto.
  - now apply shape_set.
  - now apply propagate_shape, shape_set.
  - now apply floyd_warshall_shape.
Qed.

Lemma after_below self self' :
  after self self' -> wf self -> below (_dist self) (_dist self').
Proof.
  intros Ha [Hi Hs]. destruct Ha; cbn.
  - apply below_refl.
  - apply (below_set (_n self)); auto. lia.
  - eapply below_trans.
    + apply (below_set (_n self) _ u v w); auto. lia.
    + apply propagate_below. now apply shape_set.
  - now apply floyd_warshall_below.
Qed.

Lemma construct_wf num_v i self :
  construct num_v i = Returned self -> wf self.
Proof.
  unfold construct. destruct (Z.gtb_spec i 0); [|discriminate].
  intros [= <-]. split; cbn; [lia|apply init_dist_shape].
Qed.

Lemma reachable_wf self : reachable self -> wf self.
Proof.
  induction 1 as [num_v i self Hc|c self _ IH].
  - now apply construct_wf in Hc.
  - eapply after_wf; [apply perform_after|exact IH].
Qed.

Lemma construct_bounded num_v i self :
  construct num_v i = Returned self -> bounded self.
Proof.
  unfold construct. destruct (Z.gtb_spec i 0); [|discriminate].
  intros [= <-] a b Ha Hb. cbn. rewrite init_dist_get by assumption.
  destruct (Nat.eqb a b); lia.
Qed.

Lemma after_bounded self self' :
  after self self' -> wf self -> bounded self -> bounded self'.
Proof.
  intros Ha Hwf Hb i j Hi Hj.
  destruct (after_fields _ _ Ha) as [Hn Hinf].
  rewrite Hn in Hi, Hj. rewrite Hinf.
  pose proof (after_below _ _ Ha Hwf i j). specialize (Hb i j Hi Hj). lia.
Qed.

Lemma reachable_bounded self : reachable self -> bounded self.
Proof.
  induction 1 as [num_v i self Hc|c self Hr IH].
  - now apply construct_bounded in Hc.
  - eapply after_bounded; [apply perform_after|now apply reachable_wf|exact IH].
Qed.

(** ** One relaxation pass, entry by entry *)


Section EagerEntries.
Variables (n : nat) (sentinel : Z) (u v : nat) (w : Z) (d1 : list (list Z)).
Hypothesis Hshape : shape n d1.
Hypothesis Hu : (u < n)%nat.
Hypothesis Hv : (v < n)%nat.
(** The relaxed edge closes no negative cycle. *)
Hypothesis Hnc : get d1 v u = sentinel \/ 0 <= get d1 v u + w.









End EagerEntries.

(** * Paths and walks *)

Lemma path_edge es i j w : In (i, j, w) es -> path es i j w.
Proof.
  intros Hin. replace w with (w + 0) by lia.
  eapply path_cons; [exact Hin|apply path_nil].
Qed.

Lemma path_app es i m j l1 l2 :
  path es i m l1 -> path es m j l2 -> path es i j (l1 + l2).
Proof.
  intros H1 H2. induction H1 as [i|i m' m w l Hin _ IH]; cbn.
  - exact H2.
  - rewrite <- Z.add_assoc. eapply path_cons; [exact Hin|now apply IH].
Qed.

Lemma path_incl es es' i j l :
  incl es es' -> path es i j l -> path es' i j l.
Proof.
  intros Hincl. induction 1 as [i|i m j w l Hin _ IH].
  - apply path_nil.
  - eapply path_cons; [apply Hincl, Hin|exact IH].
Qed.

Lemma no_negative_cycle_incl es es' :
  incl es es' -> no_negative_cycle es' -> no_negative_cycle es.
Proof. intros Hincl Hnc v l Hp. apply (Hnc v). now apply (path_incl es). Qed.

Lemma walk_path es k i j l : walk es k i j l -> path es i j l.
Proof.
  induction 1 as [i|i j w Hin|i m j w l Hin _ _ IH].
  - apply path_nil.
  - now apply path_edge.
  - eapply path_cons; [exact Hin|exact IH].
Qed.

Lemma path_walk n es i j l :
  within n es -> path es i j l -> walk es n i j l.
Proof.
  intros Hw. induction 1 as [i|i m j w l Hin _ IH].
  - apply walk_nil.
  - apply (walk_step es n i m j w l Hin); [|exact IH].
    now apply (Hw i m w).
Qed.

Lemma walk_S es k i j l : walk es k i j l -> walk es (S k) i j l.
Proof.
  induction 1 as [i|i j w Hin|i m j w l Hin Hm _ IH].
  - apply walk_nil.
  - now apply walk_edge.
  - apply (walk_step es (S k) i m j w l Hin); [lia|exact IH].
Qed.

Lemma walk_app es k i m j l1 l2 :
  walk es k i m l1 -> (m < k)%nat -> walk es k m j l2 ->
  walk es k i j (l1 + l2).
Proof.
  intros H1 Hm H2. induction H1 as [i|i m w Hin|i m' m w l Hin Hm' _ IH]; cbn.
  - exact H2.
  - now apply (walk_step es k i m j w l2).
  - rewrite <- Z.add_assoc. apply (walk_step es k i m' j w _ Hin Hm').
    now apply IH.
Qed.

(** A walk through vertices below [k + 1] either avoids [k] or can be cut
    at its first and last visit of [k]; the part cut out is a closed walk. *)
Lemma walk_split es k i j l :
  no_negative_cycle es ->
  walk es (S k) i j l ->
  walk es k i j l \/
  exists l1 l2, walk es k i k l1 /\ walk es k k j l2 /\ l1 + l2 <= l.
Proof.
  intros Hnc. induction 1 as [i|i j w Hin|i m j w l Hin Hm _ IH].
  - left. apply walk_nil.
  - left. now apply walk_edge.
  - destruct (Nat.eq_dec m k) as [->|Hmk].
    + right. destruct IH as [IH|(l1 & l2 & H1 & H2 & Hle)].
      * exists w, l. split; [now apply walk_edge|]. split; [exact IH|lia].
      * exists w, l2. split; [now apply walk_edge|]. split; [exact H2|].
        pose proof (Hnc k l1 (walk_path _ _ _ _ _ H1)). lia.
    + assert (Hlt : (m < k)%nat) by lia.
      destruct IH as [IH|(l1 & l2 & H1 & H2 & Hle)].
      * left. now apply (walk_step es k i m j w l).
      * right. exists (w + l1), l2.
        split; [now apply (walk_step es k i m k w l1)|].
        split; [exact H2|lia].
Qed.

(** A path over the edges [e :: es] either avoids [e = (u, v, w)] or can be
    cut at its first and last use of [e]. *)
Lemma path_split es u v w i j l :
  no_negative_cycle ((u, v, w) :: es) ->
  path ((u, v, w) :: es) i j l ->
  path es i j l \/
  exists l1 l2, path es i u l1 /\ path es v j l2 /\ l1 + w + l2 <= l.
Proof.
  intros Hnc. induction 1 as [i|i m j w' l Hin _ IH].
  - left. apply path_nil.
  - destruct Hin as [[= <- <- <-]|Hin].
    + right. destruct IH as [IH|(l1 & l2 & H1 & H2 & Hle)].
      * exists 0, l. split; [apply path_nil|]. split; [exact IH|lia].
      * exists 0, l2. split; [apply path_nil|]. split; [exact H2|].
        assert (Hc : path ((u, v, w) :: es) v v (l1 + w)).
        { eapply path_app.
          - eapply path_incl; [|exact H1]. now apply incl_tl.
          - apply path_edge. now left. }
        apply Hnc in Hc. lia.
    + destruct IH as [IH|(l1 & l2 & H1 & H2 & Hle)].
      * left. eapply path_cons; [exact Hin|exact IH].
      * right. exists (w' + l1), l2.
        split; [eapply path_cons; [exact Hin|exact H1]|].
        split; [exact H2|lia].
Qed.

(** *** A shortest path exists between connected vertices *)

Lemma edge_min (es : list (nat * nat * Z)) (i j : nat) :
  (forall w, ~ In (i, j, w) es) \/
  exists w0, In (i, j, w0) es /\ forall w, In (i, j, w) es -> w0 <= w.
Proof.
  induction es as [|[[a b] c] es IH].
  - left. intros w [].
  - destruct (decide (a = i /\ b = j)) as [[-> ->]|Hne].
    + right. destruct IH as [Hnone|(w0 & Hin & Hmin)].
      * exists c. split; [now left|].
        intros w [[= <-]|Hw]; [lia|now apply Hnone in Hw].
      * destruct (Z.le_gt_cases c w0).
        -- exists c. split; [now left|].
           intros w [[= <-]|Hw]; [lia|]. apply Hmin in Hw. lia.
        -- exists w0. split; [now right|].
           intros w [[= <-]|Hw]; [lia|]. now apply Hmin.
    + destruct IH as [Hnone|(w0 & Hin & Hmin)].
      * left. intros w [[= -> -> ->]|Hw]; [tauto|now apply Hnone in Hw].
      * right. exists w0. split; [now right|].
        intros w [[= -> -> ->]|Hw]; [tauto|now apply Hmin].
Qed.

Lemma walk_0_inv es i j l :
  walk es 0 i j l -> i = j /\ l = 0 \/ In (i, j, l) es.
Proof.
  destruct 1 as [i|i j w Hin|i m j w l Hin Hm _]; [now left|now right|lia].
Qed.

Lemma walk_min es k :
  no_negative_cycle es ->
  forall i j,
    (forall l, ~ walk es k i j l) \/
    exists l0, walk es k i j l0 /\ forall l, walk es k i j l -> l0 <= l.
Proof.
  intros Hnc. induction k as [|k IH]; intros i j.
  - destruct (edge_min es i j) as [Hnone|(w0 & Hin & Hmin)].
    + destruct (Nat.eq_dec i j) as [->|Hij].
      * right. exists 0. split; [apply walk_nil|].
        intros l [[_ ->]|Hl]%walk_0_inv; [lia|now apply Hnone in Hl].
      * left. intros l [[? _]|Hl]%walk_0_inv; [easy|now apply Hnone in Hl].
    + right. destruct (Nat.eq_dec i j) as [->|Hij].
      * destruct (Z.le_gt_cases 0 w0).
        -- exists 0. split; [apply walk_nil|].
           intros l [[_ ->]|Hl]%walk_0_inv; [lia|]. apply Hmin in Hl. lia.
        -- exists w0. split; [now apply walk_edge|].
           intros l [[_ ->]|Hl]%walk_0_inv; [lia|now apply Hmin].
      * exists w0. split; [now apply walk_edge|].
        intros l [[? _]|Hl]%walk_0_inv; [easy|now apply Hmin].
  - assert (Hvia : forall l1 l2, walk es k i k l1 -> walk es k k j l2 ->
                     walk es (S k) i j (l1 + l2)).
    { intros l1 l2 H1 H2.
      apply (walk_app es (S k) i k j); [now apply walk_S|lia|now apply walk_S]. }
    destruct (IH i j) as [Hno|(a & Ha & Hamin)];
      destruct (IH i k) as [Hno1|(l1 & H1 & H1min)];
      destruct (IH k j) as [Hno2|(l2 & H2 & H2min)].
    all: try (left; intros l Hl;
              destruct (walk_split es k i j l Hnc Hl)
                as [Hd|(x & y & Hx & Hy & _)];
              [now apply Hno in Hd
              |first [now apply Hno1 in Hx|now apply Hno2 in Hy]]).
    all: try (right; exists a; split; [now apply walk_S|];
              intros l Hl;
              destruct (walk_split es k i j l Hnc Hl)
                as [Hd|(x & y & Hx & Hy & _)];
              [now apply Hamin
              |first [now apply Hno1 in Hx|now apply Hno2 in Hy]]).
    + right. exists (l1 + l2). split; [now apply Hvia|].
      intros l Hl.
      destruct (walk_split es k i j l Hnc Hl) as [Hd|(x & y & Hx & Hy & Hle)].
      * now apply Hno in Hd.
      * apply H1min in Hx. apply H2min in Hy. lia.
    + right. destruct (Z.le_gt_cases a (l1 + l2)).
      * exists a. split; [now apply walk_S|].
        intros l Hl.
        destruct (walk_split es k i j l Hnc Hl)
          as [Hd|(x & y & Hx & Hy & Hle)].
        -- now apply Hamin.
        -- apply H1min in Hx. apply H2min in Hy. lia.
      * exists (l1 + l2). split; [now apply Hvia|].
        intros l Hl.
        destruct (walk_split es k i j l Hnc Hl)
          as [Hd|(x & y & Hx & Hy & Hle)].
        -- apply Hamin in Hd. lia.
        -- apply H1min in Hx. apply H2min in Hy. lia.
Qed.

Lemma shortest_exists n es i j l :
  within n es -> no_negative_cycle es ->
  path es i j l -> exists l0, shortest es i j l0.
Proof.
  intros Hw Hnc Hp.
  destruct (walk_min es n Hnc i j) as [Hno|(l0 & H0 & Hmin)].
  - exfalso. apply (Hno l). now apply path_walk.
  - exists l0. split; [now apply (walk_path es n)|].
    intros l' Hl'. apply Hmin. now apply path_walk.
Qed.

Lemma shortest_unique es i j l1 l2 :
  shortest es i j l1 -> shortest es i j l2 -> l1 = l2.
Proof. intros [H1 O1] [H2 O2]. apply O1 in H2. apply O2 in H1. lia. Qed.

(** * Soundness and completeness of the matrix *)

Section Relax.
Variables (F G : list (nat * nat * Z)) (n : nat) (sentinel : Z).
Hypothesis Hincl : incl G F.
Hypothesis Habove : sentinel_above F sentinel.

Lemma sound_exact d i j x :
  sound G sentinel n d -> (i < n)%nat -> (j < n)%nat ->
  shortest F i j x -> get d i j <= x -> get d i j = x.
Proof.
  intros [_ Hs] Hi Hj Hx Hle.
  pose proof (Habove i j x Hx) as Hlt. destruct Hx as [_ Hopt].
  destruct (Hs i j Hi Hj) as [_ Hp].
  assert (Hp' : path G i j (get d i j)) by (apply Hp; lia).
  apply (path_incl _ _ _ _ _ Hincl), Hopt in Hp'. lia.
Qed.

Lemma sound_step a b c d i j t :
  sound G sentinel n d -> path G a b c -> path G i a (t - c) ->
  (b < n)%nat -> (i < n)%nat -> (j < n)%nat ->
  get d b j <> sentinel -> t + get d b j < get d i j ->
  sound G sentinel n (set d i j (t + get d b j)).
Proof.
  intros [Hsh Hs] Hab Hia Hb Hi Hj Hne Hlt. split; [now apply shape_set|].
  intros a' b' Ha' Hb'. rewrite (get_set n) by assumption.
  destruct (decide (a' = i /\ b' = j)) as [[-> ->]|_]; [|now apply Hs].
  destruct (Hs i j Hi Hj) as [Hle _]. destruct (Hs b j Hb Hj) as [Hle' Hp].
  split; [lia|]. intros _.
  replace (t + get d b j) with ((t - c) + (c + get d b j)) by lia.
  eapply path_app; [exact Hia|]. eapply path_app; [exact Hab|].
  apply Hp. lia.
Qed.

Lemma sound_read a c d i :
  sound G sentinel n d -> (a < n)%nat -> (i < n)%nat ->
  get d i a <> sentinel -> path G i a (get d i a + c - c).
Proof.
  intros [_ Hs] Ha Hi Hne. destruct (Hs i a Hi Ha) as [Hle Hp].
  replace (get d i a + c - c) with (get d i a) by lia. apply Hp. lia.
Qed.

Lemma propagate_sound a b c d :
  sound G sentinel n d -> (a < n)%nat -> (b < n)%nat -> path G a b c ->
  sound G sentinel n (propagate n sentinel a b c d).
Proof.
  intros Hs Ha Hb Hab.
  apply (propagate_inv n sentinel a b c (sound G sentinel n)
           (fun i t => path G i a (t - c))); [| |exact Hs].
  - intros d' i Hs' Hi Hne. now apply sound_read.
  - intros d' i j t Hs' Hr Hi Hj Hne Hlt. now apply (sound_step a b c).
Qed.

(** A pass through [a -> b] brings entry [(i, j)] down to the route
    [i ~> a -> b ~> j] when both ends are already at their distances. *)
Lemma propagate_through a b c d i j x y :
  sound G sentinel n d ->
  (a < n)%nat -> (b < n)%nat -> (i < n)%nat -> (j < n)%nat ->
  path G a b c ->
  shortest F i a x -> get d i a <= x ->
  shortest F b j y -> get d b j <= y ->
  get (propagate n sentinel a b c d) i j <= x + c + y.
Proof.
  intros Hs Ha Hb Hi Hj Hab Hx Hdx Hy Hdy.
  assert (Hxlt : x < sentinel) by now apply (Habove i a).
  assert (Hylt : y < sentinel) by now apply (Habove b j).
  apply (propagate_establish n sentinel a b c
           (fun d' => sound G sentinel n d' /\ below d d')
           (fun d' => get d' i j <= x + c + y)
           (reads_path G a c i x) i j Hi Hj).
  - intros d' i' [Hs' Hb'] Hi' Hne. split; [now apply sound_read|].
    intros ->. f_equal. apply sound_exact; auto.
    specialize (Hb' i a). lia.
  - intros d' i' j' t [Hs' Hb'] [Hr _] Hi' Hj' Hne Hlt. split.
    + now apply (sound_step a b c).
    + eapply below_trans; [exact Hb'|].
      apply (below_set n); auto; [apply Hs'|lia].
  - intros d' [Hs' Hb']. specialize (Hb' i a).
    rewrite (sound_exact d' i a x); auto; lia.
  - intros d' t [Hs' Hb'] [_ Ht]. rewrite (Ht eq_refl).
    assert (Hbj : get d' b j = y).
    { apply sound_exact; auto. specialize (Hb' b j). lia. }
    unfold add_edge_inner. rewrite Hbj.
    destruct (Z.eqb_spec y sentinel); [lia|]. cbv zeta.
    destruct (Z.ltb_spec (x + c + y) (get d' i j)); [|lia].
    rewrite (get_set_eq n); auto; [lia|apply Hs'].
  - intros d' i' j' t [Hs' _] Hq _ Hi' Hj' _ Hlt.
    pose proof (below_set n d' i' j' (t + get d' b j')
                  (proj1 Hs') Hi' Hj' ltac:(lia) i j). lia.
  - split; [exact Hs|apply below_refl].
Qed.
End Relax.

(** ** Pieces of a shortest path are shortest *)

Lemma optimal_prefix F i a j x y l :
  optimal F i j l -> x + y <= l -> path F a j y -> optimal F i a x.
Proof.
  intros Hopt Hle Hy l' Hl'.
  pose proof (Hopt _ (path_app _ _ _ _ _ _ Hl' Hy)). lia.
Qed.

Lemma optimal_suffix F i a j x y l :
  optimal F i j l -> x + y <= l -> path F i a x -> optimal F a j y.
Proof.
  intros Hopt Hle Hx l' Hl'.
  pose proof (Hopt _ (path_app _ _ _ _ _ _ Hx Hl')). lia.
Qed.

Lemma optimal_middle F i a b j x c y l :
  optimal F i j l -> x + c + y <= l ->
  path F i a x -> path F b j y -> optimal F a b c.
Proof.
  intros Hopt Hle Hx Hy l' Hl'.
  pose proof (Hopt _ (path_app _ _ _ _ _ _ Hx
                        (path_app _ _ _ _ _ _ Hl' Hy))). lia.
Qed.

Lemma fold_left_seq_inv {A} (f : A -> nat -> A) (P : nat -> A -> Prop) n a :
  P 0%nat a ->
  (forall k s, (k < n)%nat -> P k s -> P (S k) (f s k)) ->
  P n (fold_left f (seq 0 n) a).
Proof.
  intros Ha Hf.
  enough (Hgen : forall len start s,
             (start + len = n)%nat -> P start s ->
             P n (fold_left f (seq start len) s)) by now apply Hgen.
  induction len as [|len IH]; intros start s Hsum Hs; cbn [seq fold_left].
  - now replace n with start by lia.
  - apply IH; [lia|]. apply Hf; [lia|exact Hs].
Qed.

Lemma sound_incl G G' sentinel n d :
  incl G G' -> sound G sentinel n d -> sound G' sentinel n d.
Proof.
  intros Hincl [Hsh Hs]. split; [exact Hsh|].
  intros i j Hi Hj. destruct (Hs i j Hi Hj) as [Hle Hp].
  split; [exact Hle|]. intros Hlt. eapply path_incl; eauto.
Qed.

Lemma sound_set G sentinel n u v w d :
  sound G sentinel n d -> In (u, v, w) G ->
  (u < n)%nat -> (v < n)%nat -> w < get d u v ->
  sound G sentinel n (set d u v w).
Proof.
  intros [Hsh Hs] Hin Hu Hv Hlt. split; [now apply shape_set|].
  intros i j Hi Hj. rewrite (get_set n) by assumption.
  destruct (decide (i = u /\ j = v)) as [[-> ->]|_]; [|now apply Hs].
  destruct (Hs u v Hu Hv) as [Hle _]. split; [lia|].
  intros _. now apply path_edge.
Qed.

Lemma direct_below G n d d' : direct G n d -> below d d' -> direct G n d'.
Proof.
  intros [Hd He] Hb. split.
  - intros i Hi. specialize (Hd i Hi). specialize (Hb i i). lia.
  - intros i j w Hin. specialize (He i j w Hin). specialize (Hb i j). lia.
Qed.

Lemma complete_all_below F G n d d' :
  complete_all F G n d -> below d d' -> complete_all F G n d'.
Proof.
  intros Hc Hb i j l Hi Hj Hp Hopt.
  specialize (Hc i j l Hi Hj Hp Hopt). specialize (Hb i j). lia.
Qed.

(** ** [solve] and [add_edge] against the graph [F] of all edges *)

Section Engine.
Variables (F : list (nat * nat * Z)) (n : nat) (sentinel : Z).
Hypothesis Hnc : no_negative_cycle F.
Hypothesis Habove : sentinel_above F sentinel.

Lemma complete_0 G d : direct G n d -> complete F G 0 n d.
Proof.
  intros [Hd He] i j l Hi Hj Hw _.
  destruct (walk_0_inv _ _ _ _ Hw) as [[-> ->]|Hin].
  - now apply Hd.
  - now apply He.
Qed.

Lemma round_complete G k d :
  incl G F -> sound G sentinel n d -> (k < n)%nat ->
  complete F G k n d ->
  complete F G (S k) n (propagate n sentinel k k 0 d).
Proof.
  intros Hincl Hs Hk Hc i j l Hi Hj Hw Hopt.
  assert (HncG : no_negative_cycle G) by now apply (no_negative_cycle_incl G F).
  destruct (walk_split G k i j l HncG Hw) as [Hd|(l1 & l2 & H1 & H2 & Hle)].
  - specialize (Hc i j l Hi Hj Hd Hopt).
    pose proof (propagate_below n sentinel k k 0 d (proj1 Hs) i j). lia.
  - assert (P1 : path F i k l1).
    { eapply path_incl; [exact Hincl|]. eapply walk_path; eauto. }
    assert (P2 : path F k j l2).
    { eapply path_incl; [exact Hincl|]. eapply walk_path; eauto. }
    assert (O1 : optimal F i k l1) by now apply (optimal_prefix F i k j l1 l2 l).
    assert (O2 : optimal F k j l2) by now apply (optimal_suffix F i k j l1 l2 l).
    pose proof (propagate_through F G n sentinel Hincl Habove k k 0 d i j l1 l2
                  Hs Hk Hk Hi Hj (path_nil G k) (conj P1 O1)
                  (Hc i k l1 Hi Hk H1 O1) (conj P2 O2)
                  (Hc k j l2 Hk Hj H2 O2)).
    lia.
Qed.

Lemma floyd_warshall_sound G d :
  sound G sentinel n d -> sound G sentinel n (floyd_warshall n sentinel d).
Proof.
  apply floyd_warshall_inv. intros s k Hk Hs.
  apply propagate_sound; auto. apply path_nil.
Qed.

Lemma floyd_warshall_complete G d :
  incl G F -> within n G ->
  sound G sentinel n d -> direct G n d ->
  complete_all F G n (floyd_warshall n sentinel d).
Proof.
  intros Hincl Hwithin Hs Hd.
  assert (Hfold : sound G sentinel n (floyd_warshall n sentinel d) /\
                  complete F G n n (floyd_warshall n sentinel d)).
  { unfold floyd_warshall.
    apply (fold_left_seq_inv _
             (fun k s => sound G sentinel n s /\ complete F G k n s)).
    - split; [exact Hs|now apply complete_0].
    - intros k s Hk [Hs' Hc]. rewrite solve_outer_propagate. split.
      + apply propagate_sound; auto. apply path_nil.
      + now apply round_complete. }
  destruct Hfold as [_ Hc]. intros i j l Hi Hj Hp Hopt.
  apply Hc; auto. now apply path_walk.
Qed.

(** An edge that does not improve its entry teaches an up-to-date matrix
    nothing. *)
Lemma noop_complete G u v w d :
  incl ((u, v, w) :: G) F ->
  sound G sentinel n d -> complete_all F G n d ->
  (u < n)%nat -> (v < n)%nat -> w < sentinel -> get d u v <= w ->
  complete_all F ((u, v, w) :: G) n d.
Proof.
  intros Hincl Hs Hc Hu Hv Hw Hge i j l Hi Hj Hp Hopt.
  assert (HinclG : incl G F) by (intros e He; apply Hincl; now right).
  assert (HncG : no_negative_cycle ((u, v, w) :: G))
    by now apply (no_negative_cycle_incl _ F).
  destruct (path_split G u v w i j l HncG Hp)
    as [Hd|(l1 & l2 & H1 & H2 & Hle)].
  - now apply Hc.
  - assert (P1 : path F i u l1) by now apply (path_incl G).
    assert (P2 : path F v j l2) by now apply (path_incl G).
    assert (Ouv : optimal F u v w)
      by now apply (optimal_middle F i u v j l1 w l2 l).
    assert (Huv : path G u v w).
    { destruct Hs as [_ Hs]. destruct (Hs u v Hu Hv) as [_ Hpuv].
      assert (Hpuv' : path G u v (get d u v)) by (apply Hpuv; lia).
      pose proof (Ouv _ (path_incl _ _ _ _ _ HinclG Hpuv')).
      now replace w with (get d u v) by lia. }
    assert (Hij : path G i j (l1 + w + l2)).
    { rewrite <- Z.add_assoc. eapply path_app; [exact H1|].
      eapply path_app; [exact Huv|exact H2]. }
    assert (Oij : optimal F i j (l1 + w + l2)).
    { intros l' Hl'. apply Hopt in Hl'. lia. }
    specialize (Hc i j _ Hi Hj Hij Oij). lia.
Qed.

(** The relaxation pass of [add_edge] brings an up-to-date matrix
    up-to-date with the new edge. *)
Lemma eager_complete G u v w d :
  incl ((u, v, w) :: G) F ->
  sound G sentinel n d -> complete_all F G n d ->
  (u < n)%nat -> (v < n)%nat -> w < get d u v ->
  complete_all F ((u, v, w) :: G) n
    (propagate n sentinel u v w (set d u v w)).
Proof.
  intros Hincl Hs Hc Hu Hv Hlt i j l Hi Hj Hp Hopt.
  assert (HinclG : incl G F) by (intros e He; apply Hincl; now right).
  assert (HncG : no_negative_cycle ((u, v, w) :: G))
    by now apply (no_negative_cycle_incl _ F).
  assert (Hs1 : sound ((u, v, w) :: G) sentinel n (set d u v w)).
  { apply sound_set; auto; [|now left].
    eapply sound_incl; [|exact Hs]. now apply incl_tl. }
  assert (Hb1 : below d (set d u v w)).
  { apply (below_set n); auto; [apply Hs|lia]. }
  destruct (path_split G u v w i j l HncG Hp)
    as [Hd|(l1 & l2 & H1 & H2 & Hle)].
  - specialize (Hc i j l Hi Hj Hd Hopt). specialize (Hb1 i j).
    pose proof (propagate_below n sentinel u v w (set d u v w)
                  (proj1 Hs1) i j). lia.
  - assert (P1 : path F i u l1) by now apply (path_incl G).
    assert (P2 : path F v j l2) by now apply (path_incl G).
    assert (Puv : path F u v w) by (apply path_edge, Hincl; now left).
    assert (O1 : optimal F i u l1).
    { apply (optimal_prefix F i u j l1 (w + l2) l); auto; [lia|].
      eapply path_app; eauto. }
    assert (O2 : optimal F v j l2).
    { apply (optimal_suffix F i v j (l1 + w) l2 l); auto.
      eapply path_app; eauto. }
    pose proof (Hc i u l1 Hi Hu H1 O1) as C1.
    pose proof (Hc v j l2 Hv Hj H2 O2) as C2.
    pose proof (Hb1 i u). pose proof (Hb1 v j).
    assert (Pe : path ((u, v, w) :: G) u v w) by (apply path_edge; now left).
    pose proof (propagate_through F _ n sentinel Hincl Habove u v w
                  (set d u v w) i j l1 l2 Hs1 Hu Hv Hi Hj Pe
                  (conj P1 O1) ltac:(lia) (conj P2 O2) ltac:(lia)).
    lia.
Qed.
End Engine.

(** ** What a program that inserts edges leaves in the object *)

Lemma path_no_edges i j l : path [] i j l -> i = j /\ l = 0.
Proof. destruct 1 as [i|i m j w l Hin _]; [auto|destruct Hin]. Qed.

Lemma construct_knows F num_v i self :
  construct num_v i = Returned self -> knows F [] self.
Proof.
  intros Hc. pose proof (construct_wf _ _ _ Hc) as Hwf.
  unfold construct in Hc. destruct (Z.gtb_spec i 0) as [Hi|]; [|discriminate].
  injection Hc as <-. cbn in *.
  split; [exact Hwf|]. split; [intros a b w []|]. cbn [_n inf _dist].
  split; [|split].
  - split; [apply init_dist_shape|]. intros a b Ha Hb.
    rewrite init_dist_get by assumption.
    destruct (Nat.eqb_spec a b) as [->|Hne].
    + split; [lia|]. intros _. apply path_nil.
    + split; lia.
  - split; [|intros a b w []]. intros a Ha.
    rewrite init_dist_get, Nat.eqb_refl by assumption. lia.
  - intros _ a b l Ha Hb Hp _. apply path_no_edges in Hp as [-> ->].
    rewrite init_dist_get, Nat.eqb_refl by assumption. lia.
Qed.

Section Knows.
Variables (F : list (nat * nat * Z)).
Hypothesis Hnc : no_negative_cycle F.

Lemma add_edge_knows G self u v w p self' :
  sentinel_above F (inf self) ->
  knows F G self ->
  incl ((Z.to_nat u, Z.to_nat v, w) :: G) F ->
  add_edge u v w p self = (Returned tt, self') ->
  knows F ((Z.to_nat u, Z.to_nat v, w) :: G) self' /\
  _n self' = _n self /\ inf self' = inf self.
Proof.
  intros Habove (Hwf & Hwithin & Hs & Hd & Hc) Hincl Hadd.
  destruct (add_edge_cases self u v w p)
    as [[e [He _]]|(Hu & Hv & Hw & Hp & Hcase)];
    [rewrite He in Hadd; discriminate|].
  apply in_range_nat in Hu, Hv.
  set (u' := Z.to_nat u) in *. set (v' := Z.to_nat v) in *.
  assert (Hwithin' : within (_n self) ((u', v', w) :: G)).
  { intros a b c [[= <- <- <-]|Hin]; [auto|now apply (Hwithin a b c)]. }
  assert (Hs' : sound ((u', v', w) :: G) (inf self) (_n self) (_dist self)).
  { eapply sound_incl; [|exact Hs]. now apply incl_tl. }
  destruct Hcase as [[Hge He]|[Hlt He]]; rewrite He in Hadd;
    injection Hadd as <-.
  - split; [|auto]. split; [exact Hwf|]. split; [exact Hwithin'|].
    split; [exact Hs'|]. split.
    + destruct Hd as [Hd1 Hd2]. split; [exact Hd1|].
      intros a b c [[= <- <- <-]|Hin]; [exact Hge|now apply Hd2].
    + intros Hvalid. apply (noop_complete F (_n self) (inf self)); auto.
  - assert (Hs1 : sound ((u', v', w) :: G) (inf self) (_n self)
                    (set (_dist self) u' v' w)).
    { apply sound_set; auto. now left. }
    assert (Hb1 : below (_dist self) (set (_dist self) u' v' w)).
    { apply (below_set (_n self)); auto; [apply Hwf|lia]. }
    assert (Hd1 : direct ((u', v', w) :: G) (_n self)
                    (set (_dist self) u' v' w)).
    { destruct Hd as [Hd1 Hd2]. split.
      - intros a Ha. specialize (Hd1 a Ha). specialize (Hb1 a a). lia.
      - intros a b c [[= <- <- <-]|Hin].
        + rewrite (get_set_eq (_n self)); auto; [lia|apply Hwf].
        + specialize (Hd2 a b c Hin). specialize (Hb1 a b). lia. }
    destruct p; cbn [_n inf _dist _needs_solve]; (split; [|auto]).
    + assert (Hvalid : _needs_solve self = false)
        by now destruct (_needs_solve self).
      assert (Hpass := propagate_below (_n self) (inf self) u' v' w
                         (set (_dist self) u' v' w) (proj1 Hs1)).
      split; [|split; [exact Hwithin'|split; [|split]]];
        cbn [_n inf _dist _needs_solve].
      * split; [apply Hwf|]. apply propagate_shape, shape_set, Hwf.
      * apply propagate_sound; auto. apply path_edge. now left.
      * eapply direct_below; [exact Hd1|exact Hpass].
      * intros _. apply (eager_complete F (_n self) (inf self)); auto.
    + split; [|split; [exact Hwithin'|split; [exact Hs1|split]]];
        cbn [_n inf _dist _needs_solve].
      * split; [apply Hwf|]. apply shape_set, Hwf.
      * exact Hd1.
      * discriminate.
Qed.

Lemma solve_knows G self :
  sentinel_above F (inf self) ->
  knows F G self -> incl G F ->
  exists self',
    solve self = (Returned (_dist self'), self') /\
    _needs_solve self' = false /\
    knows F G self' /\ _n self' = _n self /\ inf self' = inf self.
Proof.
  intros Habove (Hwf & Hwithin & Hs & Hd & Hc) Hincl.
  destruct (_needs_solve self) eqn:Hstale.
  - rewrite solve_stale by (apply Hwf || assumption).
    exists (mkFW (_n self) (inf self)
              (floyd_warshall (_n self) (inf self) (_dist self)) false).
    split; [reflexivity|]. cbn [_n inf _dist _needs_solve].
    split; [reflexivity|]. split; [|auto].
    split; [|split; [exact Hwithin|split; [|split]]];
      cbn [_n inf _dist _needs_solve].
    + split; [apply Hwf|]. apply floyd_warshall_shape, Hwf.
    + now apply floyd_warshall_sound.
    + eapply direct_below; [exact Hd|].
      apply floyd_warshall_below, Hwf.
    + intros _. now apply (floyd_warshall_complete F).
  - rewrite solve_valid by (apply Hwf || assumption). exists self.
    split; [reflexivity|]. split; [exact Hstale|]. split; [|auto].
    split; [exact Hwf|]. split; [exact Hwithin|]. split; [exact Hs|].
    split; [exact Hd|]. intros _. now apply Hc.
Qed.

Lemma add_edges_knows calls :
  forall G self self',
    sentinel_above F (inf self) ->
    knows F G self ->
    incl (rev (edges_of calls) ++ G) F ->
    add_edges calls self = (Returned tt, self') ->
    knows F (rev (edges_of calls) ++ G) self' /\
    _n self' = _n self /\ inf self' = inf self.
Proof.
  induction calls as [|[[[u v] w] p] calls IH];
    intros G self self' Habove Hk Hincl Hrun.
  - cbn in Hrun. injection Hrun as <-. now split.
  - cbn [add_edges] in Hrun. unfold bind in Hrun.
    destruct (add_edge u v w p self) as [[[]|e] self1] eqn:Hadd;
      [|discriminate].
    change (edges_of (((u, v, w), p) :: calls))
      with ((Z.to_nat u, Z.to_nat v, w) :: edges_of calls) in *.
    cbn [rev] in *. rewrite <- app_assoc in *. cbn [app] in *.
    destruct (add_edge_knows G self u v w p self1 Habove Hk) as (Hk1 & Hn1 & Hi1).
    { intros e He. apply Hincl, in_or_app. now right. }
    { exact Hadd. }
    rewrite <- Hi1 in Habove.
    destruct (IH _ self1 self' Habove Hk1 Hincl Hrun) as (Hk' & Hn' & Hi').
    split; [exact Hk'|]. split; congruence.
Qed.

(** An up-to-date object that knows all of [F] holds its distances. *)
Lemma knows_distances G self i j :
  sentinel_above F (inf self) ->
  incl G F -> incl F G ->
  knows F G self -> _needs_solve self = false ->
  (i < _n self)%nat -> (j < _n self)%nat ->
  (get (_dist self) i j = inf self <-> forall l, ~ path F i j l) /\
  (forall l, path F i j l -> shortest F i j (get (_dist self) i j)).
Proof.
  intros Habove HGF HFG (Hwf & Hwithin & Hs & Hd & Hc) Hvalid Hi Hj.
  specialize (Hc Hvalid).
  assert (HwF : within (_n self) F).
  { intros a b c Hin. apply (Hwithin a b c), HFG, Hin. }
  assert (Hfound : forall l, path F i j l ->
            shortest F i j (get (_dist self) i j)).
  { intros l Hp.
    destruct (shortest_exists _ _ _ _ _ HwF Hnc Hp) as [l0 Hl0].
    assert (Hle : get (_dist self) i j <= l0).
    { destruct Hl0 as [Hp0 Ho0]. apply Hc; auto. now apply (path_incl F). }
    now rewrite (sound_exact F G (_n self) (inf self) HGF Habove
                   (_dist self) i j l0 Hs Hi Hj Hl0 Hle). }
  split; [|exact Hfound]. split.
  - intros Heq l Hp. pose proof (Habove i j _ (Hfound l Hp)). lia.
  - intros Hno. destruct Hs as [_ Hs]. destruct (Hs i j Hi Hj) as [Hle Hp].
    destruct (Z.eq_dec (get (_dist self) i j) (inf self)) as [|Hne];
      [assumption|].
    exfalso. apply (Hno (get (_dist self) i j)).
    apply (path_incl G); [exact HGF|]. apply Hp. lia.
Qed.
End Knows.

(** ** Inserting a list of well-formed edges returns *)

Lemma add_edge_returns self u v w p :
  in_range self u -> in_range self v -> w < inf self ->
  p && _needs_solve self = false ->
  exists self',
    add_edge u v w p self = (Returned tt, self') /\
    _n self' = _n self /\ inf self' = inf self /\
    (p = true -> _needs_solve self' = false).
Proof.
  intros Hu Hv Hw Hp.
  destruct (add_edge_cases self u v w p)
    as [[e [_ [[_ Hbad]|(_ & -> & Hst)]]]
       |(_ & _ & _ & _ & [[_ ->]|[_ ->]])].
  - destruct Hbad as [Hbad|[Hbad|Hbad]]; [tauto|tauto|lia].
  - rewrite Hst in Hp. discriminate.
  - exists self. repeat split; auto. intros ->. exact Hp.
  - eexists. split; [reflexivity|].
    destruct p; cbn; repeat split; auto; discriminate.
Qed.

Lemma edges_of_eagerly es : edges_of (eagerly es) = graph es.
Proof.
  unfold edges_of, eagerly. rewrite map_map. cbn [fst]. now rewrite map_id.
Qed.

Lemma edges_of_lazily es : edges_of (lazily es) = graph es.
Proof.
  unfold edges_of, lazily. rewrite map_map. cbn [fst]. now rewrite map_id.
Qed.

Lemma add_edges_eagerly_returns es :
  forall self,
    Forall (insertable (_n self) (inf self)) es ->
    _needs_solve self = false ->
    exists self',
      add_edges (eagerly es) self = (Returned tt, self') /\
      _needs_solve self' = false.
Proof.
  induction es as [|[[u v] w] es IH]; intros self Hes Hvalid.
  - exists self. now split.
  - inversion Hes as [|e es' He Hes']. subst.
    unfold insertable in He. destruct He as (Hu & Hv & Hw).
    destruct (add_edge_returns self u v w true Hu Hv Hw)
      as (self1 & Hadd & Hn & Hi & Hv1).
    { now rewrite Hvalid. }
    rewrite <- Hn, <- Hi in Hes'.
    destruct (IH self1 Hes' (Hv1 eq_refl)) as (self' & Hrun & Hvalid').
    exists self'. split; [|exact Hvalid'].
    cbn [eagerly map add_edges]. unfold bind. rewrite Hadd. exact Hrun.
Qed.

Lemma add_edges_lazily_returns es :
  forall self,
    Forall (insertable (_n self) (inf self)) es ->
    exists self', add_edges (lazily es) self = (Returned tt, self').
Proof.
  induction es as [|[[u v] w] es IH]; intros self Hes.
  - now exists self.
  - inversion Hes as [|e es' He Hes']. subst.
    unfold insertable in He. destruct He as (Hu & Hv & Hw).
    destruct (add_edge_returns self u v w false Hu Hv Hw eq_refl)
      as (self1 & Hadd & Hn & Hi & _).
    rewrite <- Hn, <- Hi in Hes'.
    destruct (IH self1 Hes') as (self' & Hrun).
    exists self'.
    cbn [lazily map add_edges]. unfold bind. rewrite Hadd. exact Hrun.
Qed.

(** ** Graphs whose edges all lead to a higher vertex *)

Lemma forward_path es i j l :
  forward es -> path es i j l -> (i <= j)%nat /\ (i = j -> l = 0).
Proof.
  intros Hf. induction 1 as [i|i m j w l Hin _ [IH _]].
  - split; [lia|reflexivity].
  - apply Hf in Hin. split; lia.
Qed.

Lemma forward_no_negative_cycle es : forward es -> no_negative_cycle es.
Proof.
  intros Hf v l Hp. destruct (forward_path es v v l Hf Hp) as [_ Hl].
  rewrite Hl; [lia|reflexivity].
Qed.

Lemma forward_path_bound es n W i j l :
  forward es -> within n es -> 0 <= W ->
  (forall a b w, In (a, b, w) es -> w <= W) ->
  path es i j l -> l <= Z.of_nat n * W.
Proof.
  intros Hf Hwithin HW Hmax Hp.
  enough (Hgen : l <= Z.of_nat (j - i) * W /\ (i = j \/ (j < n)%nat)).
  { destruct Hgen as [Hle [->|Hj]]; [rewrite Nat.sub_diag in Hle; nia|nia]. }
  induction Hp as [i|i m j w l Hin Hp [IH Hj]].
  - split; [rewrite Nat.sub_diag; lia|now left].
  - pose proof (Hf _ _ _ Hin) as Him. pose proof (Hmax _ _ _ Hin) as Hw.
    destruct (forward_path es m j l Hf Hp) as [Hmj _].
    split.
    + replace (Z.of_nat (j - i)) with (Z.of_nat (j - m) + Z.of_nat (m - i))
        by lia. nia.
    + right. destruct Hj as [<-|Hj]; [|exact Hj].
      now apply (Hwithin i m w).
Qed.

Lemma forward_sentinel_above es n W sentinel :
  forward es -> within n es -> 0 <= W ->
  (forall a b w, In (a, b, w) es -> w <= W) ->
  Z.of_nat n * W < sentinel ->
  sentinel_above es sentinel.
Proof.
  intros Hf Hwithin HW Hmax Hlt i j l [Hp _].
  pose proof (forward_path_bound es n W i j l Hf Hwithin HW Hmax Hp). lia.
Qed.

(** * The claims *)

(** C5. A call that raises leaves the object exactly as it was: [add_edge]
    raises on an out-of-range vertex, on a weight not below the sentinel, or
    (with [update_dists=True]) on a stale matrix; [dist] and
    [has_negative_cycle] raise on a stale matrix; in each case the matrix
    and the flag are those from before the call. *)
Theorem failed_call_changes_nothing c self e self' :
  perform c self = (Some e, self') ->
  self' = self /\
  match c with
  | InsertEdge u v w p =>
      e = AssertionError /\
        (~ in_range self u \/ ~ in_range self v \/ inf self <= w) \/
      e = RuntimeError /\ p = true /\ _needs_solve self = true
  | Solve => e = AssertionError /\ inf self <= 0
  | Distances | HasNegativeCycle =>
      e = RuntimeError /\ _needs_solve self = true
  end.
Proof.
  destruct c as [u v w p| | |]; cbn [perform].
  - destruct (add_edge_cases self u v w p)
      as [[e' [-> Hwhy]]|(_ & _ & _ & _ & [[_ ->]|[_ ->]])];
      cbn [raised]; intros [= <- <-] || intros [=]. now split.
  - destruct (Z.lt_ge_cases 0 (inf self)) as [Hi|Hi].
    + destruct (_needs_solve self) eqn:Hs.
      * rewrite solve_stale by assumption. intros [=].
      * rewrite solve_valid by assumption. intros [=].
    + rewrite solve_unset by assumption. intros [= <- <-]. auto.
  - destruct (_needs_solve self) eqn:Hs.
    + rewrite dist_stale by assumption. intros [= <- <-]. auto.
    + rewrite dist_valid by assumption. intros [=].
  - destruct (_needs_solve self) eqn:Hs.
    + rewrite has_negative_cycle_stale by assumption. intros [= <- <-]. auto.
    + rewrite has_negative_cycle_valid by assumption. intros [=].
Qed.

Lemma failed_call_changes_nothing_witness :
  let self := mkFW 2 10 [[0; 3]; [10; 0]] true in
  let r := perform (InsertEdge 1 0 4 true) self in
  fst r = Some RuntimeError /\ snd r = self.
Proof.
  intros self r. split; [reflexivity|].
  destruct (failed_call_changes_nothing (InsertEdge 1 0 4 true) self
              RuntimeError (snd r) eq_refl) as [Hsame _].
  exact Hsame.
Defined.

(** C6. On an up-to-date object, [add_edge] with in-range vertices and a
    weight below the sentinel but not below [dist[u][v]] returns normally
    and changes neither the matrix nor the flag, whatever [update_dists]. *)
Theorem non_improving_edge_is_noop self u v weight update_dists :
  _needs_solve self = false ->
  in_range self u -> in_range self v -> weight < inf self ->
  weight >= get (_dist self) (Z.to_nat u) (Z.to_nat v) ->
  add_edge u v weight update_dists self = (Returned tt, self).
Proof.
  intros Hs Hu Hv Hw Hge. apply add_edge_noop; auto; [|lia].
  rewrite Hs. apply andb_false_r.
Qed.

Lemma non_improving_edge_is_noop_witness :
  let self := mkFW 2 10 [[0; 3]; [10; 0]] false in
  add_edge 0 1 5 true self = (Returned tt, self).
Proof.
  intros self. apply non_improving_edge_is_noop.
  - reflexivity.
  - unfold in_range. cbn. lia.
  - unfold in_range. cbn. lia.
  - cbn. lia.
  - vm_compute. discriminate.
Defined.

(** C7. [solve] returns on every reachable object, and calling it again
    right away returns the same matrix and the same object; on an
    up-to-date object it returns the stored matrix and changes nothing. *)
Theorem solve_idempotent self :
  reachable self ->
  exists m self1,
    solve self = (Returned m, self1) /\
    solve self1 = (Returned m, self1) /\
    (_needs_solve self = false -> self1 = self /\ m = _dist self).
Proof.
  intros Hr. destruct (reachable_wf _ Hr) as [Hi _].
  destruct (_needs_solve self) eqn:Hs.
  - rewrite solve_stale by assumption. do 2 eexists.
    split; [reflexivity|]. split; [|discriminate].
    now rewrite solve_valid.
  - rewrite solve_valid by assumption. do 2 eexists.
    split; [reflexivity|]. split; [|auto].
    now rewrite solve_valid.
Qed.

Lemma solve_idempotent_witness :
  exists self m self1,
    construct 3 10 = Returned self /\
    solve self = (Returned m, self1) /\ solve self1 = (Returned m, self1).
Proof.
  eexists.
  destruct (solve_idempotent (mkFW 3 10 (init_dist 3 10) false)
              (reach_construct 3 10 _ eq_refl)) as (m & self1 & H1 & H2 & _).
  exists m, self1. split; [reflexivity|]. split; assumption.
Defined.

(** C9. No call raises a matrix entry: after [add_edge] (either mode,
    improving or not), [solve], or a query, every [dist[i][j]] is at most
    what it was before. *)
Theorem entries_never_increase c self i j :
  reachable self -> (i < _n self)%nat -> (j < _n self)%nat ->
  get (_dist (snd (perform c self))) i j <= get (_dist self) i j.
Proof.
  intros Hr _ _. apply after_below; [apply perform_after|].
  now apply reachable_wf.
Qed.

Lemma entries_never_increase_witness :
  get (_dist (snd (perform (InsertEdge 0 1 4 true)
                     (mkFW 2 10 (init_dist 2 10) false)))) 0 1 <= 10.
Proof.
  apply (entries_never_increase (InsertEdge 0 1 4 true)
           (mkFW 2 10 (init_dist 2 10) false) 0%nat 1%nat).
  - apply (reach_construct 2 10). reflexivity.
  - cbn. lia.
  - cbn. lia.
Defined.

(** C10. In every object reachable from the constructor, every matrix
    entry is at most the sentinel: it is the sentinel or strictly below. *)
Theorem entries_at_most_sentinel self i j :
  reachable self -> (i < _n self)%nat -> (j < _n self)%nat ->
  get (_dist self) i j <= inf self /\
  (get (_dist self) i j = inf self \/ get (_dist self) i j < inf self).
Proof.
  intros Hr Hi Hj. pose proof (reachable_bounded _ Hr i j Hi Hj). lia.
Qed.

Lemma entries_at_most_sentinel_witness :
  let self := snd (perform Solve (snd (perform (InsertEdge 0 1 9 false)
                (mkFW 2 10 (init_dist 2 10) false)))) in
  get (_dist self) 0 1 <= inf self /\
  (get (_dist self) 0 1 = inf self \/ get (_dist self) 0 1 < inf self).
Proof.
  intros self.
  apply (entries_at_most_sentinel self 0%nat 1%nat).
  - apply reach_call, reach_call, (reach_construct 2 10). reflexivity.
  - vm_compute. lia.
  - vm_compute. lia.
Defined.

(** C8. On an up-to-date object [has_negative_cycle] returns, and returns
    [True] exactly when some vertex [v] has [dist[v][v] < 0]; the triangle
    with weights 1, 1, -3 answers [True] after [solve], the triangle with
    weights 1, 1, 1 answers [False]. *)
Theorem has_negative_cycle_spec :
  (forall self,
     _needs_solve self = false ->
     exists b,
       has_negative_cycle self = (Returned b, self) /\
       (b = true <->
        exists v, (v < _n self)%nat /\ get (_dist self) v v < 0)) /\
  (exists self, construct 3 (10 ^ 9) = Returned self /\
     fst (triangle 1 1 (-3) self) = Returned true) /\
  (exists self, construct 3 (10 ^ 9) = Returned self /\
     fst (triangle 1 1 1 self) = Returned false).
Proof.
  split; [|split].
  - intros self Hs. rewrite has_negative_cycle_valid by assumption.
    eexists. split; [reflexivity|].
    rewrite existsb_exists. split.
    + intros [v [Hin Hv]]. exists v. split; [now apply seq_bound|lia].
    + intros [v [Hlt Hv]]. exists v. split; [apply in_seq; lia|lia].
  - eexists. split; vm_compute; reflexivity.
  - eexists. split; vm_compute; reflexivity.
Qed.

Lemma has_negative_cycle_spec_witness :
  let self := mkFW 2 10 [[0; 3]; [-4; -1]] false in
  exists b,
    has_negative_cycle self = (Returned b, self) /\
    (b = true <-> exists v, (v < 2)%nat /\ get (_dist self) v v < 0).
Proof.
  intros self. apply (proj1 has_negative_cycle_spec self). reflexivity.
Defined.

(** ** The stale gate *)

Lemma add_edge_keeps_stale self u v w p :
  _needs_solve self = true ->
  _needs_solve (snd (add_edge u v w p self)) = true.
Proof.
  intros Hs.
  destruct (add_edge_cases self u v w p)
    as [[e [-> _]]|(_ & _ & _ & Hp & [[_ ->]|[_ ->]])]; cbn [snd]; auto.
  rewrite Hs, andb_true_r in Hp. now subst p.
Qed.

Lemma perform_keeps_stale c self :
  c <> Solve -> _needs_solve self = true ->
  _needs_solve (snd (perform c self)) = true.
Proof.
  intros Hc Hs. destruct c as [u v w p| | |]; cbn [perform].
  - generalize (add_edge_keeps_stale self u v w p Hs).
    now destruct (add_edge u v w p self).
  - congruence.
  - now rewrite dist_stale.
  - now rewrite has_negative_cycle_stale.
Qed.

Lemma perform_all_keeps_stale cs self :
  Forall (fun c => c <> Solve) cs -> _needs_solve self = true ->
  _needs_solve (fold_left (fun s c => snd (perform c s)) cs self) = true.
Proof.
  intros Hcs. revert self.
  induction Hcs as [|c cs Hc _ IH]; intros self Hs; cbn [fold_left].
  - exact Hs.
  - apply IH. now apply perform_keeps_stale.
Qed.

Lemma perform_all_reachable cs self :
  reachable self ->
  reachable (fold_left (fun s c => snd (perform c s)) cs self).
Proof.
  revert self. induction cs as [|c cs IH]; intros self Hr; cbn [fold_left].
  - exact Hr.
  - apply IH. now apply reach_call.
Qed.

(** C4, as the code has it.  After an [add_edge(update_dists=False)] that
    improves its entry, or that is made on an already stale object, [dist],
    [has_negative_cycle] and every well-formed [add_edge(update_dists=True)]
    raise [RuntimeError], whatever calls other than [solve] come in between;
    [solve] then returns and all three return again. *)
Theorem stale_until_solve self u v w self1 cs self2 :
  reachable self ->
  add_edge u v w false self = (Returned tt, self1) ->
  w < get (_dist self) (Z.to_nat u) (Z.to_nat v) \/
    _needs_solve self = true ->
  Forall (fun c => c <> Solve) cs ->
  self2 = fold_left (fun s c => snd (perform c s)) cs self1 ->
  (dist self2 = (Raised RuntimeError, self2) /\
   has_negative_cycle self2 = (Raised RuntimeError, self2) /\
   forall u' v' w',
     in_range self2 u' -> in_range self2 v' -> w' < inf self2 ->
     add_edge u' v' w' true self2 = (Raised RuntimeError, self2)) /\
  exists m self3,
    solve self2 = (Returned m, self3) /\
    dist self3 = (Returned m, self3) /\
    (exists b, has_negative_cycle self3 = (Returned b, self3)) /\
    forall u' v' w',
      in_range self3 u' -> in_range self3 v' -> w' < inf self3 ->
      exists self4, add_edge u' v' w' true self3 = (Returned tt, self4).
Proof.
  intros Hr Hadd Hwhy Hcs ->.
  assert (Hr1 : reachable self1).
  { replace self1 with (snd (perform (InsertEdge u v w false) self)).
    - now apply reach_call.
    - cbn [perform]. now rewrite Hadd. }
  assert (Hs1 : _needs_solve self1 = true).
  { destruct (add_edge_cases self u v w false)
      as [[e [He _]]|(_ & _ & _ & _ & [[Hge He]|[_ He]])];
      rewrite He in Hadd; inversion Hadd; subst; auto.
    destruct Hwhy as [Hlt|Hs]; [lia|exact Hs]. }
  set (self2 := fold_left _ cs self1).
  assert (Hr2 : reachable self2) by now apply perform_all_reachable.
  assert (Hs2 : _needs_solve self2 = true) by now apply perform_all_keeps_stale.
  destruct (reachable_wf _ Hr2) as [Hi _].
  split.
  - split; [now apply dist_stale|].
    split; [now apply has_negative_cycle_stale|].
    intros. now apply add_edge_stale.
  - rewrite solve_stale by assumption. do 2 eexists.
    split; [reflexivity|].
    split; [now rewrite dist_valid|].
    split; [rewrite has_negative_cycle_valid by reflexivity; eauto|].
    intros u' v' w' Hu' Hv' Hw'.
    match goal with |- context [add_edge _ _ _ _ ?s] =>
      destruct (add_edge_cases s u' v' w' true)
        as [[e [_ [[_ Hbad]|(_ & _ & Hbad)]]]
           |(_ & _ & _ & _ & [[_ ->]|[_ ->]])]
    end; eauto.
    + destruct Hbad as [Hbad|[Hbad|Hbad]]; [tauto|tauto|lia].
    + discriminate.
Qed.

Lemma stale_until_solve_witness :
  let self := mkFW 3 10 (init_dist 3 10) false in
  let self1 := snd (add_edge 0 1 4 false self) in
  let self2 := snd (perform (InsertEdge 1 2 3 false) self1) in
  dist self2 = (Raised RuntimeError, self2) /\
  exists m self3, solve self2 = (Returned m, self3) /\
                  dist self3 = (Returned m, self3).
Proof.
  intros self self1 self2.
  destruct (stale_until_solve self 0 1 4 self1
              [InsertEdge 1 2 3 false] self2)
    as [[Hd _] (m & self3 & Hsolve & Hd3 & _)].
  - apply (reach_construct 3 10). reflexivity.
  - reflexivity.
  - left. vm_compute. reflexivity.
  - repeat constructor; discriminate.
  - reflexivity.
  - split; [exact Hd|]. exists m, self3. now split.
Defined.

(** C4 as stated fails: an [add_edge(update_dists=False)] whose weight does
    not improve the entry leaves an up-to-date object up-to-date, and the
    queries and [add_edge(update_dists=True)] keep returning. *)
Lemma stale_gate_counterexample :
  let self := mkFW 2 10 [[0; 5]; [10; 0]] false in
  reachable self /\
  add_edge 0 1 7 false self = (Returned tt, self) /\
  dist self = (Returned (_dist self), self) /\
  has_negative_cycle self = (Returned false, self) /\
  add_edge 1 0 2 true self =
    (Returned tt, mkFW 2 10 [[0; 5]; [2; 0]] false).
Proof.
  intros self. split.
  - change self with
      (snd (perform Solve (snd (perform (InsertEdge 0 1 5 false)
                                  (mkFW 2 10 (init_dist 2 10) false))))).
    apply reach_call, reach_call, (reach_construct 2 10). reflexivity.
  - repeat split; vm_compute; reflexivity.
Defined.




(** ** All-pairs shortest distances *)

Lemma fresh_run_knows num_v sentinel calls self0 self1 :
  construct num_v sentinel = Returned self0 ->
  add_edges calls self0 = (Returned tt, self1) ->
  no_negative_cycle (edges_of calls) ->
  sentinel_above (edges_of calls) sentinel ->
  knows (edges_of calls) (rev (edges_of calls) ++ []) self1 /\
  _n self1 = num_v /\ inf self1 = sentinel.
Proof.
  intros Hc Hrun Hnc Habove.
  assert (Hn0 : _n self0 = num_v /\ inf self0 = sentinel).
  { unfold construct in Hc. destruct (sentinel >? 0); [|discriminate].
    injection Hc as <-. now split. }
  destruct Hn0 as [Hn0 Hi0].
  destruct (add_edges_knows (edges_of calls) Hnc calls [] self0 self1)
    as (Hk & Hn & Hi).
  - now rewrite Hi0.
  - now apply (construct_knows _ num_v sentinel).
  - rewrite app_nil_r. intros e He. now apply in_rev.
  - exact Hrun.
  - split; [exact Hk|]. split; congruence.
Qed.

Lemma rev_nil_incl (F : list (nat * nat * Z)) :
  incl (rev F ++ []) F /\ incl F (rev F ++ []).
Proof.
  rewrite app_nil_r. split; intros e He; [now apply in_rev|now apply in_rev in He].
Qed.

(** C1, as the code has it on integers.  Insert any list of edges with
    integer weights into a fresh object with an integer sentinel, every
    call returning.  If the edges close no negative cycle and the
    sentinel is strictly above every shortest-path distance, [solve]
    returns a matrix in which [dist[i][j]] is the weight of a shortest path
    from [i] to [j], and is the sentinel exactly when there is no path. *)
Theorem solve_gives_shortest_distances num_v sentinel calls self0 self1 :
  construct num_v sentinel = Returned self0 ->
  add_edges calls self0 = (Returned tt, self1) ->
  no_negative_cycle (edges_of calls) ->
  sentinel_above (edges_of calls) sentinel ->
  exists m self2,
    solve self1 = (Returned m, self2) /\
    forall i j, (i < num_v)%nat -> (j < num_v)%nat ->
      (get m i j = sentinel <-> forall l, ~ path (edges_of calls) i j l) /\
      (forall l, path (edges_of calls) i j l ->
         shortest (edges_of calls) i j (get m i j)).
Proof.
  intros Hc Hrun Hnc Habove.
  destruct (fresh_run_knows _ _ _ _ _ Hc Hrun Hnc Habove) as (Hk & Hn & Hi).
  destruct (rev_nil_incl (edges_of calls)) as [HGF HFG].
  destruct (solve_knows (edges_of calls) Hnc
              (rev (edges_of calls) ++ []) self1) as
    (self2 & Hsolve & Hvalid & Hk2 & Hn2 & Hi2); auto.
  { now rewrite Hi. }
  exists (_dist self2), self2. split; [exact Hsolve|].
  intros i j Hi' Hj'. rewrite <- Hi, <- Hi2.
  apply (knows_distances (edges_of calls) Hnc
           (rev (edges_of calls) ++ []) self2); auto.
  - now rewrite Hi2, Hi.
  - now rewrite Hn2, Hn.
  - now rewrite Hn2, Hn.
Qed.

(** The graph of the spec's example: vertices [0, 1, 2], one edge [0 -> 1]
    of weight 5. *)
Lemma one_edge_forward :
  forward (edges_of [(0, 1, 5, false)]) /\
  within 3 (edges_of [(0, 1, 5, false)]) /\
  forall a b w, In (a, b, w) (edges_of [(0, 1, 5, false)]) -> w <= 5.
Proof.
  split; [|split]; intros a b w [[= <- <- <-]|[]]; cbn; lia.
Qed.

Lemma solve_gives_shortest_distances_witness :
  exists self0 self1 m self2,
    construct 3 (10 ^ 9) = Returned self0 /\
    add_edges [(0, 1, 5, false)] self0 = (Returned tt, self1) /\
    solve self1 = (Returned m, self2) /\
    (get m 0 2 = 10 ^ 9 <->
     forall l, ~ path (edges_of [(0, 1, 5, false)]) 0 2 l) /\
    (get m 2 0 = 10 ^ 9 <->
     forall l, ~ path (edges_of [(0, 1, 5, false)]) 2 0 l).
Proof.
  destruct one_edge_forward as (Hf & Hwithin & Hmax).
  destruct (solve_gives_shortest_distances 3 (10 ^ 9) [(0, 1, 5, false)]
              (mkFW 3 (10 ^ 9) (init_dist 3 (10 ^ 9)) false)
              (snd (add_edges [(0, 1, 5, false)]
                      (mkFW 3 (10 ^ 9) (init_dist 3 (10 ^ 9)) false))))
    as (m & self2 & Hsolve & Hm).
  - reflexivity.
  - reflexivity.
  - now apply forward_no_negative_cycle.
  - apply (forward_sentinel_above _ 3 5); auto; lia.
  - do 2 eexists. exists m, self2.
    split; [reflexivity|]. split; [reflexivity|]. split; [exact Hsolve|].
    split.
    + apply (Hm 0%nat 2%nat); lia.
    + apply (Hm 2%nat 0%nat); lia.
Defined.

(** C1 as stated fails for a sentinel that a shortest distance reaches:
    with sentinel 10 and the edges [0 -> 1] and [1 -> 2] of weight 9, no
    negative cycle exists, vertex 2 is reached from 0 by a path of weight
    18, and [solve] leaves [dist[0][2]] at the sentinel. *)
Lemma solve_gives_shortest_distances_counterexample :
  let calls := [(0, 1, 9, false); (1, 2, 9, false)] in
  let self0 := mkFW 3 10 (init_dist 3 10) false in
  let self1 := snd (add_edges calls self0) in
  construct 3 10 = Returned self0 /\
  add_edges calls self0 = (Returned tt, self1) /\
  no_negative_cycle (edges_of calls) /\
  path (edges_of calls) 0 2 18 /\
  exists m self2, solve self1 = (Returned m, self2) /\ get m 0 2 = 10.
Proof.
  intros calls self0 self1.
  split; [reflexivity|]. split; [reflexivity|]. split; [|split].
  - apply forward_no_negative_cycle.
    intros a b w [[= <- <- <-]|[[= <- <- <-]|[]]]; cbn; lia.
  - apply (path_cons _ 0%nat 1%nat 2%nat 9 9); [now left|].
    apply path_edge. right. now left.
  - do 2 eexists. split; vm_compute; reflexivity.
Defined.

(** ** Incremental insertion against one full solve *)

Lemma knows_agree F G1 G2 self1 self2 :
  no_negative_cycle F -> sentinel_above F (inf self1) ->
  incl G1 F -> incl F G1 -> incl G2 F -> incl F G2 ->
  knows F G1 self1 -> knows F G2 self2 ->
  _needs_solve self1 = false -> _needs_solve self2 = false ->
  _n self2 = _n self1 -> inf self2 = inf self1 ->
  _dist self1 = _dist self2.
Proof.
  intros Hnc Habove H1F HF1 H2F HF2 Hk1 Hk2 Hv1 Hv2 Hn Hi.
  apply (shape_ext (_n self1)).
  - apply Hk1.
  - rewrite <- Hn. apply Hk2.
  - intros i j Hi' Hj'.
    destruct (knows_distances F Hnc G1 self1 i j) as [Hinf1 Hsh1]; auto.
    destruct (knows_distances F Hnc G2 self2 i j) as [Hinf2 Hsh2]; auto;
      try (rewrite Hi; assumption); try (rewrite Hn; assumption).
    destruct (Z.eq_dec (get (_dist self1) i j) (inf self1)) as [He|Hne].
    + rewrite He, <- Hi. symmetry. apply Hinf2. now apply Hinf1.
    + destruct Hk1 as (_ & _ & [_ Hs] & _).
      destruct (Hs i j Hi' Hj') as [Hle Hp].
      assert (Hpath : path F i j (get (_dist self1) i j)).
      { apply (path_incl G1); [exact H1F|]. apply Hp. lia. }
      eapply shortest_unique; [apply (Hsh1 _ Hpath)|apply (Hsh2 _ Hpath)].
Qed.

(** C2, as the code has it on integers.  For edges with in-range vertices
    and integer weights below the integer sentinel, closing no negative
    cycle, and a sentinel strictly above every shortest-path distance:
    inserting them into a fresh object with [update_dists=True] returns and
    leaves the very matrix that inserting them with [update_dists=False]
    and one [solve] returns. *)
Theorem incremental_matches_batch num_v sentinel es self0 :
  construct num_v sentinel = Returned self0 ->
  Forall (insertable num_v sentinel) es ->
  no_negative_cycle (graph es) ->
  sentinel_above (graph es) sentinel ->
  exists self1 self2 m self3,
    add_edges (eagerly es) self0 = (Returned tt, self1) /\
    add_edges (lazily es) self0 = (Returned tt, self2) /\
    solve self2 = (Returned m, self3) /\
    _dist self1 = m.
Proof.
  intros Hc Hes Hnc Habove.
  assert (Hf0 : _n self0 = num_v /\ inf self0 = sentinel /\
                _needs_solve self0 = false).
  { unfold construct in Hc. destruct (sentinel >? 0); [|discriminate].
    injection Hc as <-. now repeat split. }
  destruct Hf0 as (Hn0 & Hi0 & Hv0).
  rewrite <- Hn0, <- Hi0 in Hes.
  destruct (add_edges_eagerly_returns es self0 Hes Hv0)
    as (self1 & Hrun1 & Hv1).
  destruct (add_edges_lazily_returns es self0 Hes) as (self2 & Hrun2).
  pose proof Hnc as Hnc1. pose proof Habove as Habove1.
  rewrite <- edges_of_eagerly in Hnc1, Habove1.
  destruct (fresh_run_knows _ _ _ _ _ Hc Hrun1 Hnc1 Habove1)
    as (Hk1 & Hn1 & Hi1).
  pose proof Hnc as Hnc2. pose proof Habove as Habove2.
  rewrite <- edges_of_lazily in Hnc2, Habove2.
  destruct (fresh_run_knows _ _ _ _ _ Hc Hrun2 Hnc2 Habove2)
    as (Hk2 & Hn2 & Hi2).
  rewrite edges_of_eagerly in Hk1. rewrite edges_of_lazily in Hk2.
  destruct (rev_nil_incl (graph es)) as [HGF HFG].
  destruct (solve_knows (graph es) Hnc (rev (graph es) ++ []) self2) as
    (self3 & Hsolve & Hv3 & Hk3 & Hn3 & Hi3); auto.
  { now rewrite Hi2. }
  exists self1, self2, (_dist self3), self3.
  split; [exact Hrun1|]. split; [exact Hrun2|]. split; [exact Hsolve|].
  apply (knows_agree (graph es) (rev (graph es) ++ [])
           (rev (graph es) ++ [])); auto; try congruence.
  now rewrite Hi1.
Qed.

Lemma incremental_matches_batch_witness :
  let es := [(0, 1, 3); (1, 2, 4); (0, 2, 9)] in
  let self0 := mkFW 3 (10 ^ 9) (init_dist 3 (10 ^ 9)) false in
  exists self1 self2 m self3,
    add_edges (eagerly es) self0 = (Returned tt, self1) /\
    add_edges (lazily es) self0 = (Returned tt, self2) /\
    solve self2 = (Returned m, self3) /\
    _dist self1 = m.
Proof.
  intros es self0.
  assert (Hf : forward (graph es))
    by (intros a b w [[= <- <- <-]|[[= <- <- <-]|[[= <- <- <-]|[]]]];
        cbn; lia).
  assert (Hwithin : within 3 (graph es))
    by (intros a b w [[= <- <- <-]|[[= <- <- <-]|[[= <- <- <-]|[]]]];
        cbn; lia).
  assert (Hmax : forall a b w, In (a, b, w) (graph es) -> w <= 9)
    by (intros a b w [[= <- <- <-]|[[= <- <- <-]|[[= <- <- <-]|[]]]];
        cbn; lia).
  apply (incremental_matches_batch 3 (10 ^ 9) es self0).
  - reflexivity.
  - repeat constructor; cbn; lia.
  - now apply forward_no_negative_cycle.
  - apply (forward_sentinel_above _ 3 9); auto; lia.
Defined.

(** C2 as stated fails for a sentinel that a shortest distance reaches:
    with sentinel 10 and the edges [2 -> 3] of weight -15, [1 -> 2] and
    [0 -> 1] of weight 9, inserted in this order, no negative cycle exists
    and every weight is below the sentinel; incremental insertion ends with
    [dist[0][3] = 3], insertion followed by [solve] with [dist[0][3]] at
    the sentinel. *)
Lemma incremental_matches_batch_counterexample :
  let es := [(2, 3, -15); (1, 2, 9); (0, 1, 9)] in
  let self0 := mkFW 4 10 (init_dist 4 10) false in
  construct 4 10 = Returned self0 /\
  Forall (insertable 4 10) es /\
  no_negative_cycle (graph es) /\
  exists self1 self2 m self3,
    add_edges (eagerly es) self0 = (Returned tt, self1) /\
    add_edges (lazily es) self0 = (Returned tt, self2) /\
    solve self2 = (Returned m, self3) /\
    get (_dist self1) 0 3 = 3 /\ get m 0 3 = 10.
Proof.
  intros es self0.
  split; [reflexivity|]. split; [repeat constructor; cbn; lia|]. split.
  - apply forward_no_negative_cycle.
    intros a b w [[= <- <- <-]|[[= <- <- <-]|[[= <- <- <-]|[]]]]; cbn; lia.
  - do 4 eexists. repeat split; vm_compute; reflexivity.
Defined.

(** ** The spec's concrete scenario *)

Example scenario :
  let s0 := mkFW 3 (10 ^ 9) (init_dist 3 (10 ^ 9)) false in
  let s1 := snd (add_edge 0 1 3 false s0) in
  let s2 := snd (add_edge 1 2 4 false s1) in
  let s3 := snd (solve s2) in
  let s4 := snd (add_edge 0 2 1 true s3) in
  construct 3 (10 ^ 9) = Returned s0 /\
  fst (solve s2) = Returned (_dist s3) /\
  get (_dist s3) 0 2 = 7 /\
  fst (add_edge 0 2 1 true s3) = Returned tt /\
  _dist s4 = [[0; 3; 1]; [10 ^ 9; 0; 4]; [10 ^ 9; 10 ^ 9; 0]].
Proof. vm_compute. repeat split. Qed.

(** * Further properties of the engine *)

(** ** The constructor *)

Lemma no_negative_diagonal n d :
  (forall v, (v < n)%nat -> 0 <= get d v v) ->
  existsb (fun v => get d v v <? 0) (seq 0 n) = false.
Proof.
  intros Hd. destruct (existsb _ _) eqn:He; [|reflexivity].
  apply existsb_exists in He as (v & Hin & Hv).
  apply seq_bound, Hd in Hin. lia.
Qed.

(** X1. [FloydWarshall(num_v, inf)] raises [AssertionError] when [inf] is
    not positive; otherwise it builds an up-to-date object with [num_v]
    vertices whose square matrix is 0 on the diagonal and [inf] elsewhere,
    on which [dist] returns that matrix and [has_negative_cycle] answers
    [False]. *)
Theorem construct_spec num_v sentinel :
  (sentinel <= 0 -> construct num_v sentinel = Raised AssertionError) /\
  (0 < sentinel ->
   exists self,
     construct num_v sentinel = Returned self /\
     _n self = num_v /\ inf self = sentinel /\ _needs_solve self = false /\
     shape num_v (_dist self) /\
     (forall i j, (i < num_v)%nat -> (j < num_v)%nat ->
        get (_dist self) i j = if decide (i = j) then 0 else sentinel) /\
     dist self = (Returned (_dist self), self) /\
     has_negative_cycle self = (Returned false, self)).
Proof.
  split; intros Hs; unfold construct.
  - now destruct (Z.gtb_spec sentinel 0); [lia|].
  - destruct (Z.gtb_spec sentinel 0); [|lia]. eexists.
    split; [reflexivity|]. cbn [_n inf _dist _needs_solve].
    assert (Hget : forall i j, (i < num_v)%nat -> (j < num_v)%nat ->
              get (init_dist num_v sentinel) i j =
                if decide (i = j) then 0 else sentinel).
    { intros i j Hi Hj. rewrite init_dist_get by assumption.
      destruct (Nat.eqb_spec i j), (decide (i = j)); congruence. }
    repeat (split; [reflexivity || apply init_dist_shape || exact Hget|]).
    rewrite has_negative_cycle_valid by reflexivity.
    cbn [_n _dist]. rewrite no_negative_diagonal; [reflexivity|].
    intros v Hv. rewrite Hget by assumption. now rewrite decide_True.
Qed.

Lemma construct_spec_witness :
  exists self,
    construct 3 7 = Returned self /\
    get (_dist self) 1 1 = 0 /\ get (_dist self) 1 2 = 7.
Proof.
  destruct (proj2 (construct_spec 3 7) ltac:(lia))
    as (self & Hc & _ & _ & _ & _ & Hget & _).
  exists self. split; [exact Hc|].
  split; [apply (Hget 1%nat 1%nat)|apply (Hget 1%nat 2%nat)]; lia.
Defined.

(** ** Invariants of every reachable object *)

(** X2. In every object reachable from the constructor the sentinel is
    positive and the matrix is square of side [_n]; no call changes [_n]
    or [inf], so the matrix is never resized. *)
Theorem reachable_shape_and_fields self c :
  reachable self ->
  0 < inf self /\ shape (_n self) (_dist self) /\
  _n (snd (perform c self)) = _n self /\
  inf (snd (perform c self)) = inf self /\
  shape (_n self) (_dist (snd (perform c self))).
Proof.
  intros Hr. destruct (reachable_wf _ Hr) as [Hi Hs].
  destruct (after_fields _ _ (perform_after c self)) as [Hn Hinf].
  destruct (after_wf _ _ (perform_after c self) (conj Hi Hs)) as [_ Hs'].
  rewrite Hn in Hs'.
  split; [exact Hi|]. split; [exact Hs|]. split; [exact Hn|].
  split; [exact Hinf|exact Hs'].
Qed.

Lemma reachable_shape_and_fields_witness :
  let self := mkFW 3 10 (init_dist 3 10) false in
  _n (snd (perform (InsertEdge 0 1 4 true) self)) = 3%nat /\
  shape 3 (_dist (snd (perform (InsertEdge 0 1 4 true) self))).
Proof.
  intros self.
  destruct (reachable_shape_and_fields self (InsertEdge 0 1 4 true)
              (reach_construct 3 10 _ eq_refl)) as (_ & _ & Hn & _ & Hs).
  split; [exact Hn|exact Hs].
Defined.

(** ** What any history of calls leaves in the matrix *)

Lemma construct_heard num_v i self :
  construct num_v i = Returned self -> heard [] self.
Proof.
  intros Hc. destruct (construct_knows [] _ _ _ Hc) as (Hwf & Hw & Hs & Hd & _).
  split; [exact Hwf|]. split; [exact Hw|]. split; [exact Hs|exact Hd].
Qed.

Lemma heard_same G G' self :
  heard G self -> incl G G' -> within (_n self) G' ->
  (forall i j w, In (i, j, w) G' ->
     In (i, j, w) G \/ get (_dist self) i j <= w) ->
  heard G' self.
Proof.
  intros (Hwf & _ & Hs & Hd1 & Hd2) Hincl Hwithin Hnew.
  split; [exact Hwf|]. split; [exact Hwithin|].
  split; [now apply (sound_incl G)|]. split; [exact Hd1|].
  intros i j w Hin. destruct (Hnew i j w Hin) as [Hold|Hle]; auto.
Qed.

Lemma add_edge_heard G self u v w p :
  heard G self ->
  heard (new_edge (InsertEdge u v w p) self ++ G)
        (snd (add_edge u v w p self)).
Proof.
  intros Hh. pose proof Hh as (Hwf & Hwithin & Hs & Hd).
  cbn [new_edge].
  destruct (add_edge_cases self u v w p)
    as [[e [-> _]]|(Hu & Hv & Hw & Hp & Hcase)]; [exact Hh|].
  apply in_range_nat in Hu, Hv.
  set (u' := Z.to_nat u) in *. set (v' := Z.to_nat v) in *.
  assert (Hwithin' : within (_n self) ((u', v', w) :: G)).
  { intros a b c [[= <- <- <-]|Hin]; [auto|now apply (Hwithin a b c)]. }
  destruct Hcase as [[Hge ->]|[Hlt ->]]; cbn [fst snd app].
  - apply (heard_same G); auto; [now apply incl_tl|].
    intros a b c [[= <- <- <-]|Hin]; [now right|now left].
  - assert (Hs1 : sound ((u', v', w) :: G) (inf self) (_n self)
                    (set (_dist self) u' v' w)).
    { apply sound_set; auto; [|now left].
      eapply sound_incl; [|exact Hs]. now apply incl_tl. }
    assert (Hb1 : below (_dist self) (set (_dist self) u' v' w)).
    { apply (below_set (_n self)); auto; [apply Hwf|lia]. }
    assert (Hd1 : direct ((u', v', w) :: G) (_n self)
                    (set (_dist self) u' v' w)).
    { destruct Hd as [Hd1 Hd2]. split.
      - intros a Ha. specialize (Hd1 a Ha). specialize (Hb1 a a). lia.
      - intros a b c [[= <- <- <-]|Hin].
        + rewrite (get_set_eq (_n self)); auto; [lia|apply Hwf].
        + specialize (Hd2 a b c Hin). specialize (Hb1 a b). lia. }
    destruct p; (split; [|split; [exact Hwithin'|split]]);
      cbn [_n inf _dist _needs_solve]; auto.
    + split; [apply Hwf|]. apply propagate_shape, shape_set, Hwf.
    + apply propagate_sound; auto. apply path_edge. now left.
    + eapply direct_below; [exact Hd1|].
      apply propagate_below, shape_set, Hwf.
    + split; [apply Hwf|]. apply shape_set, Hwf.
Qed.

Lemma solve_heard G self : heard G self -> heard G (snd (solve self)).
Proof.
  intros Hh. pose proof Hh as (Hwf & Hwithin & Hs & Hd).
  destruct (Z.lt_ge_cases 0 (inf self)) as [Hi|Hi];
    [|now rewrite solve_unset].
  destruct (_needs_solve self) eqn:Hstale; [|now rewrite solve_valid].
  rewrite solve_stale by assumption. cbn [snd].
  split; [|split; [exact Hwithin|split]]; cbn [_n inf _dist _needs_solve].
  - split; [exact Hi|]. apply floyd_warshall_shape, Hwf.
  - now apply floyd_warshall_sound.
  - eapply direct_below; [exact Hd|]. apply floyd_warshall_below, Hwf.
Qed.

Lemma perform_heard G c self :
  heard G self -> heard (new_edge c self ++ G) (snd (perform c self)).
Proof.
  intros Hh. destruct c as [u v w p| | |].
  - generalize (add_edge_heard G self u v w p Hh). cbn [perform].
    now destruct (add_edge u v w p self).
  - generalize (solve_heard G self Hh). cbn [perform new_edge app].
    now destruct (solve self).
  - cbn [perform new_edge app]. destruct (_needs_solve self) eqn:Hs.
    + now rewrite dist_stale.
    + now rewrite dist_valid.
  - cbn [perform new_edge app]. destruct (_needs_solve self) eqn:Hs.
    + now rewrite has_negative_cycle_stale.
    + now rewrite has_negative_cycle_valid.
Qed.

Lemma run_heard cs :
  forall G self, heard G self -> heard (inserted cs self ++ G) (run cs self).
Proof.
  induction cs as [|c cs IH]; intros G self Hh; cbn [inserted run fold_left].
  - exact Hh.
  - rewrite <- app_assoc. apply IH. now apply perform_heard.
Qed.

Lemma fresh_run_heard num_v sentinel self0 cs :
  construct num_v sentinel = Returned self0 ->
  heard (inserted cs self0) (run cs self0) /\
  _n (run cs self0) = num_v /\ inf (run cs self0) = sentinel.
Proof.
  intros Hc. split.
  - rewrite <- (app_nil_r (inserted cs self0)).
    apply run_heard. now apply (construct_heard num_v sentinel).
  - assert (Hf : _n self0 = num_v /\ inf self0 = sentinel).
    { unfold construct in Hc. destruct (sentinel >? 0); [|discriminate].
      injection Hc as <-. now split. }
    destruct Hf as [<- <-]. clear Hc. revert self0.
    induction cs as [|c cs IH]; intros self0; cbn [run fold_left]; [auto|].
    destruct (after_fields _ _ (perform_after c self0)) as [Hn Hi].
    destruct (IH (snd (perform c self0))) as [Hn' Hi'].
    unfold run in *. split; congruence.
Qed.

(** X3. With integer weights and an integer sentinel: after any list of
    calls on a fresh object, stale or not, an entry that is not the
    sentinel is the weight of a path over the edges whose [add_edge]
    returned: the matrix never holds a distance that no path attains. *)
Theorem known_entries_are_paths num_v sentinel self0 cs i j :
  construct num_v sentinel = Returned self0 ->
  (i < num_v)%nat -> (j < num_v)%nat ->
  get (_dist (run cs self0)) i j <> sentinel ->
  path (inserted cs self0) i j (get (_dist (run cs self0)) i j).
Proof.
  intros Hc Hi Hj Hne.
  destruct (fresh_run_heard _ _ _ cs Hc) as ((_ & _ & [_ Hs] & _) & Hn & Hinf).
  rewrite Hn, Hinf in Hs. destruct (Hs i j Hi Hj) as [Hle Hp].
  apply Hp. lia.
Qed.

Lemma known_entries_are_paths_witness :
  let self0 := mkFW 3 10 (init_dist 3 10) false in
  let cs := [InsertEdge 0 1 4 false; InsertEdge 1 2 3 false; Solve] in
  path (inserted cs self0) 0 2 7.
Proof.
  intros self0 cs.
  apply (known_entries_are_paths 3 10 self0 cs 0%nat 2%nat).
  - reflexivity.
  - lia.
  - lia.
  - vm_compute. discriminate.
Defined.

(** X4. After any list of calls on a fresh object, [dist[u][v]] is at most
    the weight of every edge [u -> v] whose [add_edge] returned, and no
    diagonal entry is positive. *)
Theorem entries_at_most_inserted_weights num_v sentinel self0 cs :
  construct num_v sentinel = Returned self0 ->
  (forall u v w, In (u, v, w) (inserted cs self0) ->
     get (_dist (run cs self0)) u v <= w) /\
  (forall i, (i < num_v)%nat -> get (_dist (run cs self0)) i i <= 0).
Proof.
  intros Hc.
  destruct (fresh_run_heard _ _ _ cs Hc) as ((_ & _ & _ & Hd1 & Hd2) & Hn & _).
  rewrite Hn in Hd1. split; assumption.
Qed.

Lemma entries_at_most_inserted_weights_witness :
  let self0 := mkFW 3 10 (init_dist 3 10) false in
  let cs := [InsertEdge 0 1 4 false; InsertEdge 0 1 2 false;
             InsertEdge 0 1 9 false] in
  get (_dist (run cs self0)) 0 1 <= 2.
Proof.
  intros self0 cs.
  apply (proj1 (entries_at_most_inserted_weights 3 10 self0 cs eq_refl)).
  vm_compute. right. now left.
Defined.

(** X5. With integer weights and an integer sentinel: as long as the
    inserted edges close no negative cycle, every diagonal entry is exactly
    0, after any list of calls on a fresh object and whether the matrix is
    stale or not. *)
Theorem diagonal_stays_zero num_v sentinel self0 cs i :
  construct num_v sentinel = Returned self0 ->
  no_negative_cycle (inserted cs self0) ->
  (i < num_v)%nat ->
  get (_dist (run cs self0)) i i = 0.
Proof.
  intros Hc Hnc Hi.
  destruct (fresh_run_heard _ _ _ cs Hc)
    as (([Hpos _] & _ & [_ Hs] & Hd & _) & Hn & Hinf).
  rewrite Hn in Hs, Hd. specialize (Hd i Hi).
  destruct (Hs i i Hi Hi) as [_ Hp].
  assert (Hp' : path (inserted cs self0) i i (get (_dist (run cs self0)) i i))
    by (apply Hp; lia).
  apply Hnc in Hp'. lia.
Qed.

Lemma diagonal_stays_zero_witness :
  let self0 := mkFW 3 10 (init_dist 3 10) false in
  let cs := [InsertEdge 0 1 4 false; InsertEdge 1 2 (-3) true; Solve] in
  get (_dist (run cs self0)) 1 1 = 0.
Proof.
  intros self0 cs.
  apply (diagonal_stays_zero 3 10 self0 cs 1%nat).
  - reflexivity.
  - apply forward_no_negative_cycle.
    intros a b w Hin. vm_compute in Hin.
    destruct Hin as [[= <- <- <-]|[]]; lia.
  - lia.
Defined.

(** X6. With integer weights and an integer sentinel,
    [has_negative_cycle] raises no false alarm: after any list of calls
    on a fresh object, an answer [True] comes with a closed path of negative
    weight over the edges whose [add_edge] returned. *)
Theorem negative_cycle_alarm_is_sound num_v sentinel self0 cs self' :
  construct num_v sentinel = Returned self0 ->
  has_negative_cycle (run cs self0) = (Returned true, self') ->
  exists v l, (v < num_v)%nat /\ path (inserted cs self0) v v l /\ l < 0.
Proof.
  intros Hc Hneg.
  destruct (fresh_run_heard _ _ _ cs Hc)
    as (([Hpos _] & _ & [_ Hs] & _) & Hn & Hinf).
  destruct (_needs_solve (run cs self0)) eqn:Hstale.
  - rewrite has_negative_cycle_stale in Hneg by assumption. discriminate.
  - rewrite has_negative_cycle_valid in Hneg by assumption.
    injection Hneg as Hex _.
    apply existsb_exists in Hex as (v & Hin & Hv).
    apply seq_bound in Hin. rewrite Hn in Hin, Hs.
    destruct (Hs v v Hin Hin) as [_ Hp].
    exists v, (get (_dist (run cs self0)) v v).
    split; [exact Hin|]. split; [apply Hp|]; lia.
Qed.

Lemma negative_cycle_alarm_is_sound_witness :
  let self0 := mkFW 2 10 (init_dist 2 10) false in
  let cs := [InsertEdge 0 1 1 false; InsertEdge 1 0 (-3) false; Solve] in
  exists v l, (v < 2)%nat /\ path (inserted cs self0) v v l /\ l < 0.
Proof.
  intros self0 cs.
  apply (negative_cycle_alarm_is_sound 2 10 self0 cs (run cs self0)).
  - reflexivity.
  - vm_compute. reflexivity.
Defined.

Lemma run_below cs :
  forall self,
    wf self ->
    wf (run cs self) /\ _n (run cs self) = _n self /\
    below (_dist self) (_dist (run cs self)).
Proof.
  induction cs as [|c cs IH]; intros self Hwf; cbn [run fold_left].
  - split; [exact Hwf|]. split; [reflexivity|apply below_refl].
  - pose proof (perform_after c self) as Ha.
    destruct (IH _ (after_wf _ _ Ha Hwf)) as (Hwf' & Hn & Hb).
    destruct (after_fields _ _ Ha) as [Hn1 _].
    unfold run in *. split; [exact Hwf'|]. split; [congruence|].
    apply (below_trans _ (_dist (snd (perform c self))));
      [now apply after_below|exact Hb].
Qed.

(** X7. A detected negative cycle stays detected: once
    [has_negative_cycle] has answered [True], it answers [True] again after
    any further calls, whenever the matrix is up-to-date. *)
Theorem negative_cycle_stays_detected self cs :
  reachable self ->
  fst (has_negative_cycle self) = Returned true ->
  _needs_solve (run cs self) = false ->
  has_negative_cycle (run cs self) = (Returned true, run cs self).
Proof.
  intros Hr Hneg Hvalid.
  destruct (_needs_solve self) eqn:Hstale.
  { rewrite has_negative_cycle_stale in Hneg by assumption. discriminate. }
  rewrite has_negative_cycle_valid in Hneg by assumption.
  injection Hneg as Hex. apply existsb_exists in Hex as (v & Hin & Hv).
  destruct (run_below cs self (reachable_wf _ Hr)) as (_ & Hn & Hb).
  rewrite has_negative_cycle_valid by assumption. f_equal. f_equal.
  apply existsb_exists. exists v. rewrite Hn. split; [exact Hin|].
  specialize (Hb v v). lia.
Qed.

Lemma negative_cycle_stays_detected_witness :
  let self := mkFW 2 10 [[0; 10]; [10; -3]] false in
  let cs := [InsertEdge 0 1 4 false; Solve] in
  has_negative_cycle (run cs self) = (Returned true, run cs self).
Proof.
  intros self cs. apply negative_cycle_stays_detected.
  - change self with
      (snd (perform (InsertEdge 1 1 (-1) true)
              (mkFW 2 10 (init_dist 2 10) false))).
    apply reach_call, (reach_construct 2 10). reflexivity.
  - reflexivity.
  - reflexivity.
Defined.

(** ** Insertion without propagation *)

Lemma add_edge_lazy_entry self u v w :
  wf self -> in_range self u -> in_range self v -> w < inf self ->
  exists self1,
    add_edge u v w false self = (Returned tt, self1) /\
    wf self1 /\ _n self1 = _n self /\ inf self1 = inf self /\
    _needs_solve self1 =
      (_needs_solve self || (w <? get (_dist self) (Z.to_nat u) (Z.to_nat v)))
    /\
    forall i j, (i < _n self)%nat -> (j < _n self)%nat ->
      get (_dist self1) i j =
        if decide (i = Z.to_nat u /\ j = Z.to_nat v)
        then Z.min (get (_dist self) i j) w
        else get (_dist self) i j.
Proof.
  intros Hwf Hu Hv Hw.
  destruct (Z.lt_ge_cases w (get (_dist self) (Z.to_nat u) (Z.to_nat v)))
    as [Hlt|Hge].
  - rewrite add_edge_lazy by assumption. eexists. split; [reflexivity|].
    cbn [_n inf _dist _needs_solve].
    split; [split; [apply Hwf|apply shape_set, Hwf]|].
    split; [reflexivity|]. split; [reflexivity|]. split.
    + replace (w <? _) with true by (symmetry; lia). now rewrite orb_true_r.
    + intros i j Hi Hj.
      rewrite (get_set (_n self)); auto using in_range_nat; [|apply Hwf].
      destruct (decide _) as [[-> ->]|_]; lia.
  - rewrite add_edge_noop by (assumption || reflexivity || lia).
    exists self. split; [reflexivity|]. split; [exact Hwf|].
    split; [reflexivity|]. split; [reflexivity|]. split.
    + replace (w <? _) with false by (symmetry; lia). now rewrite orb_false_r.
    + intros i j Hi Hj. destruct (decide _) as [[-> ->]|_]; lia.
Qed.

Lemma lazily_minimum es :
  forall self,
    wf self -> Forall (insertable (_n self) (inf self)) es ->
    exists self',
      add_edges (lazily es) self = (Returned tt, self') /\
      _n self' = _n self /\ inf self' = inf self /\
      shape (_n self) (_dist self') /\
      (_needs_solve self' = true <->
       _needs_solve self = true \/
       exists i j, (i < _n self)%nat /\ (j < _n self)%nat /\
                   get (_dist self') i j < get (_dist self) i j) /\
      forall i j, (i < _n self)%nat -> (j < _n self)%nat ->
        get (_dist self') i j <= get (_dist self) i j /\
        (forall w, In (i, j, w) (graph es) -> get (_dist self') i j <= w) /\
        (get (_dist self') i j = get (_dist self) i j \/
         In (i, j, get (_dist self') i j) (graph es)).
Proof.
  induction es as [|[[u v] w] es IH]; intros self Hwf Hes.
  - exists self. split; [reflexivity|]. split; [reflexivity|].
    split; [reflexivity|]. split; [apply Hwf|]. split.
    + split; [now left|]. intros [H|(i & j & _ & _ & H)]; [exact H|lia].
    + intros i j Hi Hj. split; [lia|]. split; [intros w []|now left].
  - inversion Hes as [|e es' He Hes']. subst.
    unfold insertable in He. destruct He as (Hu & Hv & Hw).
    destruct (add_edge_lazy_entry self u v w Hwf Hu Hv Hw)
      as (self1 & Hadd & Hwf1 & Hn1 & Hi1 & Hflag1 & Hent1).
    rewrite <- Hn1, <- Hi1 in Hes'.
    destruct (IH self1 Hwf1 Hes')
      as (self' & Hrun & Hn' & Hi' & Hsh' & Hflag' & Hent').
    rewrite Hn1 in Hn', Hsh', Hflag', Hent'. rewrite Hi1 in Hi'.
    exists self'. split.
    { cbn [lazily map add_edges]. unfold bind. rewrite Hadd. exact Hrun. }
    split; [exact Hn'|]. split; [exact Hi'|]. split; [exact Hsh'|].
    apply in_range_nat in Hu, Hv.
    set (u' := Z.to_nat u) in *. set (v' := Z.to_nat v) in *.
    split.
    + rewrite Hflag', Hflag1, orb_true_iff, Z.ltb_lt. split.
      * intros [[Hold|Hlt]|(i & j & Hi & Hj & Hlt)].
        -- now left.
        -- right. exists u', v'. split; [exact Hu|]. split; [exact Hv|].
           destruct (Hent' u' v' Hu Hv) as (Hle & _).
           rewrite (Hent1 u' v' Hu Hv), decide_True in Hle by auto. lia.
        -- right. exists i, j. split; [exact Hi|]. split; [exact Hj|].
           rewrite (Hent1 i j Hi Hj) in Hlt.
           destruct (decide _) as [[-> ->]|_]; lia.
      * intros [Hold|(i & j & Hi & Hj & Hlt)]; [now left; left|].
        pose proof (Hent1 i j Hi Hj) as H1.
        destruct (decide (i = u' /\ j = v')) as [[-> ->]|_].
        -- destruct (Z.lt_ge_cases w (get (_dist self) u' v')) as [Hw'|Hw'].
           ++ left. now right.
           ++ right. exists u', v'. split; [exact Hu|]. split; [exact Hv|].
              lia.
        -- right. exists i, j. split; [exact Hi|]. split; [exact Hj|]. lia.
    + intros i j Hi Hj. destruct (Hent' i j Hi Hj) as (Hle & Hall & Hone).
      pose proof (Hent1 i j Hi Hj) as H1.
      change (graph ((u, v, w) :: es)) with ((u', v', w) :: graph es).
      destruct (decide (i = u' /\ j = v')) as [[-> ->]|Hne].
      * split; [lia|]. split.
        -- intros w0 [[= <-]|Hin]; [lia|now apply Hall].
        -- destruct Hone as [Heq|Hin]; [|right; now right].
           destruct (Z.le_gt_cases (get (_dist self) u' v') w).
           ++ left. lia.
           ++ right. left. f_equal. lia.
      * split; [lia|]. split.
        -- intros w0 [[= <- <- <-]|Hin]; [tauto|now apply Hall].
        -- destruct Hone as [Heq|Hin]; [left; lia|right; now right].
Qed.

(** X8. Inserting a list of well-formed edges with [update_dists=False]
    always returns, and leaves in each entry the least of its old value and
    the weights inserted for that ordered pair; the matrix is stale
    afterwards exactly if it was before or some entry went down. *)
Theorem lazy_insertion_keeps_minimum self es :
  reachable self ->
  Forall (insertable (_n self) (inf self)) es ->
  exists self',
    add_edges (lazily es) self = (Returned tt, self') /\
    (_needs_solve self' = true <->
     _needs_solve self = true \/
     exists i j, (i < _n self)%nat /\ (j < _n self)%nat /\
                 get (_dist self') i j < get (_dist self) i j) /\
    forall i j, (i < _n self)%nat -> (j < _n self)%nat ->
      get (_dist self') i j <= get (_dist self) i j /\
      (forall w, In (i, j, w) (graph es) -> get (_dist self') i j <= w) /\
      (get (_dist self') i j = get (_dist self) i j \/
       In (i, j, get (_dist self') i j) (graph es)).
Proof.
  intros Hr Hes.
  destruct (lazily_minimum es self (reachable_wf _ Hr) Hes)
    as (self' & Hrun & _ & _ & _ & Hflag & Hent).
  exists self'. split; [exact Hrun|]. split; [exact Hflag|exact Hent].
Qed.

Lemma lazy_insertion_keeps_minimum_witness :
  let self := mkFW 3 10 (init_dist 3 10) false in
  let es := [(0, 1, 5); (0, 1, 2); (0, 1, 7)] in
  exists self',
    add_edges (lazily es) self = (Returned tt, self') /\
    get (_dist self') 0 1 <= 2.
Proof.
  intros self es.
  destruct (lazy_insertion_keeps_minimum self es)
    as (self' & Hrun & _ & Hent).
  - apply (reach_construct 3 10). reflexivity.
  - repeat constructor; cbn; lia.
  - exists self'. split; [exact Hrun|].
    destruct (Hent 0%nat 1%nat) as (_ & Hall & _); [cbn; lia|cbn; lia|].
    apply Hall. right. now left.
Defined.

Lemma graph_permutation es es' i j w :
  Permutation es es' -> In (i, j, w) (graph es) -> In (i, j, w) (graph es').
Proof.
  intros Hp. unfold graph. apply Permutation_in. now apply Permutation_map.
Qed.

(** X9. The order of insertions without propagation does not matter:
    inserting a list of well-formed edges and inserting any permutation of
    it leave the same object. *)
Theorem lazy_insertion_order_is_irrelevant self es es' :
  reachable self ->
  Forall (insertable (_n self) (inf self)) es ->
  Permutation es es' ->
  exists self',
    add_edges (lazily es) self = (Returned tt, self') /\
    add_edges (lazily es') self = (Returned tt, self').
Proof.
  intros Hr Hes Hp. pose proof (reachable_wf _ Hr) as Hwf.
  assert (Hes' : Forall (insertable (_n self) (inf self)) es').
  { rewrite Forall_forall in *. intros e He. apply Hes.
    apply list_elem_of_In. apply list_elem_of_In in He.
    eapply Permutation_in; [symmetry; exact Hp|exact He]. }
  destruct (lazily_minimum es self Hwf Hes)
    as (s1 & Hrun1 & Hn1 & Hi1 & Hsh1 & Hflag1 & Hent1).
  destruct (lazily_minimum es' self Hwf Hes')
    as (s2 & Hrun2 & Hn2 & Hi2 & Hsh2 & Hflag2 & Hent2).
  assert (Hd : _dist s1 = _dist s2).
  { apply (shape_ext (_n self)); auto. intros i j Hi Hj.
    destruct (Hent1 i j Hi Hj) as (Hle1 & Hall1 & Hone1).
    destruct (Hent2 i j Hi Hj) as (Hle2 & Hall2 & Hone2).
    assert (get (_dist s1) i j <= get (_dist s2) i j).
    { destruct Hone2 as [->|Hin]; [exact Hle1|].
      apply Hall1. eapply graph_permutation; [symmetry; exact Hp|exact Hin]. }
    assert (get (_dist s2) i j <= get (_dist s1) i j).
    { destruct Hone1 as [->|Hin]; [exact Hle2|].
      apply Hall2. eapply graph_permutation; [exact Hp|exact Hin]. }
    lia. }
  exists s1. split; [exact Hrun1|]. rewrite Hrun2. f_equal.
  rewrite Hd in Hflag1.
  assert (Hf : _needs_solve s2 = _needs_solve s1).
  { destruct (_needs_solve s1), (_needs_solve s2); try reflexivity.
    - apply Hflag2, Hflag1. reflexivity.
    - symmetry. apply Hflag1, Hflag2. reflexivity. }
  destruct s1, s2. cbn in *. congruence.
Qed.

Lemma lazy_insertion_order_is_irrelevant_witness :
  let self := mkFW 3 10 (init_dist 3 10) false in
  exists self',
    add_edges (lazily [(0, 1, 5); (1, 2, 2)]) self = (Returned tt, self') /\
    add_edges (lazily [(1, 2, 2); (0, 1, 5)]) self = (Returned tt, self').
Proof.
  intros self.
  apply (lazy_insertion_order_is_irrelevant self).
  - apply (reach_construct 3 10). reflexivity.
  - repeat constructor; cbn; lia.
  - apply perm_swap.
Defined.

(** ** One propagated insertion against a full solve *)

(** X10. With integer weights and an integer sentinel: after any list of
    insertions that returned and left the matrix up-to-date, one more
    [add_edge(update_dists=True)] gives the matrix that
    [add_edge(update_dists=False)] followed by [solve] gives, provided the
    edges inserted so far together with the new one close no negative
    cycle and the sentinel is above every shortest distance. *)
Theorem propagated_insertion_matches_solve
    num_v sentinel calls self0 self1 u v w :
  construct num_v sentinel = Returned self0 ->
  add_edges calls self0 = (Returned tt, self1) ->
  _needs_solve self1 = false ->
  in_range self1 u -> in_range self1 v -> w < sentinel ->
  no_negative_cycle ((Z.to_nat u, Z.to_nat v, w) :: edges_of calls) ->
  sentinel_above ((Z.to_nat u, Z.to_nat v, w) :: edges_of calls) sentinel ->
  exists self2 self2' self3,
    add_edge u v w true self1 = (Returned tt, self2) /\
    _needs_solve self2 = false /\
    add_edge u v w false self1 = (Returned tt, self2') /\
    solve self2' = (Returned (_dist self2), self3).
Proof.
  intros Hc Hrun Hvalid Hu Hv Hw Hnc Habove.
  set (F := (Z.to_nat u, Z.to_nat v, w) :: edges_of calls) in *.
  set (G := rev (edges_of calls) ++ []).
  assert (Hf0 : inf self0 = sentinel).
  { unfold construct in Hc. destruct (sentinel >? 0); [|discriminate].
    now injection Hc as <-. }
  assert (HGF : incl G F).
  { intros e He. right. unfold G in He. rewrite app_nil_r in He.
    now apply in_rev. }
  destruct (add_edges_knows F Hnc calls [] self0 self1) as (Hk1 & Hn1 & Hi1);
    auto.
  { now rewrite Hf0. }
  { now apply (construct_knows F num_v sentinel). }
  fold G in Hk1. rewrite Hf0 in Hi1.
  assert (HeF : incl ((Z.to_nat u, Z.to_nat v, w) :: G) F).
  { intros e [<-|He]; [now left|now apply HGF]. }
  assert (HFe : incl F ((Z.to_nat u, Z.to_nat v, w) :: G)).
  { intros e [<-|He]; [now left|]. right. unfold G. rewrite app_nil_r.
    now apply in_rev in He. }
  assert (Hw1 : w < inf self1) by now rewrite Hi1.
  destruct (add_edge_returns self1 u v w true Hu Hv Hw1)
    as (self2 & Hadd2 & _ & _ & Hv2).
  { now rewrite Hvalid. }
  destruct (add_edge_returns self1 u v w false Hu Hv Hw1 eq_refl)
    as (self2' & Hadd2' & _ & _ & _).
  destruct (add_edge_knows F Hnc G self1 u v w true self2)
    as (Hk2 & Hn2 & Hi2); auto.
  { now rewrite Hi1. }
  destruct (add_edge_knows F Hnc G self1 u v w false self2')
    as (Hk2' & Hn2' & Hi2'); auto.
  { now rewrite Hi1. }
  destruct (solve_knows F Hnc ((Z.to_nat u, Z.to_nat v, w) :: G) self2')
    as (self3 & Hsolve & Hv3 & Hk3 & Hn3 & Hi3); auto.
  { now rewrite Hi2', Hi1. }
  exists self2, self2', self3.
  split; [exact Hadd2|]. split; [now apply Hv2|]. split; [exact Hadd2'|].
  rewrite Hsolve. f_equal. f_equal. symmetry.
  apply (knows_agree F ((Z.to_nat u, Z.to_nat v, w) :: G)
           ((Z.to_nat u, Z.to_nat v, w) :: G)); auto; try congruence.
  now rewrite Hi2, Hi1.
Qed.

Lemma propagated_insertion_matches_solve_witness :
  let self0 := mkFW 4 (10 ^ 9) (init_dist 4 (10 ^ 9)) false in
  let calls := [(0, 1, 3, true); (2, 3, 4, true)] in
  let self1 := snd (add_edges calls self0) in
  get (_dist self1) 1 2 = 10 ^ 9 /\
  get (_dist self1) 0 3 = 10 ^ 9 /\
  get (_dist (snd (add_edge 1 2 5 true self1))) 0 3 = 12 /\
  exists self2 self2' self3,
    add_edge 1 2 5 true self1 = (Returned tt, self2) /\
    _needs_solve self2 = false /\
    add_edge 1 2 5 false self1 = (Returned tt, self2') /\
    solve self2' = (Returned (_dist self2), self3).
Proof.
  intros self0 calls self1.
  assert (Hf : forward ((1%nat, 2%nat, 5) :: edges_of calls))
    by (intros a b w [[= <- <- <-]|[[= <- <- <-]|[[= <- <- <-]|[]]]];
        cbn; lia).
  assert (Hwithin : within 4 ((1%nat, 2%nat, 5) :: edges_of calls))
    by (intros a b w [[= <- <- <-]|[[= <- <- <-]|[[= <- <- <-]|[]]]];
        cbn; lia).
  assert (Hmax : forall a b w,
             In (a, b, w) ((1%nat, 2%nat, 5) :: edges_of calls) -> w <= 5)
    by (intros a b w [[= <- <- <-]|[[= <- <- <-]|[[= <- <- <-]|[]]]];
        cbn; lia).
  assert (Hn : _n self1 = 4%nat) by reflexivity.
  split; [reflexivity|]. split; [reflexivity|]. split; [reflexivity|].
  apply (propagated_insertion_matches_solve 4 (10 ^ 9) calls self0 self1).
  - reflexivity.
  - reflexivity.
  - reflexivity.
  - unfold in_range. rewrite Hn. lia.
  - unfold in_range. rewrite Hn. lia.
  - lia.
  - now apply forward_no_negative_cycle.
  - apply (forward_sentinel_above _ 4 5); auto; lia.
Defined.

(** * The example's copy of [solve] *)

Lemma fold_left_agree {A B} (f g : A -> B -> A) (C : B -> Prop)
    (P : A -> Prop) l a :
  (forall y, In y l -> C y) ->
  (forall s y, C y -> P s -> f s y = g s y) ->
  (forall s y, C y -> P s -> P (g s y)) ->
  P a ->
  fold_left f l a = fold_left g l a /\ P (fold_left g l a).
Proof.
  intros HC Hfg Hg. revert a.
  induction l as [|y l IH]; intros a Ha; cbn [fold_left].
  - now split.
  - assert (Hy : C y) by (apply HC; now left).
    rewrite (Hfg a y Hy Ha). apply IH.
    + intros z Hz. apply HC. now right.
    + now apply Hg.
Qed.

(** With a pivot entry [dist[k][k] >= 0], an assignment of round [k]
    touches neither [dist[i][k]] nor [dist[k][k]]. *)
Lemma solve_inner_keeps_pivot n sentinel i k d j :
  shape n d -> (i < n)%nat -> (j < n)%nat -> (k < n)%nat ->
  0 <= get d k k ->
  let d' := solve_inner sentinel (get d i k) i k d j in
  shape n d' /\ get d' k k = get d k k /\ get d' i k = get d i k.
Proof.
  intros Hs Hi Hj Hk Hpos. unfold solve_inner.
  destruct (get d k j =? sentinel); [auto|]. cbv zeta.
  destruct (Z.ltb_spec (get d i k + get d k j) (get d i j)) as [Hlt|];
    [|auto].
  split; [now apply shape_set|].
  rewrite !(get_set n) by assumption.
  split.
  - destruct (decide (k = i /\ k = j)) as [[<- <-]|_]; lia.
  - destruct (decide (i = i /\ k = j)) as [[_ <-]|_]; lia.
Qed.

Lemma example_middle_agrees n sentinel k d i :
  shape n d -> (i < n)%nat -> (k < n)%nat -> 0 <= get d k k ->
  example_solve_middle n sentinel k d i = solve_middle n sentinel k d i /\
  shape n (solve_middle n sentinel k d i) /\
  0 <= get (solve_middle n sentinel k d i) k k.
Proof.
  intros Hs Hi Hk Hpos. unfold example_solve_middle, solve_middle.
  destruct (get d i k =? sentinel); [auto|]. cbv zeta.
  destruct (fold_left_agree (example_solve_inner sentinel i k)
              (solve_inner sentinel (get d i k) i k)
              (fun j => (j < n)%nat)
              (fun d' => shape n d' /\ get d' k k = get d k k /\
                         get d' i k = get d i k)
              (seq 0 n) d) as (Heq & Hs' & Hkk & _); auto using seq_bound.
  - intros d' j Hj (_ & _ & Hik).
    unfold example_solve_inner, solve_inner. now rewrite Hik.
  - intros d' j Hj (Hs' & Hkk & Hik). rewrite <- Hik.
    destruct (solve_inner_keeps_pivot n sentinel i k d' j)
      as (Hs'' & Hkk' & Hik'); auto; [lia|].
    split; [exact Hs''|]. split; congruence.
  - split; [exact Heq|]. split; [exact Hs'|lia].
Qed.

Lemma example_outer_agrees n sentinel d k :
  shape n d -> (k < n)%nat -> 0 <= get d k k ->
  example_solve_outer n sentinel d k = solve_outer n sentinel d k.
Proof.
  intros Hs Hk Hpos. unfold example_solve_outer, solve_outer.
  apply (fold_left_agree _ _ (fun i => (i < n)%nat)
           (fun d' => shape n d' /\ 0 <= get d' k k));
    auto using seq_bound.
  - intros d' i Hi [Hs' Hpos']. now apply example_middle_agrees.
  - intros d' i Hi [Hs' Hpos']. now apply example_middle_agrees.
Qed.

Lemma heard_diagonal G n sentinel d i :
  0 < sentinel -> sound G sentinel n d -> direct G n d ->
  no_negative_cycle G -> (i < n)%nat -> get d i i = 0.
Proof.
  intros Hpos [_ Hs] [Hd _] Hnc Hi. specialize (Hd i Hi).
  destruct (Hs i i Hi Hi) as [_ Hp].
  assert (Hp' : path G i i (get d i i)) by (apply Hp; lia).
  apply Hnc in Hp'. lia.
Qed.

Lemma example_floyd_warshall_agrees G n sentinel d :
  0 < sentinel -> sound G sentinel n d -> direct G n d ->
  no_negative_cycle G ->
  example_floyd_warshall n sentinel d = floyd_warshall n sentinel d.
Proof.
  intros Hpos Hs Hd Hnc. unfold example_floyd_warshall, floyd_warshall.
  apply (fold_left_agree _ _ (fun k => (k < n)%nat)
           (fun d' => sound G sentinel n d' /\ direct G n d'));
    auto using seq_bound.
  - intros d' k Hk [Hs' Hd']. apply example_outer_agrees; auto.
    + apply Hs'.
    + now rewrite (heard_diagonal G n sentinel d' k).
  - intros d' k Hk [Hs' Hd']. rewrite solve_outer_propagate. split.
    + apply propagate_sound; auto. apply path_nil.
    + eapply direct_below; [exact Hd'|]. apply propagate_below, Hs'.
Qed.

(** X11. With integer weights and an integer sentinel: on a stale matrix
    built by any list of calls on a fresh object whose inserted edges close
    no negative cycle, the [solve] of [example/example.py] returns the same
    matrix and leaves the same object as the [solve] of
    [floyd_warshall.py]: reading [dist[i][k]] once per row or once per
    entry makes no difference. *)
Theorem example_solve_matches_on_stale num_v sentinel self0 cs :
  construct num_v sentinel = Returned self0 ->
  no_negative_cycle (inserted cs self0) ->
  _needs_solve (run cs self0) = true ->
  example_solve (run cs self0) = solve (run cs self0).
Proof.
  intros Hc Hnc Hstale.
  destruct (fresh_run_heard _ _ _ cs Hc)
    as (([Hpos _] & _ & Hs & Hd) & _ & _).
  rewrite solve_stale by assumption.
  unfold example_solve, bind, this, assert, ret, store_dist,
    store_needs_solve.
  replace (inf (run cs self0) >? 0) with true by (symmetry; lia).
  cbn [_n inf _dist _needs_solve].
  now rewrite (example_floyd_warshall_agrees (inserted cs self0)).
Qed.

Lemma example_solve_matches_on_stale_witness :
  let self0 := mkFW 3 10 (init_dist 3 10) false in
  let cs := [InsertEdge 0 1 4 false; InsertEdge 1 2 (-3) false] in
  example_solve (run cs self0) = solve (run cs self0).
Proof.
  intros self0 cs.
  apply (example_solve_matches_on_stale 3 10 self0 cs).
  - reflexivity.
  - apply forward_no_negative_cycle.
    intros a b w Hin. vm_compute in Hin.
    destruct Hin as [[= <- <- <-]|[[= <- <- <-]|[]]]; lia.
  - reflexivity.
Defined.

Lemma solve_again_changes_nothing F G self :
  no_negative_cycle F -> sentinel_above F (inf self) ->
  incl G F -> incl F G ->
  knows F G self -> _needs_solve self = false ->
  floyd_warshall (_n self) (inf self) (_dist self) = _dist self.
Proof.
  intros Hnc Habove HGF HFG Hk Hvalid.
  pose proof Hk as (Hwf & Hwithin & Hs & Hd & Hc).
  symmetry.
  apply (knows_agree F G G self
           (mkFW (_n self) (inf self)
              (floyd_warshall (_n self) (inf self) (_dist self)) false));
    auto.
  split; [|split; [exact Hwithin|split; [|split]]];
    cbn [_n inf _dist _needs_solve].
  - split; [apply Hwf|]. apply floyd_warshall_shape, Hwf.
  - now apply floyd_warshall_sound.
  - eapply direct_below; [exact Hd|]. apply floyd_warshall_below, Hwf.
  - intros _. eapply complete_all_below; [now apply Hc|].
    apply floyd_warshall_below, Hwf.
Qed.

(** X12. With integer weights and an integer sentinel: on an up-to-date
    matrix built by insertions into a fresh object, with no negative cycle
    and the sentinel above every shortest distance, the [solve] of
    [example/example.py], which has no early return and runs all its rounds
    again, still returns the matrix unchanged and leaves the object as it
    was, as the [solve] of [floyd_warshall.py] does. *)
Theorem example_solve_matches_on_up_to_date
    num_v sentinel calls self0 self1 :
  construct num_v sentinel = Returned self0 ->
  add_edges calls self0 = (Returned tt, self1) ->
  _needs_solve self1 = false ->
  no_negative_cycle (edges_of calls) ->
  sentinel_above (edges_of calls) sentinel ->
  example_solve self1 = (Returned (_dist self1), self1) /\
  solve self1 = (Returned (_dist self1), self1).
Proof.
  intros Hc Hrun Hvalid Hnc Habove.
  destruct (fresh_run_knows _ _ _ _ _ Hc Hrun Hnc Habove) as (Hk & Hn & Hi).
  destruct (rev_nil_incl (edges_of calls)) as [HGF HFG].
  pose proof Hk as ([Hpos _] & _ & Hs & Hd & _).
  split; [|now apply solve_valid].
  unfold example_solve, bind, this, assert, ret, store_dist,
    store_needs_solve.
  replace (inf self1 >? 0) with true by (symmetry; lia).
  cbn [_n inf _dist _needs_solve].
  rewrite (example_floyd_warshall_agrees (rev (edges_of calls) ++ [])); auto.
  - rewrite (solve_again_changes_nothing (edges_of calls)
               (rev (edges_of calls) ++ [])); auto.
    + destruct self1. cbn in *. now subst.
    + now rewrite Hi.
  - now apply (no_negative_cycle_incl _ (edges_of calls)).
Qed.

Lemma example_solve_matches_on_up_to_date_witness :
  let self0 := mkFW 3 (10 ^ 9) (init_dist 3 (10 ^ 9)) false in
  let calls := [(0, 1, 3, true); (1, 2, 4, true)] in
  let self1 := snd (add_edges calls self0) in
  example_solve self1 = (Returned (_dist self1), self1) /\
  solve self1 = (Returned (_dist self1), self1).
Proof.
  intros self0 calls self1.
  assert (Hf : forward (edges_of calls))
    by (intros a b w [[= <- <- <-]|[[= <- <- <-]|[]]]; cbn; lia).
  assert (Hwithin : within 3 (edges_of calls))
    by (intros a b w [[= <- <- <-]|[[= <- <- <-]|[]]]; cbn; lia).
  assert (Hmax : forall a b w, In (a, b, w) (edges_of calls) -> w <= 4)
    by (intros a b w [[= <- <- <-]|[[= <- <- <-]|[]]]; cbn; lia).
  apply (example_solve_matches_on_up_to_date 3 (10 ^ 9) calls self0 self1).
  - reflexivity.
  - reflexivity.
  - reflexivity.
  - now apply forward_no_negative_cycle.
  - apply (forward_sentinel_above _ 3 4); auto; lia.
Defined.

(** * The driver of the example *)

Lemma py_index_in_range len i :
  0 <= i < Z.of_nat len -> py_index len i = Some (Z.to_nat i).
Proof.
  intros Hi. unfold py_index.
  replace ((0 <=? i) && (i <? Z.of_nat len)) with true; [reflexivity|].
  symmetry. apply andb_true_iff. split; lia.
Qed.

Lemma py_lookup_in_range {A} (l : list A) i :
  0 <= i < Z.of_nat (length l) ->
  exists a, py_lookup l i = Some a /\ l !! Z.to_nat i = Some a.
Proof.
  intros Hi. unfold py_lookup. rewrite py_index_in_range by exact Hi.
  destruct (lookup_lt_is_Some_2 l (Z.to_nat i)) as [a Ha]; [lia|].
  exists a. now split.
Qed.

Lemma read_queries_ok N M lines :
  forall queries passable,
    length passable = M ->
    Forall (fun l =>
              match l with
              | Close i => 1 <= i <= Z.of_nat M
              | Ask x y => 1 <= x <= N /\ 1 <= y <= N
              end) lines ->
    Forall (query_ok N M) queries ->
    exists queries' passable',
      read_queries lines queries passable = inr (queries', passable') /\
      length passable' = M /\
      Forall (query_ok N M) queries' /\
      length (List.filter is_distance queries') =
        (length (List.filter is_distance queries) +
         length (List.filter is_ask lines))%nat.
Proof.
  induction lines as [|l lines IH]; intros queries passable Hlen Hl Hq.
  - exists queries, passable. cbn. repeat split; auto.
  - inversion Hl as [|l' lines' Hl1 Hl2]. subst.
    destruct l as [i|x y]; cbn [read_queries].
    + rewrite py_index_in_range by lia.
      destruct (IH (queries ++ [Reopen (i - 1)])
                   (<[Z.to_nat (i - 1) := false]> passable))
        as (queries' & passable' & Hrun & Hlen' & Hq' & Hcount); auto.
      { now rewrite length_insert. }
      { apply Forall_app. split; [exact Hq|]. constructor; [|constructor].
        cbn. lia. }
      exists queries', passable'. split; [exact Hrun|].
      split; [exact Hlen'|]. split; [exact Hq'|].
      rewrite Hcount, List.filter_app, length_app. cbn. lia.
    + destruct (IH (queries ++ [Distance (x - 1) (y - 1)]) passable)
        as (queries' & passable' & Hrun & Hlen' & Hq' & Hcount); auto.
      { apply Forall_app. split; [exact Hq|]. constructor; [|constructor].
        cbn. lia. }
      exists queries', passable'. split; [exact Hrun|].
      split; [exact Hlen'|]. split; [exact Hq'|].
      rewrite Hcount, List.filter_app, length_app. cbn. lia.
Qed.

Lemma add_edge_serving N fw A B C p :
  serving N fw ->
  0 <= A < N -> 0 <= B < N -> C < N * 10 ^ 9 ->
  p && _needs_solve fw = false ->
  exists fw',
    engine (add_edge A B C p) fw = inr (tt, fw') /\
    serving N fw' /\ (p = true -> _needs_solve fw' = false).
Proof.
  intros (Hwf & Hb & Hn & Hi) HA HB HC Hp.
  destruct (add_edge_returns fw A B C p) as (fw' & Hadd & Hn' & Hi' & Hv);
    try (unfold in_range; lia); auto.
  exists fw'. unfold engine. rewrite Hadd. split; [reflexivity|].
  split; [|exact Hv].
  pose proof (add_edge_after fw A B C p) as Ha. rewrite Hadd in Ha.
  split; [now apply (after_wf fw)|].
  split; [now apply (after_bounded fw)|]. split; congruence.
Qed.

Lemma insert_passable_ok N edges :
  forall fw,
    serving N fw ->
    Forall (fun e => let '((A, B, C), _) := e in
              0 <= A < N /\ 0 <= B < N /\ C < N * 10 ^ 9) edges ->
    exists fw', insert_passable edges fw = inr fw' /\ serving N fw'.
Proof.
  induction edges as [|[[[A B] C] passable] edges IH]; intros fw Hs He.
  - now exists fw.
  - inversion He as [|e edges' He1 He']. subst.
    cbn in He1. destruct He1 as (HA & HB & HC).
    cbn [insert_passable]. destruct passable; cbn [negb]; [|now apply IH].
    destruct (add_edge_serving N fw A B C false Hs HA HB HC eq_refl)
      as (fw1 & -> & Hs1 & _).
    destruct (add_edge_serving N fw1 B A C false Hs1 HB HA HC eq_refl)
      as (fw2 & -> & Hs2 & _).
    now apply IH.
Qed.

Lemma example_inner_below n sentinel i k d0 d j :
  (i < n)%nat -> (j < n)%nat ->
  shape n d /\ below d0 d ->
  shape n (example_solve_inner sentinel i k d j) /\
  below d0 (example_solve_inner sentinel i k d j).
Proof.
  intros Hi Hj [Hs Hb]. unfold example_solve_inner.
  destruct (get d k j =? sentinel); [auto|]. cbv zeta.
  destruct (Z.ltb_spec (get d i k + get d k j) (get d i j)); [|auto].
  split; [now apply shape_set|].
  eapply below_trans; [exact Hb|]. apply (below_set n); auto. lia.
Qed.

Lemma example_floyd_warshall_below n sentinel d :
  shape n d ->
  shape n (example_floyd_warshall n sentinel d) /\
  below d (example_floyd_warshall n sentinel d).
Proof.
  intros Hs. unfold example_floyd_warshall.
  apply (fold_left_inv _ (fun k => (k < n)%nat)
           (fun d' => shape n d' /\ below d d')); auto using seq_bound.
  - intros d1 k Hk H1. unfold example_solve_outer.
    apply (fold_left_inv _ (fun i => (i < n)%nat)
             (fun d' => shape n d' /\ below d d')); auto using seq_bound.
    intros d2 i Hi H2. unfold example_solve_middle.
    destruct (get d2 i k =? sentinel); [exact H2|].
    apply (fold_left_inv _ (fun j => (j < n)%nat)
             (fun d' => shape n d' /\ below d d')); auto using seq_bound.
    intros d3 j Hj H3. now apply example_inner_below.
  - split; [exact Hs|apply below_refl].
Qed.

Lemma example_solve_serving N fw :
  serving N fw ->
  exists m fw',
    engine example_solve fw = inr (m, fw') /\
    serving N fw' /\ _needs_solve fw' = false.
Proof.
  intros ([Hpos Hshape] & Hb & Hn & Hi).
  unfold engine, example_solve, bind, this, assert, ret, store_dist,
    store_needs_solve.
  replace (inf fw >? 0) with true by (symmetry; lia).
  cbn [_n inf _dist _needs_solve]. do 2 eexists. split; [reflexivity|].
  destruct (example_floyd_warshall_below (_n fw) (inf fw) (_dist fw) Hshape)
    as [Hs' Hb'].
  split; [|reflexivity]. split; [now split|]. split; [|now split].
  intros i j Hi' Hj'. cbn [_n inf _dist] in *.
  specialize (Hb i j Hi' Hj'). specialize (Hb' i j). lia.
Qed.

Lemma serving_entry N fw x y :
  serving N fw -> 0 <= x < N -> 0 <= y < N ->
  exists row d,
    py_lookup (_dist fw) x = Some row /\ py_lookup row y = Some d /\
    d <= N * 10 ^ 9.
Proof.
  intros ([_ [Hlen Hrows]] & Hb & Hn & Hi) Hx Hy.
  destruct (py_lookup_in_range (_dist fw) x) as (row & Hrow & Hrow');
    [lia|].
  assert (Hlr : length row = _n fw).
  { rewrite Forall_forall in Hrows. apply Hrows.
    apply list_elem_of_lookup. eauto. }
  destruct (py_lookup_in_range row y) as (d & Hd & Hd'); [lia|].
  exists row, d. split; [exact Hrow|]. split; [exact Hd|].
  rewrite <- Hi.
  replace d with (get (_dist fw) (Z.to_nat x) (Z.to_nat y)); [apply Hb; lia|].
  unfold get. apply list_lookup_total_correct in Hrow'. rewrite Hrow'.
  now apply list_lookup_total_correct.
Qed.

Lemma answer_queries_ok N edges :
  1 <= N ->
  Forall (fun '(A, B, C) => 0 <= A < N /\ 0 <= B < N /\ C < N * 10 ^ 9)
         edges ->
  forall queries fw answers,
    serving N fw -> _needs_solve fw = false ->
    Forall (query_ok N (length edges)) queries ->
    Forall (fun d => d < N * 10 ^ 9) answers ->
    exists out,
      answer_queries edges queries fw answers = inr out /\
      length out =
        (length answers + length (List.filter is_distance queries))%nat /\
      Forall (fun d => d < N * 10 ^ 9) out.
Proof.
  intros HN He. induction queries as [|q queries IH];
    intros fw answers Hs Hvalid Hq Hans.
  - exists answers. cbn. repeat split; auto.
  - inversion Hq as [|q' queries' Hq1 Hq2]. subst.
    destruct q as [i|x y]; cbn [answer_queries List.filter is_distance].
    + cbn in Hq1.
      destruct (py_lookup_in_range edges i Hq1) as ([[A B] C] & -> & Hin).
      assert (Hok : 0 <= A < N /\ 0 <= B < N /\ C < N * 10 ^ 9).
      { rewrite Forall_forall in He.
        apply (He (A, B, C)), list_elem_of_lookup. eauto. }
      destruct Hok as (HA & HB & HC).
      destruct (add_edge_serving N fw A B C true Hs HA HB HC)
        as (fw1 & -> & Hs1 & Hv1); [now rewrite Hvalid|].
      destruct (add_edge_serving N fw1 B A C true Hs1 HB HA HC)
        as (fw2 & -> & Hs2 & Hv2); [now rewrite Hv1|].
      now apply IH; auto.
    + cbn in Hq1. destruct Hq1 as [Hx Hy].
      unfold engine at 1. rewrite dist_valid by assumption.
      destruct (serving_entry N fw x y Hs Hx Hy)
        as (row & d & -> & -> & Hd).
      cbv zeta.
      destruct (IH fw (answers ++ [if d =? inf fw then -1 else d]))
        as (out & Hrun & Hlen & Hout); auto.
      { apply Forall_app. split; [exact Hans|]. constructor; [|constructor].
        destruct Hs as (_ & _ & _ & Hi). rewrite Hi.
        destruct (Z.eqb_spec d (N * 10 ^ 9)); lia. }
      exists out. split; [exact Hrun|]. split; [|exact Hout].
      rewrite Hlen, length_app. cbn. lia.
Qed.

Lemma Forall_combine_l {A B} (P : A -> Prop) (l : list A) (l' : list B) :
  Forall P l -> Forall (fun e => P (fst e)) (combine l l').
Proof.
  intros Hl. revert l'. induction Hl as [|a l Ha _ IH]; intros [|b l'];
    cbn; constructor; auto.
Qed.

(** X13. On well-formed input (at least one vertex, edge ends and query
    vertices between 1 and N, weights below N * 10^9, closed edge numbers
    between 1 and M) the driver raises nothing, neither an index error nor
    the engine's assertion or stale-matrix error, and prints one number per
    distance query, each of them below the sentinel N * 10^9. *)
Theorem main_answers_every_query N edge_lines query_lines :
  well_formed_input N edge_lines query_lines ->
  exists out,
    main N edge_lines query_lines = inr out /\
    length out = length (List.filter is_ask query_lines) /\
    Forall (fun d => d < N * 10 ^ 9) out.
Proof.
  intros (HN & He & Hq). unfold main.
  destruct (read_queries_ok N (length edge_lines) query_lines []
              (repeat true (length edge_lines)))
    as (Queries & is_passable & -> & Hlen & HQ & Hcount); auto.
  { apply repeat_length. }
  assert (Hedges : Forall (fun '(A, B, C) =>
                     0 <= A < N /\ 0 <= B < N /\ C < N * 10 ^ 9)
                     (read_edges edge_lines)).
  { apply Forall_forall. intros e Hin.
    apply list_elem_of_In, in_map_iff in Hin as ([[A B] C] & <- & Hin).
    rewrite Forall_forall in He.
    apply list_elem_of_In, He in Hin. cbn in Hin. lia. }
  assert (Hlen_e : length (read_edges edge_lines) = length edge_lines).
  { unfold read_edges. apply length_map. }
  destruct (proj2 (construct_spec (Z.to_nat N) (N * 10 ^ 9)) ltac:(lia))
    as (fw0 & -> & Hn0 & Hi0 & Hv0 & Hs0 & Hget0 & _).
  assert (Hserv0 : serving N fw0).
  { split; [split; [lia|now rewrite Hn0]|]. split; [|split; [lia|exact Hi0]].
    intros i j Hi Hj. rewrite Hn0 in Hi, Hj. rewrite Hget0 by assumption.
    destruct (decide (i = j)); lia. }
  destruct (insert_passable_ok N (combine (read_edges edge_lines) is_passable)
              fw0 Hserv0) as (fw1 & -> & Hserv1).
  { eapply Forall_impl; [apply Forall_combine_l, Hedges|].
    intros [[[A B] C] b]. cbn. auto. }
  destruct (example_solve_serving N fw1 Hserv1)
    as (m & fw2 & -> & Hserv2 & Hv2).
  destruct (answer_queries_ok N (read_edges edge_lines) HN Hedges
              (rev Queries) fw2 [] Hserv2 Hv2)
    as (answers & -> & Hlen_a & Hans).
  { rewrite Hlen_e. now apply Forall_rev. }
  { constructor. }
  exists (rev answers). split; [reflexivity|].
  split; [|now apply Forall_rev].
  rewrite length_rev, Hlen_a, List.filter_rev, length_rev, Hcount.
  reflexivity.
Qed.

Lemma main_answers_every_query_witness :
  exists out,
    main 3 [(1, 2, 5); (2, 3, 7)] [Ask 1 3; Close 1; Ask 1 3] = inr out /\
    length out = 2%nat /\ Forall (fun d => d < 3 * 10 ^ 9) out.
Proof.
  apply (main_answers_every_query 3 [(1, 2, 5); (2, 3, 7)]
           [Ask 1 3; Close 1; Ask 1 3]).
  split; [lia|]. split; repeat constructor; cbn; lia.
Defined.

(** * Graphs without negative weights *)

Lemma nonnegative_path es i j l : nonnegative es -> path es i j l -> 0 <= l.
Proof.
  intros Hn. induction 1 as [i|i m j w l Hin _ IH]; [lia|].
  apply Hn in Hin. lia.
Qed.

Lemma nonnegative_no_negative_cycle es :
  nonnegative es -> no_negative_cycle es.
Proof. intros Hn v l Hp. now apply (nonnegative_path es v v). Qed.

Lemma path_entering n es i j l :
  within n es -> path es i j l -> entering es (seq 0 n) i j l.
Proof.
  intros Hw. induction 1 as [i|i m j w l Hin _ IH].
  - apply entering_nil.
  - apply (entering_cons es _ i m j w l Hin); [|exact IH].
    apply in_seq. destruct (Hw i m w Hin). lia.
Qed.

Lemma trail_path es S i j l : trail es S i j l -> path es i j l.
Proof.
  induction 1 as [S i|S i m j w l Hin _ _ IH].
  - apply path_nil.
  - eapply path_cons; [exact Hin|exact IH].
Qed.

Lemma entering_nonnegative es S i j l :
  nonnegative es -> entering es S i j l -> 0 <= l.
Proof.
  intros Hn. induction 1 as [i|i m j w l Hin _ _ IH]; [lia|].
  apply Hn in Hin. lia.
Qed.

(** After its last visit of [m] a path no longer enters [m]. *)
Lemma entering_last_visit es S a j l m :
  nonnegative es ->
  entering es S a j l ->
  entering es (remove Nat.eq_dec m S) a j l \/
  exists l', l' <= l /\ entering es (remove Nat.eq_dec m S) m j l'.
Proof.
  intros Hn. induction 1 as [a|a b j w l Hin Hb Hrest IH].
  - left. apply entering_nil.
  - pose proof (Hn _ _ _ Hin) as Hw.
    destruct IH as [IH|(l' & Hle & IH)].
    + destruct (Nat.eq_dec b m) as [->|Hbm].
      * right. exists l. split; [lia|exact IH].
      * left. apply (entering_cons es _ a b j w l Hin); [|exact IH].
        now apply in_in_remove.
    + right. exists l'. split; [lia|exact IH].
Qed.

Lemma entering_from es S m j l :
  nonnegative es ->
  entering es S m j l ->
  exists l', l' <= l /\ entering es (remove Nat.eq_dec m S) m j l'.
Proof.
  intros Hn He.
  destruct (entering_last_visit es S m j l m Hn He) as [H|H]; [|exact H].
  exists l. split; [lia|exact H].
Qed.

Lemma entering_trail es k :
  nonnegative es ->
  forall S, (length S <= k)%nat ->
  forall i j l, entering es S i j l ->
  exists l', l' <= l /\ trail es S i j l'.
Proof.
  intros Hn. induction k as [|k IH]; intros S Hlen i j l He.
  - destruct He as [i|i m j w l Hin Hm _].
    + exists 0. split; [lia|apply trail_nil].
    + destruct S; [destruct Hm|cbn in Hlen; lia].
  - destruct He as [i|i m j w l Hin Hm Hrest].
    + exists 0. split; [lia|apply trail_nil].
    + destruct (entering_from es S m j l Hn Hrest) as (l1 & Hle1 & H1).
      destruct (IH (remove Nat.eq_dec m S)) with (i := m) (j := j) (l := l1)
        as (l2 & Hle2 & H2); auto.
      { pose proof (remove_length_lt Nat.eq_dec S m Hm). lia. }
      exists (w + l2). split; [lia|].
      now apply (trail_cons es S i m j w l2).
Qed.

Lemma trail_bound es W S i j l :
  0 <= W -> (forall a b w, In (a, b, w) es -> w <= W) ->
  trail es S i j l -> l <= Z.of_nat (length S) * W.
Proof.
  intros HW Hmax. induction 1 as [S i|S i m j w l Hin Hm _ IH].
  - nia.
  - pose proof (Hmax _ _ _ Hin).
    pose proof (remove_length_lt Nat.eq_dec S m Hm). nia.
Qed.

(** With weights between 0 and [W], a connected pair is joined by a path
    of at most [n - 1] edges, so of weight below [n * W]. *)
Lemma short_path_exists n es W i j l :
  (0 < n)%nat -> 0 < W -> within n es -> nonnegative es ->
  (forall a b w, In (a, b, w) es -> w <= W) ->
  path es i j l ->
  exists l', path es i j l' /\ l' < Z.of_nat n * W.
Proof.
  intros Hn HW Hwithin Hnn Hmax Hp.
  destruct (Nat.lt_ge_cases i n) as [Hi|Hi].
  - apply (path_entering n) in Hp; [|exact Hwithin].
    destruct (entering_from es _ i j l Hnn Hp) as (l1 & _ & H1).
    destruct (entering_trail es n Hnn (remove Nat.eq_dec i (seq 0 n)))
      with (i := i) (j := j) (l := l1) as (l2 & _ & H2); auto.
    { pose proof (remove_length_le Nat.eq_dec (seq 0 n) i).
      rewrite length_seq in *. lia. }
    exists l2. split; [exact (trail_path es _ i j l2 H2)|].
    pose proof (trail_bound es W (remove Nat.eq_dec i (seq 0 n)) i j l2
                  ltac:(lia) Hmax H2) as Hb.
    assert (Hlt : (length (remove Nat.eq_dec i (seq 0 n)) < n)%nat).
    { rewrite <- (length_seq n 0) at 2. apply remove_length_lt.
      apply in_seq. lia. }
    nia.
  - destruct Hp as [i|i m j w l Hin _].
    + exists 0. split; [apply path_nil|nia].
    + destruct (Hwithin i m w Hin). lia.
Qed.

Lemma nonnegative_sentinel_above n es W :
  (0 < n)%nat -> 0 < W -> within n es -> nonnegative es ->
  (forall a b w, In (a, b, w) es -> w <= W) ->
  sentinel_above es (Z.of_nat n * W).
Proof.
  intros Hn HW Hwithin Hnn Hmax i j l [Hp Hopt].
  destruct (short_path_exists n es W i j l Hn HW Hwithin Hnn Hmax Hp)
    as (l' & Hp' & Hlt).
  apply Hopt in Hp'. lia.
Qed.

(** * The driver's answers *)

Lemma combine_lookup {A B} (l : list A) (l' : list B) a b :
  In (a, b) (combine l l') <->
  exists k, l !! k = Some a /\ l' !! k = Some b.
Proof.
  revert l'. induction l as [|x l IH]; intros [|y l']; cbn [combine].
  - split; [intros []|intros (k & Hk & _); destruct k; discriminate].
  - split; [intros []|intros (k & Hk & _); destruct k; discriminate].
  - split; [intros []|intros (k & _ & Hk); destruct k; discriminate].
  - split.
    + intros [[= -> ->]|Hin]; [now exists 0%nat|].
      apply IH in Hin as (k & Hk1 & Hk2). now exists (S k).
    + intros ([|k] & Hk1 & Hk2); cbn in Hk1, Hk2.
      * left. congruence.
      * right. apply IH. now exists k.
Qed.

Lemma network_In edges flags e :
  In e (network edges flags) <->
  exists k A B C,
    edges !! k = Some (A, B, C) /\ flags !! k = Some true /\
    (e = (Z.to_nat A, Z.to_nat B, C) \/ e = (Z.to_nat B, Z.to_nat A, C)).
Proof.
  unfold network. rewrite in_flat_map. split.
  - intros ([[[A B] C] f] & Hin & He). apply combine_lookup in Hin.
    destruct Hin as (k & Hk1 & Hk2). destruct f; cbn in He; [|destruct He].
    exists k, A, B, C. split; [exact Hk1|]. split; [exact Hk2|].
    destruct He as [<-|[<-|[]]]; auto.
  - intros (k & A & B & C & Hk1 & Hk2 & He).
    exists ((A, B, C), true). split.
    + apply combine_lookup. now exists k.
    + cbn. destruct He as [->| ->]; auto.
Qed.

(** Reopening road [k] adds its two directions to the network. *)
Lemma network_reopen edges flags k A B C e :
  edges !! k = Some (A, B, C) -> flags !! k = Some true ->
  In e (network edges flags) <->
  e = (Z.to_nat A, Z.to_nat B, C) \/ e = (Z.to_nat B, Z.to_nat A, C) \/
  In e (network edges (<[k := false]> flags)).
Proof.
  intros Hk Hf. rewrite !network_In. split.
  - intros (k' & A' & B' & C' & Hk1 & Hk2 & He).
    destruct (Nat.eq_dec k' k) as [->|Hne].
    + rewrite Hk in Hk1. injection Hk1 as <- <- <-.
      destruct He; auto.
    + right. right. exists k', A', B', C'. split; [exact Hk1|].
      split; [|exact He]. now rewrite list_lookup_insert_ne.
  - intros [->|[->|(k' & A' & B' & C' & Hk1 & Hk2 & He)]].
    + exists k, A, B, C. auto.
    + exists k, A, B, C. auto.
    + exists k', A', B', C'. split; [exact Hk1|]. split; [|exact He].
      rewrite list_lookup_insert in Hk2.
      destruct (decide (k = k' /\ (k < length flags)%nat)); [discriminate|].
      exact Hk2.
Qed.

Lemma network_good N n edges flags :
  Z.of_nat n = N -> Forall (road_ok N) edges ->
  within n (network edges flags) /\
  nonnegative (network edges flags) /\
  forall a b w, In (a, b, w) (network edges flags) -> w <= 10 ^ 9.
Proof.
  intros Hn He.
  assert (Hin : forall a b w, In (a, b, w) (network edges flags) ->
            (a < n)%nat /\ (b < n)%nat /\ 0 <= w <= 10 ^ 9).
  { intros a b w Hin. apply network_In in Hin.
    destruct Hin as (k & A & B & C & Hk & _ & Hab).
    rewrite Forall_forall in He.
    assert (Hok : road_ok N (A, B, C))
      by (apply He, list_elem_of_lookup; eauto).
    cbn in Hok. destruct Hab as [[= -> -> ->]|[= -> -> ->]]; lia. }
  split; [|split]; intros a b w H; apply Hin in H; tauto || lia.
Qed.

Lemma network_hypotheses N n edges flags :
  Z.of_nat n = N -> 1 <= N -> Forall (road_ok N) edges ->
  no_negative_cycle (network edges flags) /\
  sentinel_above (network edges flags) (N * 10 ^ 9).
Proof.
  intros Hn HN He.
  destruct (network_good N n edges flags Hn He) as (Hw & Hnn & Hmax).
  split; [now apply nonnegative_no_negative_cycle|].
  rewrite <- Hn. apply nonnegative_sentinel_above; auto; lia.
Qed.

Lemma close_all_length lines :
  forall flags, length (close_all lines flags) = length flags.
Proof.
  induction lines as [|[i|x y] lines IH]; intros flags;
    cbn [close_all fold_left close_line]; [reflexivity| |apply IH].
  unfold close_all in IH. now rewrite IH, length_insert.
Qed.

Lemma read_queries_spec N M lines :
  forall queries passable,
    length passable = M ->
    Forall (line_ok N M) lines ->
    read_queries lines queries passable =
      inr (queries ++ map store lines, close_all lines passable).
Proof.
  induction lines as [|l lines IH]; intros queries passable Hlen Hl.
  - cbn. now rewrite app_nil_r.
  - inversion Hl as [|l' lines' Hl1 Hl2]. subst.
    destruct l as [i|x y]; cbn [read_queries map store close_all fold_left
                                 close_line].
    + cbn in Hl1. rewrite py_index_in_range by lia.
      rewrite IH by (rewrite ?length_insert; auto).
      now rewrite <- app_assoc.
    + rewrite IH by auto. now rewrite <- app_assoc.
Qed.

Lemma entry_lookup n d x y :
  shape n d -> 0 <= x < Z.of_nat n -> 0 <= y < Z.of_nat n ->
  exists row,
    py_lookup d x = Some row /\
    py_lookup row y = Some (get d (Z.to_nat x) (Z.to_nat y)).
Proof.
  intros [Hlen Hrows] Hx Hy.
  destruct (py_lookup_in_range d x) as (row & Hrow & Hrow'); [lia|].
  assert (Hlr : length row = n).
  { rewrite Forall_forall in Hrows. apply Hrows.
    apply list_elem_of_lookup. eauto. }
  destruct (py_lookup_in_range row y) as (v & Hv & Hv'); [lia|].
  exists row. split; [exact Hrow|]. rewrite Hv. f_equal.
  unfold get. apply list_lookup_total_correct in Hrow'. rewrite Hrow'.
  symmetry. now apply list_lookup_total_correct.
Qed.

Lemma knows_weaken F F' G fw : knows F G fw -> incl F F' -> knows F' G fw.
Proof.
  intros (Hwf & Hw & Hs & Hd & Hc) Hincl.
  split; [exact Hwf|]. split; [exact Hw|]. split; [exact Hs|].
  split; [exact Hd|]. intros Hv i j l Hi Hj Hp Hopt.
  apply (Hc Hv i j l Hi Hj Hp). intros l' Hl'.
  apply Hopt. now apply (path_incl F).
Qed.

Lemma example_solve_knows F G fw :
  no_negative_cycle F -> sentinel_above F (inf fw) -> incl G F ->
  heard G fw ->
  exists m fw',
    engine example_solve fw = inr (m, fw') /\
    knows F G fw' /\ _needs_solve fw' = false /\
    _n fw' = _n fw /\ inf fw' = inf fw.
Proof.
  intros Hnc Habove Hincl ([Hpos Hshape] & Hwithin & Hs & Hd).
  unfold engine, example_solve, bind, this, assert, ret, store_dist,
    store_needs_solve.
  replace (inf fw >? 0) with true by (symmetry; lia).
  cbn [_n inf _dist _needs_solve]. do 2 eexists. split; [reflexivity|].
  cbn [_n inf _dist _needs_solve].
  rewrite (example_floyd_warshall_agrees G); auto;
    [|now apply (no_negative_cycle_incl G F)].
  split; [|auto].
  split; [|split; [exact Hwithin|split; [|split]]];
    cbn [_n inf _dist _needs_solve].
  - split; [exact Hpos|]. now apply floyd_warshall_shape.
  - now apply floyd_warshall_sound.
  - eapply direct_below; [exact Hd|]. now apply floyd_warshall_below.
  - intros _. now apply (floyd_warshall_complete F).
Qed.

Lemma reopen_tracking N F F' G fw A B C :
  tracking N F G fw ->
  no_negative_cycle F' -> sentinel_above F' (N * 10 ^ 9) ->
  0 <= A < N -> 0 <= B < N -> C < N * 10 ^ 9 ->
  (forall e, In e F' <->
     e = (Z.to_nat A, Z.to_nat B, C) \/ e = (Z.to_nat B, Z.to_nat A, C) \/
     In e F) ->
  exists fw1 fw2,
    engine (add_edge A B C true) fw = inr (tt, fw1) /\
    engine (add_edge B A C true) fw1 = inr (tt, fw2) /\
    tracking N F'
      ((Z.to_nat B, Z.to_nat A, C) :: (Z.to_nat A, Z.to_nat B, C) :: G) fw2.
Proof.
  intros (Hk & Hvalid & HGF & HFG & Hn & Hi) Hnc Habove HA HB HC HF'.
  assert (HFF' : incl F F') by (intros e He; apply HF'; auto).
  apply (knows_weaken F F') in Hk; [|exact HFF'].
  destruct (add_edge_returns fw A B C true)
    as (fw1 & Hadd1 & Hn1 & Hi1 & Hv1);
    try (unfold in_range; lia); [now rewrite Hvalid|].
  destruct (add_edge_knows F' Hnc G fw A B C true fw1) as (Hk1 & _ & _);
    auto.
  { now rewrite Hi. }
  { intros e [<-|He]; apply HF'; auto. }
  destruct (add_edge_returns fw1 B A C true)
    as (fw2 & Hadd2 & Hn2 & Hi2 & Hv2);
    try (unfold in_range; lia); [now rewrite Hv1|].
  destruct (add_edge_knows F' Hnc _ fw1 B A C true fw2 ltac:(now rewrite Hi1, Hi)
              Hk1) as (Hk2 & _ & _); auto.
  { intros e [<-|[<-|He]]; apply HF'; auto. }
  exists fw1, fw2. unfold engine. rewrite Hadd1, Hadd2.
  split; [reflexivity|]. split; [reflexivity|].
  split; [exact Hk2|]. split; [now apply Hv2|]. split; [|split; [|split]].
  - intros e [<-|[<-|He]]; apply HF'; auto.
  - intros e He. apply HF' in He as [->|[->|He]];
      [right; now left|now left|right; right; now apply HFG].
  - lia.
  - congruence.
Qed.

Lemma close_all_snoc pre l flags :
  close_all (pre ++ [l]) flags = close_line (close_all pre flags) l.
Proof. unfold close_all. now rewrite fold_left_app. Qed.

Lemma closes_open_snoc pre l :
  forall flags,
    closes_open flags (pre ++ [l]) <->
    closes_open flags pre /\ closes_open (close_all pre flags) [l].
Proof.
  induction pre as [|l0 pre IH]; intros flags; cbn [app closes_open].
  - unfold close_all. cbn. split; [intros [H _]|intros (_ & H & _)]; auto.
  - rewrite IH. unfold close_all. cbn [fold_left closes_open]. tauto.
Qed.

Lemma tracked_answer N F G fw x y :
  tracking N F G fw ->
  no_negative_cycle F -> sentinel_above F (N * 10 ^ 9) ->
  0 <= x < N -> 0 <= y < N ->
  distance_answer F (Z.to_nat x) (Z.to_nat y)
    (if get (_dist fw) (Z.to_nat x) (Z.to_nat y) =? inf fw then -1
     else get (_dist fw) (Z.to_nat x) (Z.to_nat y)).
Proof.
  intros (Hk & Hvalid & HGF & HFG & Hn & Hi) Hnc Habove Hx Hy.
  destruct (knows_distances F Hnc G fw (Z.to_nat x) (Z.to_nat y))
    as [Hinf Hsh]; auto; try lia.
  { now rewrite Hi. }
  destruct (Z.eqb_spec (get (_dist fw) (Z.to_nat x) (Z.to_nat y)) (inf fw))
    as [He|Hne].
  - right. split; [reflexivity|]. now apply Hinf.
  - left. destruct Hk as (_ & _ & [_ Hs] & _).
    destruct (Hs (Z.to_nat x) (Z.to_nat y)) as [Hle Hp]; try lia.
    apply (Hsh (get (_dist fw) (Z.to_nat x) (Z.to_nat y))).
    apply (path_incl G); [exact HGF|]. apply Hp. lia.
Qed.

Lemma answer_queries_correct N edges flags0 :
  1 <= N -> Forall (road_ok N) edges -> length flags0 = length edges ->
  forall pre fw answers G,
    Forall (line_ok N (length edges)) pre ->
    closes_open flags0 pre ->
    tracking N (network edges (close_all pre flags0)) G fw ->
    exists vs,
      answer_queries edges (rev (map store pre)) fw answers =
        inr (answers ++ vs) /\
      answered edges flags0 pre vs.
Proof.
  intros HN Hedges Hlen.
  induction pre as [|l pre IH] using rev_ind;
    intros fw answers G Hl Hopen Ht.
  - exists []. cbn. split; [now rewrite app_nil_r|constructor].
  - apply Forall_app in Hl as [Hl Hl1]. inversion Hl1 as [|? ? Hl0 _]. subst.
    apply closes_open_snoc in Hopen as [Hopen Hopen1].
    rewrite map_app, rev_app_distr. cbn [map rev app].
    rewrite close_all_snoc in Ht.
    pose proof Ht as (Hk & Hvalid & _ & _ & Hn & Hi).
    destruct l as [i|x y]; cbn [store answer_queries].
    + cbn in Hl0. cbn in Hopen1. destruct Hopen1 as [Hflag _].
      destruct (py_lookup_in_range edges (i - 1)) as ([[A B] C] & -> & Hin);
        [lia|].
      assert (Hok : road_ok N (A, B, C)).
      { rewrite Forall_forall in Hedges.
        apply Hedges, list_elem_of_lookup. eauto. }
      cbn in Hok. destruct Hok as (HA & HB & _ & HC).
      destruct (network_hypotheses N (_n fw) edges (close_all pre flags0))
        as [Hnc' Habove']; auto.
      destruct (reopen_tracking N _ (network edges (close_all pre flags0))
                  G fw A B C Ht Hnc' Habove' HA HB HC)
        as (fw1 & fw2 & -> & -> & Ht2).
      { intros e. now apply network_reopen. }
      destruct (IH fw2 answers _ Hl Hopen Ht2) as (vs & Hrun & Hans).
      exists vs. split; [exact Hrun|]. now constructor.
    + cbn in Hl0. destruct Hl0 as [Hx Hy]. cbn [close_line] in Ht.
      unfold engine at 1. rewrite dist_valid by assumption.
      destruct (entry_lookup (_n fw) (_dist fw) (x - 1) (y - 1))
        as (row & -> & ->); [apply Hk|lia|lia|].
      cbv zeta.
      destruct (network_hypotheses N (_n fw) edges (close_all pre flags0))
        as [Hnc' Habove']; auto.
      destruct (IH fw (answers ++
                  [if get (_dist fw) (Z.to_nat (x - 1)) (Z.to_nat (y - 1))
                      =? inf fw
                   then -1
                   else get (_dist fw) (Z.to_nat (x - 1)) (Z.to_nat (y - 1))])
                  G Hl Hopen Ht) as (vs & Hrun & Hans).
      eexists (_ :: vs). split.
      * rewrite Hrun. now rewrite <- app_assoc.
      * constructor; [|exact Hans].
        apply (tracked_answer N _ G fw); auto; lia.
Qed.

Lemma answered_expected edges flags0 pre vs :
  answered edges flags0 pre vs ->
  forall rest out,
    expected edges (close_all pre flags0) rest out ->
    expected edges flags0 (pre ++ rest) (rev vs ++ out).
Proof.
  induction 1 as [|pre i vs _ IH|pre x y v vs Hv _ IH]; intros rest out He.
  - exact He.
  - rewrite close_all_snoc in He. rewrite <- app_assoc. cbn [app].
    apply IH. now constructor.
  - rewrite close_all_snoc in He. cbn [close_line] in He.
    rewrite <- app_assoc. cbn [app rev]. rewrite <- app_assoc. cbn [app].
    apply IH. now constructor.
Qed.

Lemma insert_passable_heard N es :
  forall fw G,
    heard G fw -> Z.of_nat (_n fw) = N -> inf fw = N * 10 ^ 9 ->
    Forall (fun e => road_ok N (fst e)) es ->
    exists fw' G',
      insert_passable es fw = inr fw' /\
      heard G' fw' /\ Z.of_nat (_n fw') = N /\ inf fw' = N * 10 ^ 9 /\
      forall e, In e G' <-> In e G \/ In e (flat_map open_roads es).
Proof.
  induction es as [|[[[A B] C] passable] es IH]; intros fw G Hh Hn Hi He.
  - exists fw, G. cbn. split; [reflexivity|]. split; [exact Hh|].
    split; [exact Hn|]. split; [exact Hi|]. intros e. tauto.
  - inversion He as [|e es' He1 He']. subst.
    cbn in He1. destruct He1 as (HA & HB & _ & HC).
    cbn [insert_passable flat_map open_roads].
    destruct passable; cbn [negb]; [|now apply IH].
    destruct (add_edge_returns fw A B C false)
      as (fw1 & Hadd1 & Hn1 & Hi1 & _);
      [unfold in_range; lia|unfold in_range; lia|lia|reflexivity|].
    pose proof (add_edge_heard G fw A B C false Hh) as Hh1.
    cbn [new_edge] in Hh1. rewrite Hadd1 in Hh1. cbn [fst snd app] in Hh1.
    destruct (add_edge_returns fw1 B A C false)
      as (fw2 & Hadd2 & Hn2 & Hi2 & _);
      [unfold in_range; lia|unfold in_range; lia|lia|reflexivity|].
    pose proof (add_edge_heard _ fw1 B A C false Hh1) as Hh2.
    cbn [new_edge] in Hh2. rewrite Hadd2 in Hh2. cbn [fst snd app] in Hh2.
    unfold engine. rewrite Hadd1, Hadd2.
    destruct (IH fw2 _ Hh2) as (fw' & G' & Hrun & Hh' & Hn' & Hi' & HG');
      auto; try congruence.
    exists fw', G'. split; [exact Hrun|]. split; [exact Hh'|].
    split; [exact Hn'|]. split; [exact Hi'|].
    intros e. rewrite HG'. cbn [In app]. intuition congruence.
Qed.

(** X14. On input as the problem promises it (well-formed, weights between
    0 and 10^9, every [1 i] line closing a road that is still open) the
    driver prints, for each distance query in the order of the lines, the
    weight of a shortest path between the two vertices in the network of
    the roads not closed by the lines before it, or -1 when the vertices
    are not connected there. *)
Theorem main_prints_shortest_distances N edge_lines query_lines :
  well_formed_input N edge_lines query_lines ->
  Forall (fun '(_, _, C) => 0 <= C <= 10 ^ 9) edge_lines ->
  closes_open (repeat true (length edge_lines)) query_lines ->
  exists out,
    main N edge_lines query_lines = inr out /\
    expected (read_edges edge_lines) (repeat true (length edge_lines))
      query_lines out.
Proof.
  intros (HN & He & Hq) Hweights Hopen. unfold main.
  set (M := length edge_lines) in *.
  set (edges := read_edges edge_lines).
  assert (Hlen_e : length edges = M) by apply length_map.
  assert (Hedges : Forall (road_ok N) edges).
  { apply Forall_forall. intros e Hin.
    apply list_elem_of_In, in_map_iff in Hin as ([[A B] C] & <- & Hin).
    rewrite Forall_forall in He, Hweights.
    apply list_elem_of_In in Hin.
    pose proof (He _ Hin) as H1. pose proof (Hweights _ Hin) as H2.
    cbn in *. lia. }
  rewrite (read_queries_spec N M) by (apply repeat_length || exact Hq).
  cbn [app].
  destruct (proj2 (construct_spec (Z.to_nat N) (N * 10 ^ 9)) ltac:(lia))
    as (fw0 & Hc & Hn0 & Hi0 & _). rewrite Hc.
  set (flags := close_all query_lines (repeat true M)).
  destruct (insert_passable_heard N (combine edges flags) fw0 [])
    as (fw1 & G1 & -> & Hh1 & Hn1 & Hi1 & HG1).
  { now apply (construct_heard (Z.to_nat N) (N * 10 ^ 9)). }
  { lia. }
  { exact Hi0. }
  { apply Forall_combine_l, Hedges. }
  destruct (network_hypotheses N (_n fw1) edges flags) as [Hnc Habove]; auto.
  destruct (example_solve_knows (network edges flags) G1 fw1)
    as (m & fw2 & -> & Hk2 & Hv2 & Hn2 & Hi2); auto.
  { now rewrite Hi1. }
  { intros e He'. apply HG1 in He' as [[]|He']. exact He'. }
  destruct (answer_queries_correct N edges (repeat true M) HN Hedges)
    with (pre := query_lines) (fw := fw2) (answers := @nil Z) (G := G1)
    as (vs & -> & Hans).
  { now rewrite repeat_length. }
  { now rewrite Hlen_e. }
  { exact Hopen. }
  { split; [exact Hk2|]. split; [exact Hv2|]. split; [|split; [|split]].
    - intros e He'. apply HG1 in He' as [[]|He']. exact He'.
    - intros e He'. apply HG1. now right.
    - congruence.
    - congruence. }
  exists (rev vs). split; [reflexivity|].
  pose proof (answered_expected edges (repeat true M) query_lines vs Hans
                [] [] (expected_nil _ _)) as Hexp.
  now rewrite !app_nil_r in Hexp.
Qed.

Lemma main_prints_shortest_distances_witness :
  exists out,
    main 3 [(1, 2, 5); (2, 3, 7)] [Ask 1 3; Close 1; Ask 1 3] = inr out /\
    expected (read_edges [(1, 2, 5); (2, 3, 7)]) (repeat true 2)
      [Ask 1 3; Close 1; Ask 1 3] out.
Proof.
  apply (main_prints_shortest_distances 3 [(1, 2, 5); (2, 3, 7)]
           [Ask 1 3; Close 1; Ask 1 3]).
  - split; [lia|]. split; repeat constructor; cbn; lia.
  - repeat constructor; lia.
  - cbn. repeat split.
Defined.

(** * A sentinel that is high enough *)

Lemma add_edges_within calls :
  forall self self',
    add_edges calls self = (Returned tt, self') ->
    within (_n self) (edges_of calls) /\ _n self' = _n self.
Proof.
  induction calls as [|[[[u v] w] p] calls IH]; intros self self' Hrun.
  - cbn in Hrun. injection Hrun as <-. split; [intros i j w []|reflexivity].
  - cbn [add_edges] in Hrun. unfold bind in Hrun.
    destruct (add_edge u v w p self) as [[[]|e] self1] eqn:Hadd;
      [|discriminate].
    destruct (add_edge_cases self u v w p)
      as [[e [He _]]|(Hu & Hv & _ & _ & Hcase)];
      [rewrite He in Hadd; discriminate|].
    assert (Hn1 : _n self1 = _n self).
    { destruct Hcase as [[_ He]|[_ He]]; rewrite He in Hadd;
        injection Hadd as <-; [reflexivity|now destruct p]. }
    destruct (IH _ _ Hrun) as [Hw Hn']. rewrite Hn1 in Hw, Hn'.
    split; [|exact Hn'].
    change (edges_of (((u, v, w), p) :: calls))
      with ((Z.to_nat u, Z.to_nat v, w) :: edges_of calls).
    intros i j w0 [[= <- <- <-]|Hin]; [|now apply (Hw i j w0)].
    unfold in_range in Hu, Hv. lia.
Qed.

Lemma edges_of_In calls a b w :
  In (a, b, w) (edges_of calls) -> exists u v p, In (u, v, w, p) calls.
Proof.
  unfold edges_of, graph. rewrite map_map. intros Hin.
  apply in_map_iff in Hin as ([[[u v] w'] p] & [= _ _ <-] & Hin). eauto.
Qed.

(** X15. With integer weights between 0 and [W], an integer sentinel of
    at least [num_v * W] is high enough: after any list of [add_edge] calls
    on a fresh object that all return, [solve] returns a matrix in which
    [dist[i][j]] is the weight of a shortest path from [i] to [j], and is
    the sentinel exactly when there is no path. *)
Theorem nonnegative_weights_sentinel num_v sentinel W calls self0 self1 :
  construct num_v sentinel = Returned self0 ->
  add_edges calls self0 = (Returned tt, self1) ->
  0 < W ->
  (forall u v w p, In (u, v, w, p) calls -> 0 <= w <= W) ->
  Z.of_nat num_v * W <= sentinel ->
  exists m self2,
    solve self1 = (Returned m, self2) /\
    forall i j, (i < num_v)%nat -> (j < num_v)%nat ->
      (get m i j = sentinel <-> forall l, ~ path (edges_of calls) i j l) /\
      (forall l, path (edges_of calls) i j l ->
         shortest (edges_of calls) i j (get m i j)).
Proof.
  intros Hc Hrun HW Hweights Hbig.
  assert (Hf : _n self0 = num_v /\ 0 < sentinel).
  { unfold construct in Hc. destruct (sentinel >? 0) eqn:Hs; [|discriminate].
    injection Hc as <-. split; [reflexivity|lia]. }
  destruct Hf as [Hn0 Hpos].
  destruct (add_edges_within calls self0 self1 Hrun) as [Hwithin _].
  rewrite Hn0 in Hwithin.
  assert (Hnn : nonnegative (edges_of calls)).
  { intros a b w Hin. apply edges_of_In in Hin as (u & v & p & Hin).
    apply Hweights in Hin. lia. }
  assert (Hmax : forall a b w, In (a, b, w) (edges_of calls) -> w <= W).
  { intros a b w Hin. apply edges_of_In in Hin as (u & v & p & Hin).
    apply Hweights in Hin. lia. }
  assert (Hnc : no_negative_cycle (edges_of calls))
    by now apply nonnegative_no_negative_cycle.
  assert (Habove : sentinel_above (edges_of calls) sentinel).
  { destruct num_v as [|n].
    - intros i j l [Hp _]. inversion Hp as [|? ? ? ? ? Hin]; subst; [lia|].
      apply Hwithin in Hin. lia.
    - intros i j l Hsh.
      pose proof (nonnegative_sentinel_above (S n) (edges_of calls) W
                    ltac:(lia) HW Hwithin Hnn Hmax i j l Hsh). lia. }
  destruct (fresh_run_knows _ _ _ _ _ Hc Hrun Hnc Habove) as (Hk & Hn & Hi).
  destruct (rev_nil_incl (edges_of calls)) as [HGF HFG].
  destruct (solve_knows (edges_of calls) Hnc
              (rev (edges_of calls) ++ []) self1) as
    (self2 & Hsolve & Hvalid & Hk2 & Hn2 & Hi2); auto.
  { now rewrite Hi. }
  exists (_dist self2), self2. split; [exact Hsolve|].
  intros i j Hi' Hj'. rewrite <- Hi, <- Hi2.
  apply (knows_distances (edges_of calls) Hnc
           (rev (edges_of calls) ++ []) self2); auto.
  - now rewrite Hi2, Hi.
  - now rewrite Hn2, Hn.
  - now rewrite Hn2, Hn.
Qed.

Lemma nonnegative_weights_sentinel_witness :
  exists m self2,
    solve (snd (add_edges [(0, 1, 5, false); (1, 2, 10, false)]
                  (mkFW 3 30 (init_dist 3 30) false))) =
      (Returned m, self2) /\
    forall i j, (i < 3)%nat -> (j < 3)%nat ->
      (get m i j = 30 <->
       forall l, ~ path (edges_of [(0, 1, 5, false); (1, 2, 10, false)])
                     i j l) /\
      (forall l, path (edges_of [(0, 1, 5, false); (1, 2, 10, false)]) i j l ->
         shortest (edges_of [(0, 1, 5, false); (1, 2, 10, false)]) i j
           (get m i j)).
Proof.
  apply (nonnegative_weights_sentinel 3 30 10
           [(0, 1, 5, false); (1, 2, 10, false)]
           (mkFW 3 30 (init_dist 3 30) false)).
  - reflexivity.
  - reflexivity.
  - lia.
  - intros u v w p [[= <- <- <- <-]|[[= <- <- <- <-]|[]]]; lia.
  - lia.
Defined.

(** * Floating-point weights

    The theorems above are about integer weights and an integer sentinel.
    The number-generic copy of the methods is the integer model at [Z]; run
    on binary64 floats it shows what the rounding of sums does to the
    properties that rest on exact sums. *)

Lemma poly_get_integers d i j : poly_get d i j = get d i j.
Proof. reflexivity. Qed.

Lemma poly_init_dist_integers num_v i :
  poly_init_dist num_v i = init_dist num_v i.
Proof. reflexivity. Qed.

Lemma poly_propagate_integers n i u v w d :
  poly_propagate n i u v w d = propagate n i u v w d.
Proof. reflexivity. Qed.

Lemma poly_floyd_warshall_integers n i d :
  poly_floyd_warshall n i d = floyd_warshall n i d.
Proof. reflexivity. Qed.

Lemma poly_example_floyd_warshall_integers n i d :
  poly_example_floyd_warshall n i d = example_floyd_warshall n i d.
Proof. reflexivity. Qed.

Lemma poly_construct_integers num_v i :
  poly_construct num_v i =
  match construct num_v i with
  | Returned self => Returned (as_poly self)
  | Raised e => Raised e
  end.
Proof.
  unfold poly_construct, construct. cbn [ngt n0 integers].
  now destruct (i >? 0).
Qed.

Lemma poly_add_edge_integers u v w p self :
  poly_add_edge u v w p (as_poly self) =
  (fst (add_edge u v w p self), as_poly (snd (add_edge u v w p self))).
Proof.
  unfold poly_add_edge. run_method.
  cbn [as_poly poly_n poly_inf poly_dist poly_needs_solve nlt nge integers].
  destruct ((0 <=? u) && (u <? Z.of_nat (_n self))); [|reflexivity].
  destruct ((0 <=? v) && (v <? Z.of_nat (_n self))); [|reflexivity].
  destruct (w <? inf self); [|reflexivity].
  cbn [negb].
  destruct (p && _needs_solve self); [reflexivity|].
  rewrite poly_get_integers.
  destruct (w >=? get (_dist self) (Z.to_nat u) (Z.to_nat v));
    [reflexivity|].
  now destruct p.
Qed.

Lemma poly_solve_integers self :
  poly_solve (as_poly self) =
  (fst (solve self), as_poly (snd (solve self))).
Proof.
  unfold poly_solve. run_method.
  cbn [as_poly poly_n poly_inf poly_dist poly_needs_solve ngt n0 integers].
  destruct (inf self >? 0); [|reflexivity].
  now destruct (_needs_solve self).
Qed.

Lemma poly_example_solve_integers self :
  poly_example_solve (as_poly self) =
  (fst (example_solve self), as_poly (snd (example_solve self))).
Proof.
  unfold poly_example_solve, example_solve. run_method.
  cbn [as_poly poly_n poly_inf poly_dist poly_needs_solve ngt n0 integers].
  now destruct (inf self >? 0).
Qed.

Lemma poly_has_negative_cycle_integers self :
  poly_has_negative_cycle (as_poly self) =
  (fst (has_negative_cycle self), as_poly (snd (has_negative_cycle self))).
Proof.
  unfold poly_has_negative_cycle. run_method.
  cbn [as_poly poly_n poly_inf poly_dist poly_needs_solve].
  now destruct (_needs_solve self).
Qed.

(** On floats, propagated insertion and a batch solve differ in the last
    bit.  Edges [2 -> 3], [1 -> 2], [0 -> 1] of weights [0.3], [0.2], [0.1]
    into a fresh object of four vertices with the default sentinel
    [float('inf')]: inserted with [update_dists=True] they leave
    [dist[0][3] = 0.1 + (0.2 + 0.3) = 0.6]; inserted lazily and solved,
    [dist[0][3] = (0.1 + 0.2) + 0.3 = 0.6000000000000001]. *)
Lemma float_incremental_differs_from_batch :
  exists fresh eager lazy solved,
    poly_construct 4 infinity = Returned fresh /\
    poly_add_edges [(2, 3, f03, true); (1, 2, f02, true); (0, 1, f01, true)]
      fresh = (Returned tt, eager) /\
    poly_add_edges [(2, 3, f03, false); (1, 2, f02, false);
                    (0, 1, f01, false)] fresh = (Returned tt, lazy) /\
    poly_solve lazy = (Returned (poly_dist solved), solved) /\
    poly_needs_solve eager = false /\
    poly_get (poly_dist eager) 0 3 = f06 /\
    poly_get (poly_dist solved) 0 3 = f06_up /\
    PrimFloat.ltb f06 f06_up = true.
Proof.
  set (fresh := mkPolyFW 4 infinity (poly_init_dist 4 infinity) false).
  exists fresh,
    (snd (poly_add_edges
            [(2, 3, f03, true); (1, 2, f02, true); (0, 1, f01, true)] fresh)),
    (snd (poly_add_edges
            [(2, 3, f03, false); (1, 2, f02, false); (0, 1, f01, false)]
            fresh)),
    (snd (poly_solve
            (snd (poly_add_edges
                    [(2, 3, f03, false); (1, 2, f02, false);
                     (0, 1, f01, false)] fresh)))).
  vm_compute. repeat split.
Qed.

(** On floats, one propagated insertion and a lazy insertion followed by
    [solve] differ.  After [0 -> 2] of weight [0.1] and [2 -> 1] of weight
    [0.2], both propagated, the edge [1 -> 3] of weight [0.3] gives
    [dist[0][3] = 0.6000000000000001] when propagated and [0.6] when
    inserted lazily and solved. *)
Lemma float_propagation_differs_from_solve :
  exists fresh before eager lazy solved,
    poly_construct 4 infinity = Returned fresh /\
    poly_add_edges [(0, 2, f01, true); (2, 1, f02, true)] fresh =
      (Returned tt, before) /\
    poly_needs_solve before = false /\
    poly_add_edge 1 3 f03 true before = (Returned tt, eager) /\
    poly_add_edge 1 3 f03 false before = (Returned tt, lazy) /\
    poly_solve lazy = (Returned (poly_dist solved), solved) /\
    poly_get (poly_dist eager) 0 3 = f06_up /\
    poly_get (poly_dist solved) 0 3 = f06.
Proof.
  set (fresh := mkPolyFW 4 infinity (poly_init_dist 4 infinity) false).
  set (before :=
         snd (poly_add_edges [(0, 2, f01, true); (2, 1, f02, true)] fresh)).
  exists fresh, before,
    (snd (poly_add_edge 1 3 f03 true before)),
    (snd (poly_add_edge 1 3 f03 false before)),
    (snd (poly_solve (snd (poly_add_edge 1 3 f03 false before)))).
  vm_compute. repeat split.
Qed.

(** On floats, rounding makes a diagonal entry negative where no cycle of
    negative weight exists.  The cycle [0 -> 1 -> 2 -> 3 -> 0] of weights
    [2**53], [1], [1], [-(2**53 + 2)] has weight 0; after [solve],
    [dist[0][0] = -2] and [has_negative_cycle()] answers [True].  With the
    same weights as integers the diagonal entry is 0 and the answer
    [False]. *)
Lemma float_rounding_raises_false_alarm :
  (exists fresh lazy solved,
     poly_construct 4 infinity = Returned fresh /\
     poly_add_edges [(0, 1, f2p53, false); (1, 2, 1%float, false);
                     (2, 3, 1%float, false); (3, 0, fm2p53m2, false)]
       fresh = (Returned tt, lazy) /\
     poly_solve lazy = (Returned (poly_dist solved), solved) /\
     poly_get (poly_dist solved) 0 0 = (-2)%float /\
     poly_has_negative_cycle solved = (Returned true, solved)) /\
  (exists fresh lazy solved,
     construct 4 (2 ^ 60) = Returned fresh /\
     add_edges [(0, 1, 2 ^ 53, false); (1, 2, 1, false); (2, 3, 1, false);
                (3, 0, - (2 ^ 53 + 2), false)] fresh = (Returned tt, lazy) /\
     solve lazy = (Returned (_dist solved), solved) /\
     get (_dist solved) 0 0 = 0 /\
     has_negative_cycle solved = (Returned false, solved)).
Proof.
  split.
  - set (fresh := mkPolyFW 4 infinity (poly_init_dist 4 infinity) false).
    set (lazy :=
           snd (poly_add_edges
                  [(0, 1, f2p53, false); (1, 2, 1%float, false);
                   (2, 3, 1%float, false); (3, 0, fm2p53m2, false)] fresh)).
    exists fresh, lazy, (snd (poly_solve lazy)).
    vm_compute. repeat split.
  - set (fresh := mkFW 4 (2 ^ 60) (init_dist 4 (2 ^ 60)) false).
    set (lazy :=
           snd (add_edges
                  [(0, 1, 2 ^ 53, false); (1, 2, 1, false); (2, 3, 1, false);
                   (3, 0, - (2 ^ 53 + 2), false)] fresh)).
    exists fresh, lazy, (snd (solve lazy)).
    vm_compute. repeat split.
Qed.

(** On floats, the [solve] of [example/example.py], which has no early
    return, changes an up-to-date matrix.  After [0 -> 1], [1 -> 2],
    [2 -> 3] of weights [0.1], [0.2], [0.3], all propagated,
    [dist[0][3] = 0.6000000000000001]; the example's [solve] lowers it to
    [0.6], while the [solve] of [floyd_warshall.py] returns at once. *)
Lemma float_example_solve_changes_up_to_date :
  exists fresh eager again,
    poly_construct 4 infinity = Returned fresh /\
    poly_add_edges [(0, 1, f01, true); (1, 2, f02, true); (2, 3, f03, true)]
      fresh = (Returned tt, eager) /\
    poly_needs_solve eager = false /\
    poly_solve eager = (Returned (poly_dist eager), eager) /\
    poly_example_solve eager = (Returned (poly_dist again), again) /\
    poly_get (poly_dist eager) 0 3 = f06_up /\
    poly_get (poly_dist again) 0 3 = f06.
Proof.
  set (fresh := mkPolyFW 4 infinity (poly_init_dist 4 infinity) false).
  set (eager :=
         snd (poly_add_edges
                [(0, 1, f01, true); (1, 2, f02, true); (2, 3, f03, true)]
                fresh)).
  exists fresh, eager, (snd (poly_example_solve eager)).
  vm_compute. repeat split.
Qed.

(** On floats, the two versions of [solve] differ on a stale matrix.  Five
    vertices, edges [3 -> 0], [0 -> 1], [1 -> 2], [2 -> 3], [3 -> 4] of
    weights [2**53], [1], [1], [-(2**53 + 2)], [1], no cycle of negative
    weight: rounding makes [dist[0][0]] negative during the rounds, and the
    version that reads [dist[i][k]] once per row ends with
    [dist[0][4] = -(2**53 - 1)], the version that reads it for every [j]
    with [dist[0][4] = -2**53]. *)
Lemma float_example_solve_differs :
  exists fresh lazy solved example_solved,
    poly_construct 5 infinity = Returned fresh /\
    poly_add_edges [(3, 0, f2p53, false); (0, 1, 1%float, false);
                    (1, 2, 1%float, false); (2, 3, fm2p53m2, false);
                    (3, 4, 1%float, false)] fresh = (Returned tt, lazy) /\
    poly_solve lazy = (Returned (poly_dist solved), solved) /\
    poly_example_solve lazy =
      (Returned (poly_dist example_solved), example_solved) /\
    poly_get (poly_dist solved) 0 4 = (-0x1.fffffffffffffp+52)%float /\
    poly_get (poly_dist example_solved) 0 4 = (-0x1p+53)%float.
Proof.
  set (fresh := mkPolyFW 5 infinity (poly_init_dist 5 infinity) false).
  set (lazy :=
         snd (poly_add_edges
                [(3, 0, f2p53, false); (0, 1, 1%float, false);
                 (1, 2, 1%float, false); (2, 3, fm2p53m2, false);
                 (3, 4, 1%float, false)] fresh)).
  exists fresh, lazy, (snd (poly_solve lazy)), (snd (poly_example_solve lazy)).
  vm_compute. repeat split.
Qed.
